(** * NearbyBites / RestaurantFinder: the search-and-sync engine

    A shallow embedding of the React component
    [src/components/NearbyBites/index.tsx]: its result normalizer, its
    display filter (with the form the filter has in the sibling
    variants), its marker synchronizer and its search scheduler, and
    the properties they have.

    Conventions.
    - A JavaScript [number] that holds a rating is a finite double; it is
      modelled by the rational it denotes ([Q]).  Comparison of finite
      doubles is comparison of these rationals, and the sign of the
      floating-point difference [x - y] is the sign of the exact one.
    - An optional field ([rating?: number]) is an [option]; [None] is
      [undefined].
    - A callback that can raise a [TypeError] returns a [result].
    - A JavaScript string is modelled by a [string]; the two agree on
      strings of ASCII characters, and what depends on the case of
      letters is stated for such strings.
    - The component's state is threaded explicitly; the browser's timers
      and the provider's unanswered calls are part of it, and time is
      counted in milliseconds. *)

From Stdlib Require Import ZArith QArith Qminmax List String Ascii Bool Lia.
From Stdlib Require Import Sorted Permutation Lqa.
Import ListNotations.

Local Open Scope string_scope.
Local Open Scope list_scope.
Local Open Scope Z_scope.

Set Implicit Arguments.

(** ** Results of fallible JavaScript code *)

Inductive exn : Type :=
| TypeError (* reading a property of [undefined] *).

Inductive result (A : Type) : Type :=
| Ok (a : A)
| Throw (e : exn).

Arguments Ok {A} a.
Arguments Throw {A} e.

Definition bind {A B : Type} (r : result A) (k : A -> result B) : result B :=
  match r with
  | Ok a => k a
  | Throw e => Throw e
  end.

Notation "x <- r ;; k" := (bind r (fun x => k))
  (at level 61, r at next level, right associativity).

(** [Array.prototype.map] with a callback that may throw: the first
    exception aborts the whole call. *)
Fixpoint mapM {A B : Type} (f : A -> result B) (l : list A) : result (list B) :=
  match l with
  | [] => Ok []
  | x :: l' => y <- f x ;; ys <- mapM f l' ;; Ok (y :: ys)
  end.

(** ** Data model *)

Record LatLng : Type := { lat : Q; lng : Q }.

(** [google.maps.places.PlaceGeometry]: [location] is optional. *)
Record PlaceGeometry : Type := { location : option LatLng }.

Definition PlacePhoto : Type := string.

(** [google.maps.places.PlaceResult], the fields the component reads.
    Every one of them is optional in the provider's type. *)
Record PlaceResult : Type := {
  place_id : option string;
  name : option string;
  rating : option Q;
  user_ratings_total : option Z;
  vicinity : option string;
  types : option (list string);
  photos : option (list PlacePhoto);
  geometry : option PlaceGeometry
}.

(** The value built by the object literal in [searchNearby].
    The TypeScript type [Restaurant] declares [place_id], [name] and
    [geometry.location] as required, but they are filled through the
    non-null assertion [!], which is erased at run time: the run-time
    value carries whatever the provider sent. *)
Record RestaurantGeometry : Type := { r_location : option LatLng }.

Record Restaurant : Type := {
  r_place_id : option string;
  r_name : option string;
  r_rating : option Q;
  r_user_ratings_total : option Z;
  r_vicinity : option string;
  r_types : option (list string);
  r_photos : option (list PlacePhoto);
  r_geometry : RestaurantGeometry
}.

(** ** ResultNormalizer *)

Module Normalizer.

(** The admission floor of [.filter(place => place.rating && place.rating >= 3.5)]. *)
Definition floor : Q := 7 # 2.

(** JavaScript truthiness of an optional number: [undefined] and [0] are
    falsy. *)
Definition truthy (r : option Q) : bool :=
  match r with
  | None => false
  | Some q => negb (Qeq_bool q 0)
  end.

(** [place.rating && place.rating >= 3.5], read as a condition. *)
Definition admitted (place : PlaceResult) : bool :=
  match rating place with
  | None => false
  | Some q => truthy (Some q) && Qle_bool floor q
  end.

(** [x.rating || 0] *)
Definition ratingOr0 (r : option Q) : Q :=
  match r with
  | None => 0
  | Some q => if Qeq_bool q 0 then 0 else q
  end.

(** The comparator [(a, b) => (b.rating || 0) - (a.rating || 0)]. *)
Definition compareFn (a b : PlaceResult) : Q :=
  ratingOr0 (rating b) - ratingOr0 (rating a).

(** [Array.prototype.sort] with a consistent comparator.  ECMAScript
    (2019 and later) requires the sort to be stable, so its result is
    the one stable arrangement in which [cmp a b <= 0] for every [a]
    placed before [b]; insertion from the right computes it.  An
    element stays in front of the ones that followed it unless the
    comparator says it must come after ([cmp x y > 0]).  That the
    result does not depend on the algorithm is
    [NormalizerFacts.stable_sort_unique]. *)
Section Sort.

Variable A : Type.
Variable cmp : A -> A -> Q.

Fixpoint insert (x : A) (l : list A) : list A :=
  match l with
  | [] => [x]
  | y :: l' =>
      if Qle_bool (cmp x y) 0 then x :: y :: l' else y :: insert x l'
  end.

Fixpoint sort (l : list A) : list A :=
  match l with
  | [] => []
  | x :: l' => insert x (sort l')
  end.

End Sort.

(** [results.filter(...).sort(...)] *)
Definition sorted (results : list PlaceResult) : list PlaceResult :=
  sort compareFn (filter admitted results).

(** The callback of [sorted.map(place => ({ ... }))].
    [place.geometry!.location!] reads [location] of [place.geometry]:
    when [geometry] is [undefined] this raises a [TypeError]; when only
    [location] is [undefined] the read succeeds and yields [undefined]. *)
Definition mapPlace (place : PlaceResult) : result Restaurant :=
  match geometry place with
  | None => Throw TypeError
  | Some g =>
      Ok {| r_place_id := place_id place;
            r_name := name place;
            r_rating := rating place;
            r_user_ratings_total := user_ratings_total place;
            r_vicinity := vicinity place;
            r_types := types place;
            r_photos := photos place;
            r_geometry := {| r_location := location g |} |}
  end.

(** [mappedResults] of the [OK] branch. *)
Definition normalize (results : list PlaceResult) : result (list Restaurant) :=
  mapM mapPlace (sorted results).

(** The key the comparator orders by. *)
Definition key (p : PlaceResult) : Q := ratingOr0 (rating p).

(** [b] may follow [a] in an array sorted by the comparator. *)
Definition desc (a b : PlaceResult) : Prop := (key b <= key a)%Q.

(** The same order on the mapped records. *)
Definition r_key (r : Restaurant) : Q := ratingOr0 (r_rating r).

Definition r_desc (a b : Restaurant) : Prop := (r_key b <= r_key a)%Q.

(** The records of one rating. *)
Definition ratingIs (q : Q) (p : PlaceResult) : bool := Qeq_bool (key p) q.

Definition r_ratingIs (q : Q) (r : Restaurant) : bool := Qeq_bool (r_key r) q.

End Normalizer.

(** ** Strings *)

Module Str.

Local Open Scope nat_scope.

(** [String.prototype.toLowerCase] on strings of ASCII characters, where
    it lowers the letters A to Z and leaves every other character.
    Strings that hold other cased letters are outside this model: what
    depends on how letters are lowered is stated for ASCII strings
    ([isAscii]). *)
Definition lower_ascii (c : ascii) : ascii :=
  let n := nat_of_ascii c in
  if (65 <=? n) && (n <=? 90) then ascii_of_nat (n + 32) else c.

Fixpoint toLowerCase (s : string) : string :=
  match s with
  | EmptyString => EmptyString
  | String c s' => String (lower_ascii c) (toLowerCase s')
  end.

(** [s.includes(sub)]: [sub] occurs in [s] at some position. *)
Fixpoint includes (s sub : string) : bool :=
  if String.prefix sub s then true
  else match s with
       | EmptyString => false
       | String _ s' => includes s' sub
       end.

(** Truthiness of a string: only the empty string is falsy. *)
Definition nonEmpty (s : string) : bool :=
  match s with
  | EmptyString => false
  | String _ _ => true
  end.

(** Every character of [s] is an ASCII character. *)
Fixpoint isAscii (s : string) : bool :=
  match s with
  | EmptyString => true
  | String c s' => (nat_of_ascii c <? 128) && isAscii s'
  end.

End Str.

(** ** FilterPipeline *)

Module FilterPipeline.

Record DisplayFilters : Type := {
  searchTerm : string;
  cuisineFilter : string;
  minRating : Q
}.

(** [Array.prototype.some] *)
Definition some {A : Type} (f : A -> bool) (l : list A) : bool := existsb f l.

(** [Array.prototype.filter] with a callback that may throw. *)
Fixpoint filterM {A : Type} (f : A -> result bool) (l : list A) : result (list A) :=
  match l with
  | [] => Ok []
  | x :: l' =>
      b <- f x ;; rest <- filterM f l' ;; Ok (if b then x :: rest else rest)
  end.

(** *** [src/components/NearbyBites/index.tsx]
<<
    const matchesSearch = r.name.toLowerCase().includes(searchTerm.toLowerCase()) ||
      (r.vicinity && r.vicinity.toLowerCase().includes(searchTerm.toLowerCase()));
    const matchesCuisine = !cuisineFilter || (r.types && r.types.some(t =>
      t.toLowerCase().includes(cuisineFilter.toLowerCase())));
    const matchesRating = r.rating !== undefined && r.rating >= minRating;
    return matchesSearch && matchesCuisine && matchesRating;
>>
    [r.name.toLowerCase()] raises a [TypeError] when [name] is
    [undefined]; nothing else in the callback can throw. *)

Definition matchesSearch (f : DisplayFilters) (r : Restaurant) : result bool :=
  match r_name r with
  | None => Throw TypeError
  | Some n =>
      let term := Str.toLowerCase (searchTerm f) in
      Ok (Str.includes (Str.toLowerCase n) term
          || match r_vicinity r with
             | None => false
             | Some v => Str.nonEmpty v && Str.includes (Str.toLowerCase v) term
             end)
  end.

Definition matchesCuisine (f : DisplayFilters) (r : Restaurant) : bool :=
  negb (Str.nonEmpty (cuisineFilter f))
  || match r_types r with
     | None => false
     | Some ts =>
         some (fun t => Str.includes (Str.toLowerCase t)
                          (Str.toLowerCase (cuisineFilter f))) ts
     end.

Definition matchesRating (f : DisplayFilters) (r : Restaurant) : bool :=
  match r_rating r with
  | None => false
  | Some q => Qle_bool (minRating f) q
  end.

Definition displayed (f : DisplayFilters) (r : Restaurant) : result bool :=
  ms <- matchesSearch f r ;;
  Ok (ms && matchesCuisine f r && matchesRating f r).

Definition filteredRestaurants (f : DisplayFilters) (restaurants : list Restaurant)
  : result (list Restaurant) :=
  filterM (displayed f) restaurants.

(** The strings the callback reads from the filter state, and from a
    restaurant, are ASCII strings. *)
Definition asciiFilters (f : DisplayFilters) : bool :=
  Str.isAscii (searchTerm f) && Str.isAscii (cuisineFilter f).

Definition asciiFields (r : Restaurant) : bool :=
  match r_name r with Some n => Str.isAscii n | None => true end
  && match r_vicinity r with Some v => Str.isAscii v | None => true end
  && match r_types r with Some ts => forallb Str.isAscii ts | None => true end.

(** *** The sibling variants ([src/unnamed/part_000] to [part_002])
<<
    const matchesSearch = r.name.toLowerCase().includes(searchTerm.toLowerCase()) ||
                         r.vicinity?.toLowerCase().includes(searchTerm.toLowerCase());
    const matchesCuisine = !cuisineFilter ||
                          r.types?.some(type => type.includes(cuisineFilter.toLowerCase()));
    const matchesRating = r.rating ? r.rating >= minRating : false;
>> *)

Module Sibling.

Definition matchesSearch (f : DisplayFilters) (r : Restaurant) : result bool :=
  match r_name r with
  | None => Throw TypeError
  | Some n =>
      let term := Str.toLowerCase (searchTerm f) in
      Ok (Str.includes (Str.toLowerCase n) term
          || match r_vicinity r with
             | None => false
             | Some v => Str.includes (Str.toLowerCase v) term
             end)
  end.

Definition matchesCuisine (f : DisplayFilters) (r : Restaurant) : bool :=
  negb (Str.nonEmpty (cuisineFilter f))
  || match r_types r with
     | None => false
     | Some ts =>
         some (fun t => Str.includes t (Str.toLowerCase (cuisineFilter f))) ts
     end.

Definition matchesRating (f : DisplayFilters) (r : Restaurant) : bool :=
  if Normalizer.truthy (r_rating r)
  then match r_rating r with
       | Some q => Qle_bool (minRating f) q
       | None => false
       end
  else false.

Definition displayed (f : DisplayFilters) (r : Restaurant) : result bool :=
  ms <- matchesSearch f r ;;
  Ok (ms && matchesCuisine f r && matchesRating f r).

Definition filteredRestaurants (f : DisplayFilters) (restaurants : list Restaurant)
  : result (list Restaurant) :=
  filterM (displayed f) restaurants.

End Sibling.

End FilterPipeline.

(** ** MarkerSynchronizer *)

Module Markers.

(** An [AdvancedMarkerElement] created by [updateMarkers].  [mk_attached]
    tells whether its [map] property is the map ([true]) or [null]. *)
Record Marker : Type := {
  mk_attached : bool;
  mk_position : option LatLng;
  mk_title : option string;
  mk_restaurant : Restaurant (* captured by the click listener *)
}.

(** Marker objects live in the host's memory; a handle is the position
    of the object in [heap].  [markersRef] is [markersRef.current], the
    array of handles the component keeps. *)
Record Store : Type := {
  heap : list Marker;
  markersRef : list nat
}.

Definition empty : Store := {| heap := []; markersRef := [] |}.

(** [marker.map = null] *)
Definition release (m : Marker) : Marker :=
  {| mk_attached := false;
     mk_position := mk_position m;
     mk_title := mk_title m;
     mk_restaurant := mk_restaurant m |}.

Fixpoint releaseAt (h : nat) (hp : list Marker) : list Marker :=
  match hp, h with
  | [], _ => []
  | m :: hp', O => release m :: hp'
  | m :: hp', S h' => m :: releaseAt h' hp'
  end.

(** [markersRef.current.forEach(marker => marker.map = null);
     markersRef.current = [];] *)
Definition clear (st : Store) : Store :=
  {| heap := fold_left (fun hp h => releaseAt h hp) (markersRef st) (heap st);
     markersRef := [] |}.

(** [new google.maps.marker.AdvancedMarkerElement({ map, position, title, content })] *)
Definition newMarker (r : Restaurant) : Marker :=
  {| mk_attached := true;
     mk_position := r_location (r_geometry r);
     mk_title := r_name r;
     mk_restaurant := r |}.

(** One turn of [restaurants.forEach(restaurant => { ...; markersRef.current.push(marker) })] *)
Definition create (st : Store) (r : Restaurant) : Store :=
  {| heap := heap st ++ [newMarker r];
     markersRef := markersRef st ++ [List.length (heap st)] |}.

Definition updateMarkers (restaurants : list Restaurant) (st : Store) : Store :=
  fold_left create restaurants (clear st).

(** The markers of the synchronizer that are shown on the map. *)
Definition live (st : Store) : nat :=
  List.length (filter mk_attached (heap st)).

(** Every marker still on the map is one the component holds a handle
    of: what [updateMarkers] relies on to find the markers to release. *)
Definition tracked (st : Store) : Prop :=
  forall h m, nth_error (heap st) h = Some m -> mk_attached m = true ->
              In h (markersRef st).

(** The stores that [updateMarkers] can produce from the initial one. *)
Inductive reachable : Store -> Prop :=
| reach_empty : reachable empty
| reach_update : forall st rs, reachable st -> reachable (updateMarkers rs st).

End Markers.

(** ** The gateway request *)

Module Gateway.

Inductive PlacesServiceStatus : Type :=
| OK | ZERO_RESULTS | INVALID_REQUEST | OVER_QUERY_LIMIT
| REQUEST_DENIED | UNKNOWN_ERROR | NOT_FOUND.

Inductive RankBy : Type := PROMINENCE | DISTANCE.

Record PlaceSearchRequest : Type := {
  rq_location : LatLng;
  rq_radius : Z;
  rq_type : string;
  rq_rankBy : RankBy;
  rq_keyword : option string
}.

(** [a || b] on strings and [a || undefined] *)
Definition orElse (a : string) (b : option string) : option string :=
  if Str.nonEmpty a then Some a else b.


(** [keyword: cuisineFilter || searchTerm || undefined] *)
Definition keywordOf (cuisineFilter searchTerm : string) : option string :=
  orElse cuisineFilter (orElse searchTerm None).

(** The request literal of [searchNearby]. *)
Definition buildRequest (location : LatLng) (searchRadius : Z)
    (cuisineFilter searchTerm : string) : PlaceSearchRequest :=
  {| rq_location := location;
     rq_radius := searchRadius;
     rq_type := "restaurant";
     rq_rankBy := PROMINENCE;
     rq_keyword := keywordOf cuisineFilter searchTerm |}.

(** The request literal of the first search, in the geolocation callback:
    [keyword: searchTerm || undefined]. *)
Definition buildInitialRequest (location : LatLng) (searchRadius : Z)
    (searchTerm : string) : PlaceSearchRequest :=
  {| rq_location := location;
     rq_radius := searchRadius;
     rq_type := "restaurant";
     rq_rankBy := PROMINENCE;
     rq_keyword := orElse searchTerm None |}.

End Gateway.

(** ** SearchScheduler: the component's state *)

Module Scheduler.

Import Gateway.

(** The one [google.maps.Map] object the component creates. *)
Inductive MapHandle : Type := TheMap.

(** What a [searchNearby] closure captured at the render that created it:
    [useCallback(..., [searchTerm, searchRadius, cuisineFilter, updateMarkers])]. *)
Record Closure : Type := {
  cl_mapInstance : option MapHandle;
  cl_searchTerm : string;
  cl_cuisineFilter : string;
  cl_searchRadius : Z
}.

Inductive Origin : Type :=
| InitialLoad       (* [service.nearbySearch] of the geolocation callback *)
| ViaSearchNearby   (* [service.nearbySearch] inside [searchNearby] *).

(** A [nearbySearch] call the provider has not answered yet. *)
Record Call : Type := {
  call_id : nat;
  call_origin : Origin;
  call_request : PlaceSearchRequest
}.

Inductive TimerAction : Type :=
| DebouncedSearch (env : Closure) (* the idle listener's timeout *)
| ResetUpdating                   (* [isUpdatingRef.current = false] *)
| RemoveCircle                    (* [circle.setMap(null)] *).

Record Timer : Type := {
  timer_id : nat;
  due : Z;
  action : TimerAction
}.

(** React state ([useState]). *)
Record UI : Type := {
  restaurants : list Restaurant;
  loading : bool;
  error : option string;
  mapLoaded : bool;
  mapInstance : option MapHandle;
  searchTerm : string;
  cuisineFilter : string;
  minRating : Q;
  searchRadius : Z
}.

(** Refs ([useRef]). *)
Record Refs : Type := {
  markers : Markers.Store;             (* [markersRef] and the marker objects *)
  searchTimeoutRef : option nat;
  isUpdatingRef : bool;
  autocompleteRef : option Closure     (* the [place_changed] listener's closure *)
}.

(** The browser and the provider, as far as the component observes them. *)
Record Host : Type := {
  now : Z;                             (* milliseconds *)
  timers : list Timer;                 (* pending timeouts, oldest first *)
  nextTimer : nat;
  inflight : list Call;
  nextCall : nat;
  issued : list (Z * Call);            (* every gateway call, with its time *)
  mapCenter : option LatLng;           (* [map.getCenter()] *)
  geoPending : bool;                   (* [getCurrentPosition] has not answered *)
  idleListener : option Closure;       (* the registered ['idle'] listener *)
  userPin : option LatLng              (* the 'Your Location' marker on the map *)
}.

Record State : Type := {
  ui : UI;
  dirty : bool;                        (* a state update awaits its render *)
  refs : Refs;
  host : Host
}.

Definition with_ui (f : UI -> UI) (s : State) : State :=
  {| ui := f (ui s); dirty := dirty s; refs := refs s; host := host s |}.

Definition with_dirty (b : bool) (s : State) : State :=
  {| ui := ui s; dirty := b; refs := refs s; host := host s |}.

Definition with_refs (f : Refs -> Refs) (s : State) : State :=
  {| ui := ui s; dirty := dirty s; refs := f (refs s); host := host s |}.

Definition with_host (f : Host -> Host) (s : State) : State :=
  {| ui := ui s; dirty := dirty s; refs := refs s; host := f (host s) |}.

Definition ui_restaurants (v : list Restaurant) (u : UI) : UI :=
  {| restaurants := v; loading := loading u; error := error u;
     mapLoaded := mapLoaded u; mapInstance := mapInstance u;
     searchTerm := searchTerm u; cuisineFilter := cuisineFilter u;
     minRating := minRating u; searchRadius := searchRadius u |}.

Definition ui_loading (v : bool) (u : UI) : UI :=
  {| restaurants := restaurants u; loading := v; error := error u;
     mapLoaded := mapLoaded u; mapInstance := mapInstance u;
     searchTerm := searchTerm u; cuisineFilter := cuisineFilter u;
     minRating := minRating u; searchRadius := searchRadius u |}.

Definition ui_error (v : option string) (u : UI) : UI :=
  {| restaurants := restaurants u; loading := loading u; error := v;
     mapLoaded := mapLoaded u; mapInstance := mapInstance u;
     searchTerm := searchTerm u; cuisineFilter := cuisineFilter u;
     minRating := minRating u; searchRadius := searchRadius u |}.

Definition ui_mapLoaded (v : bool) (u : UI) : UI :=
  {| restaurants := restaurants u; loading := loading u; error := error u;
     mapLoaded := v; mapInstance := mapInstance u;
     searchTerm := searchTerm u; cuisineFilter := cuisineFilter u;
     minRating := minRating u; searchRadius := searchRadius u |}.

Definition ui_mapInstance (v : option MapHandle) (u : UI) : UI :=
  {| restaurants := restaurants u; loading := loading u; error := error u;
     mapLoaded := mapLoaded u; mapInstance := v;
     searchTerm := searchTerm u; cuisineFilter := cuisineFilter u;
     minRating := minRating u; searchRadius := searchRadius u |}.

Definition ui_searchTerm (v : string) (u : UI) : UI :=
  {| restaurants := restaurants u; loading := loading u; error := error u;
     mapLoaded := mapLoaded u; mapInstance := mapInstance u;
     searchTerm := v; cuisineFilter := cuisineFilter u;
     minRating := minRating u; searchRadius := searchRadius u |}.

Definition ui_cuisineFilter (v : string) (u : UI) : UI :=
  {| restaurants := restaurants u; loading := loading u; error := error u;
     mapLoaded := mapLoaded u; mapInstance := mapInstance u;
     searchTerm := searchTerm u; cuisineFilter := v;
     minRating := minRating u; searchRadius := searchRadius u |}.

Definition ui_minRating (v : Q) (u : UI) : UI :=
  {| restaurants := restaurants u; loading := loading u; error := error u;
     mapLoaded := mapLoaded u; mapInstance := mapInstance u;
     searchTerm := searchTerm u; cuisineFilter := cuisineFilter u;
     minRating := v; searchRadius := searchRadius u |}.

Definition ui_searchRadius (v : Z) (u : UI) : UI :=
  {| restaurants := restaurants u; loading := loading u; error := error u;
     mapLoaded := mapLoaded u; mapInstance := mapInstance u;
     searchTerm := searchTerm u; cuisineFilter := cuisineFilter u;
     minRating := minRating u; searchRadius := v |}.

Definition refs_markers (v : Markers.Store) (r : Refs) : Refs :=
  {| markers := v; searchTimeoutRef := searchTimeoutRef r;
     isUpdatingRef := isUpdatingRef r; autocompleteRef := autocompleteRef r |}.

Definition refs_searchTimeoutRef (v : option nat) (r : Refs) : Refs :=
  {| markers := markers r; searchTimeoutRef := v;
     isUpdatingRef := isUpdatingRef r; autocompleteRef := autocompleteRef r |}.

Definition refs_isUpdatingRef (v : bool) (r : Refs) : Refs :=
  {| markers := markers r; searchTimeoutRef := searchTimeoutRef r;
     isUpdatingRef := v; autocompleteRef := autocompleteRef r |}.

Definition refs_autocompleteRef (v : option Closure) (r : Refs) : Refs :=
  {| markers := markers r; searchTimeoutRef := searchTimeoutRef r;
     isUpdatingRef := isUpdatingRef r; autocompleteRef := v |}.

Definition host_now (v : Z) (h : Host) : Host :=
  {| now := v; timers := timers h; nextTimer := nextTimer h;
     inflight := inflight h; nextCall := nextCall h; issued := issued h;
     mapCenter := mapCenter h; geoPending := geoPending h;
     idleListener := idleListener h; userPin := userPin h |}.

Definition host_timers (v : list Timer) (h : Host) : Host :=
  {| now := now h; timers := v; nextTimer := nextTimer h;
     inflight := inflight h; nextCall := nextCall h; issued := issued h;
     mapCenter := mapCenter h; geoPending := geoPending h;
     idleListener := idleListener h; userPin := userPin h |}.

Definition host_nextTimer (v : nat) (h : Host) : Host :=
  {| now := now h; timers := timers h; nextTimer := v;
     inflight := inflight h; nextCall := nextCall h; issued := issued h;
     mapCenter := mapCenter h; geoPending := geoPending h;
     idleListener := idleListener h; userPin := userPin h |}.

Definition host_inflight (v : list Call) (h : Host) : Host :=
  {| now := now h; timers := timers h; nextTimer := nextTimer h;
     inflight := v; nextCall := nextCall h; issued := issued h;
     mapCenter := mapCenter h; geoPending := geoPending h;
     idleListener := idleListener h; userPin := userPin h |}.

Definition host_nextCall (v : nat) (h : Host) : Host :=
  {| now := now h; timers := timers h; nextTimer := nextTimer h;
     inflight := inflight h; nextCall := v; issued := issued h;
     mapCenter := mapCenter h; geoPending := geoPending h;
     idleListener := idleListener h; userPin := userPin h |}.

Definition host_issued (v : list (Z * Call)) (h : Host) : Host :=
  {| now := now h; timers := timers h; nextTimer := nextTimer h;
     inflight := inflight h; nextCall := nextCall h; issued := v;
     mapCenter := mapCenter h; geoPending := geoPending h;
     idleListener := idleListener h; userPin := userPin h |}.

Definition host_mapCenter (v : option LatLng) (h : Host) : Host :=
  {| now := now h; timers := timers h; nextTimer := nextTimer h;
     inflight := inflight h; nextCall := nextCall h; issued := issued h;
     mapCenter := v; geoPending := geoPending h;
     idleListener := idleListener h; userPin := userPin h |}.

Definition host_geoPending (v : bool) (h : Host) : Host :=
  {| now := now h; timers := timers h; nextTimer := nextTimer h;
     inflight := inflight h; nextCall := nextCall h; issued := issued h;
     mapCenter := mapCenter h; geoPending := v;
     idleListener := idleListener h; userPin := userPin h |}.

Definition host_idleListener (v : option Closure) (h : Host) : Host :=
  {| now := now h; timers := timers h; nextTimer := nextTimer h;
     inflight := inflight h; nextCall := nextCall h; issued := issued h;
     mapCenter := mapCenter h; geoPending := geoPending h;
     idleListener := v; userPin := userPin h |}.

Definition host_userPin (v : option LatLng) (h : Host) : Host :=
  {| now := now h; timers := timers h; nextTimer := nextTimer h;
     inflight := inflight h; nextCall := nextCall h; issued := issued h;
     mapCenter := mapCenter h; geoPending := geoPending h;
     idleListener := idleListener h; userPin := v |}.

(** *** React state setters

    A setter stores its value and schedules a render, unless the value
    is the one the state already holds ([Object.is]), in which case
    storing changes nothing and no render is scheduled.  The stored
    value is visible to closures only after that render, which is why
    the handlers below take their closure first. *)

Definition setState (same : bool) (f : UI -> UI) (s : State) : State :=
  {| ui := f (ui s);
     dirty := if same then dirty s else true;
     refs := refs s;
     host := host s |}.

Definition option_string_eqb (a b : option string) : bool :=
  match a, b with
  | None, None => true
  | Some x, Some y => String.eqb x y
  | _, _ => false
  end.

(** A fresh array is never the array already stored. *)
Definition setRestaurants (v : list Restaurant) : State -> State :=
  setState false (ui_restaurants v).

Definition setLoading (v : bool) (s : State) : State :=
  setState (Bool.eqb (loading (ui s)) v) (ui_loading v) s.

Definition setError (v : option string) (s : State) : State :=
  setState (option_string_eqb (error (ui s)) v) (ui_error v) s.

Definition setMapLoaded (v : bool) (s : State) : State :=
  setState (Bool.eqb (mapLoaded (ui s)) v) (ui_mapLoaded v) s.

Definition setMapInstance (v : MapHandle) (s : State) : State :=
  setState (match mapInstance (ui s) with Some _ => true | None => false end)
           (ui_mapInstance (Some v)) s.

Definition setSearchTerm (v : string) (s : State) : State :=
  setState (String.eqb (searchTerm (ui s)) v) (ui_searchTerm v) s.

Definition setCuisineFilter (v : string) (s : State) : State :=
  setState (String.eqb (cuisineFilter (ui s)) v) (ui_cuisineFilter v) s.

Definition setMinRating (v : Q) (s : State) : State :=
  setState (Qeq_bool (minRating (ui s)) v) (ui_minRating v) s.

Definition setSearchRadius (v : Z) (s : State) : State :=
  setState (Z.eqb (searchRadius (ui s)) v) (ui_searchRadius v) s.

(** The closure of the handlers created by the latest render. *)
Definition closure (s : State) : Closure :=
  {| cl_mapInstance := mapInstance (ui s);
     cl_searchTerm := searchTerm (ui s);
     cl_cuisineFilter := cuisineFilter (ui s);
     cl_searchRadius := searchRadius (ui s) |}.

(** *** Timers and gateway calls *)

(** [window.setTimeout(action, delay)]; the new identifier is returned. *)
Definition setTimeout (a : TimerAction) (delay : Z) (s : State) : State * nat :=
  let h := host s in
  let t := {| timer_id := nextTimer h; due := now h + delay; action := a |} in
  (with_host (fun h => host_nextTimer (S (nextTimer h))
                         (host_timers (timers h ++ [t]) h)) s,
   nextTimer h).

(** [window.clearTimeout(id)]: an identifier that is not pending is ignored. *)
Definition clearTimeout (id : nat) (s : State) : State :=
  with_host (fun h =>
    host_timers (filter (fun t => negb (Nat.eqb (timer_id t) id)) (timers h)) h) s.

(** [if (searchTimeoutRef.current !== null) window.clearTimeout(searchTimeoutRef.current)] *)
Definition clearSearchTimeout (s : State) : State :=
  match searchTimeoutRef (refs s) with
  | Some id => clearTimeout id s
  | None => s
  end.

(** [service.nearbySearch(request, callback)]: the call is handed to the
    provider; its callback runs when the [Response] event arrives. *)
Definition nearbySearch (o : Origin) (rq : PlaceSearchRequest) (s : State) : State :=
  with_host (fun h =>
    let c := {| call_id := nextCall h; call_origin := o; call_request := rq |} in
    host_issued (issued h ++ [(now h, c)])
      (host_nextCall (S (nextCall h))
         (host_inflight (inflight h ++ [c]) h))) s.

(** *** [searchNearby] and the gateway callbacks *)

(** [useState(24140)], the radius seen by the mount-time closure. *)
Definition initialRadius : Z := 24140.

Definition debounceDelay : Z := 1000.
Definition cooldown : Z := 1000.

(** Lines 96-116 of [index.tsx]: the guard, the request, the call. *)
Definition searchNearby (env : Closure) (location : LatLng) (s : State) : State :=
  if isUpdatingRef (refs s) then s
  else
    let s := with_refs (refs_isUpdatingRef true) s in
    let request := buildRequest location (cl_searchRadius env)
                     (cl_cuisineFilter env) (cl_searchTerm env) in
    let s := setLoading true s in
    let s := setError None s in
    nearbySearch ViaSearchNearby request s.

Definition updateMarkers (rs : list Restaurant) (s : State) : State :=
  with_refs (fun r => refs_markers (Markers.updateMarkers rs (markers r)) r) s.

(** [setTimeout(() => { isUpdatingRef.current = false; }, 1000)] *)
Definition scheduleReset (s : State) : State :=
  fst (setTimeout ResetUpdating cooldown s).

Definition msgZeroResults : string :=
  "No restaurants found in this area. Try adjusting your filters or search radius.".
Definition msgError : string :=
  "Error fetching restaurants. Please try again.".
Definition msgInitialError : string :=
  "No restaurants found or error fetching data.".
Definition msgGeoDenied : string :=
  "Geolocation permission denied. Please enable location services.".

(** Lines 117-162: the callback of the call made by [searchNearby].
    When [sorted.map] throws, the exception leaves the callback and none
    of the statements after it runs.  [map.fitBounds] only moves the
    viewport; where it settles is reported by the next ['idle'] event. *)
Definition onSearchResponse (status : PlacesServiceStatus)
    (results : option (list PlaceResult)) (s : State) : State :=
  match status, results with
  | OK, Some rs =>
      match Normalizer.normalize rs with
      | Throw _ => s
      | Ok mapped =>
          scheduleReset
            (setLoading false (updateMarkers mapped (setRestaurants mapped s)))
      end
  | ZERO_RESULTS, _ =>
      scheduleReset
        (setLoading false
           (updateMarkers [] (setRestaurants [] (setError (Some msgZeroResults) s))))
  | _, _ =>
      scheduleReset
        (setLoading false
           (updateMarkers [] (setRestaurants [] (setError (Some msgError) s))))
  end.

(** Lines 289-325: the callback of the first search. *)
Definition onInitialResponse (status : PlacesServiceStatus)
    (results : option (list PlaceResult)) (s : State) : State :=
  match status, results with
  | OK, Some rs =>
      match Normalizer.normalize rs with
      | Throw _ => s
      | Ok mapped =>
          setLoading false (updateMarkers mapped (setRestaurants mapped s))
      end
  | _, _ => setLoading false (setError (Some msgInitialError) s)
  end.

(** *** Rendering

    Every render creates a new [updateMarkers], hence a new
    [searchNearby], so the effect that owns the ['idle'] listener runs
    again after every render: its cleanup removes the listener and
    clears the pending debounce timer, then the listener is registered
    anew with the new closure.  The autocomplete effect installs its
    listener once, with the closure of the render at which [mapLoaded]
    first held.  Effects are taken to run before the next event. *)

Definition idleEffect (s : State) : State :=
  let s := match idleListener (host s) with
           | Some _ => clearSearchTimeout s
           | None => s
           end in
  with_host (host_idleListener
               (match mapInstance (ui s) with
                | Some _ => Some (closure s)
                | None => None
                end)) s.

Definition autocompleteEffect (s : State) : State :=
  match autocompleteRef (refs s) with
  | Some _ => s
  | None =>
      if mapLoaded (ui s)
      then with_refs (refs_autocompleteRef (Some (closure s))) s
      else s
  end.

Definition flush (s : State) : State :=
  if dirty s then autocompleteEffect (idleEffect (with_dirty false s)) else s.

(** *** Events *)

Inductive Event : Type :=
| GeoSuccess (position : LatLng)
| GeoDenied
| Response (id : nat) (status : PlacesServiceStatus)
           (results : option (list PlaceResult))
| MapIdle (center : LatLng)          (* the viewport settled at [center] *)
| ChangeSearchTerm (v : string)
| ChangeCuisine (v : string)
| ChangeMinRating (v : Q)
| ChangeRadius (meters : Z)
| ClickSearch
| ClickReset
| PlaceChanged (place : PlaceResult) (* autocomplete selection *).

(** [if (mapInstance) { const center = mapInstance.getCenter();
      if (center) { searchNearby(center, mapInstance); } }] *)
Definition searchAtCenter (env : Closure) (s : State) : State :=
  match cl_mapInstance env with
  | None => s
  | Some _ =>
      match mapCenter (host s) with
      | None => s
      | Some center => searchNearby env center s
      end
  end.

(** The geolocation success callback (lines 247-332): the map is
    created, centred on the position; the 'Your Location' marker is put
    on it (lines 258-271; nothing ever removes it); the state is set and
    the first search is made. *)
Definition onGeoSuccess (position : LatLng) (s : State) : State :=
  let s := with_host (host_mapCenter (Some position)) s in
  let s := with_host (host_userPin (Some position)) s in
  let s := setMapInstance TheMap s in
  let s := setMapLoaded true s in
  nearbySearch InitialLoad (buildInitialRequest position initialRadius "") s.

(** The ['idle'] listener (lines 168-184). *)
Definition onIdle (env : Closure) (s : State) : State :=
  let s := clearSearchTimeout s in
  if isUpdatingRef (refs s) then s
  else
    let '(s, id) := setTimeout (DebouncedSearch env) debounceDelay s in
    with_refs (refs_searchTimeoutRef (Some id)) s.

(** The [place_changed] listener (lines 203-217). *)
Definition onPlaceChanged (env : Closure) (place : PlaceResult) (s : State) : State :=
  match geometry place with
  | None => s
  | Some g =>
      match location g, cl_mapInstance env with
      | Some loc, Some _ =>
          let s := with_host (host_mapCenter (Some loc)) s in
          let s := setSearchTerm (match name place with
                                  | Some n => n
                                  | None => ""
                                  end) s in
          searchNearby env loc s
      | _, _ => s
      end
  end.

Definition findCall (id : nat) (s : State) : option Call :=
  find (fun c => Nat.eqb (call_id c) id) (inflight (host s)).

Definition removeCall (id : nat) (s : State) : State :=
  with_host (fun h =>
    host_inflight (filter (fun c => negb (Nat.eqb (call_id c) id)) (inflight h)) h) s.

(** What each event runs.  The handlers of the controls are those of the
    latest render, so they see the state through [closure s], also after
    they have called a setter. *)
Definition handle (e : Event) (s : State) : State :=
  match e with
  | GeoSuccess position =>
      if geoPending (host s)
      then onGeoSuccess position (with_host (host_geoPending false) s)
      else s
  | GeoDenied =>
      if geoPending (host s)
      then setLoading false
             (setError (Some msgGeoDenied) (with_host (host_geoPending false) s))
      else s
  | Response id status results =>
      match findCall id s with
      | None => s
      | Some c =>
          match call_origin c with
          | InitialLoad => onInitialResponse status results (removeCall id s)
          | ViaSearchNearby => onSearchResponse status results (removeCall id s)
          end
      end
  | MapIdle center =>
      match idleListener (host s) with
      | None => s
      | Some env => onIdle env (with_host (host_mapCenter (Some center)) s)
      end
  | ChangeSearchTerm v => setSearchTerm v s
  | ChangeCuisine v =>
      let env := closure s in
      searchAtCenter env (setCuisineFilter v s)
  | ChangeMinRating v => setMinRating v s
  | ChangeRadius meters =>
      let env := closure s in
      let s := setSearchRadius meters s in
      match cl_mapInstance env, mapCenter (host s) with
      | Some _, Some center =>
          searchNearby env center (fst (setTimeout RemoveCircle 2000 s))
      | _, _ => s
      end
  | ClickSearch => searchAtCenter (closure s) s
  | ClickReset =>
      let env := closure s in
      searchAtCenter env
        (setMinRating 0 (setCuisineFilter "" (setSearchTerm "" s)))
  | PlaceChanged place =>
      match autocompleteRef (refs s) with
      | None => s
      | Some env => onPlaceChanged env place s
      end
  end.

Definition dispatch (e : Event) (s : State) : State := flush (handle e s).

(** The explicit user actions that ask for a search. *)
Definition explicit (e : Event) : bool :=
  match e with
  | ChangeCuisine _ | ChangeRadius _ | ClickSearch | ClickReset
  | PlaceChanged _ => true
  | _ => false
  end.

(** *** The passage of time *)

Definition runTimer (a : TimerAction) (s : State) : State :=
  match a with
  | DebouncedSearch env =>
      match mapCenter (host s) with
      | Some center => searchNearby env center s
      | None => s
      end
  | ResetUpdating => with_refs (refs_isUpdatingRef false) s
  | RemoveCircle => s
  end.

(** The pending timer that is due first; among timers due at the same
    time, the one that was set first. *)
Fixpoint earliest (ts : list Timer) : option Timer :=
  match ts with
  | [] => None
  | t :: ts' =>
      match earliest ts' with
      | None => Some t
      | Some u => if due u <? due t then Some u else Some t
      end
  end.

Definition nextDue (T : Z) (s : State) : option Timer :=
  match earliest (timers (host s)) with
  | Some t => if due t <=? T then Some t else None
  | None => None
  end.

Definition fire (t : Timer) (s : State) : State :=
  let s := clearTimeout (timer_id t) s in
  let s := with_host (fun h => host_now (Z.max (now h) (due t)) h) s in
  flush (runTimer (action t) s).

(** No timer callback sets a timer, so as many turns as there are pending
    timers fire every timer that is due
    ([SchedulerFacts.advance_complete]). *)
Fixpoint advanceFuel (n : nat) (T : Z) (s : State) : State :=
  match n with
  | O => s
  | S n' =>
      match nextDue T s with
      | None => s
      | Some t => advanceFuel n' T (fire t s)
      end
  end.

(** Let the clock reach [T], firing the timers due on the way. *)
Definition advance (T : Z) (s : State) : State :=
  with_host (fun h => host_now (Z.max (now h) T) h)
    (advanceFuel (List.length (timers (host s))) T s).

(** An event that occurs at time [t]. *)
Definition step (te : Z * Event) (s : State) : State :=
  dispatch (snd te) (advance (fst te) s).

Definition run (evs : list (Z * Event)) (s : State) : State :=
  fold_left (fun s te => step te s) evs s.

(** The component after its first render, with the credential and the
    map container present and the position request pending. *)
Definition init : State :=
  {| ui := {| restaurants := []; loading := true; error := None;
              mapLoaded := false; mapInstance := None;
              searchTerm := ""; cuisineFilter := ""; minRating := 0;
              searchRadius := initialRadius |};
     dirty := false;
     refs := {| markers := Markers.empty; searchTimeoutRef := None;
                isUpdatingRef := false; autocompleteRef := None |};
     host := {| now := 0; timers := []; nextTimer := 1; inflight := [];
                nextCall := 0; issued := []; mapCenter := None;
                geoPending := true; idleListener := None;
                userPin := None |} |}.

Inductive reachable : State -> Prop :=
| reach_init : reachable init
| reach_step : forall s te, reachable s -> reachable (step te s)
| reach_wait : forall s T, reachable s -> reachable (advance T s).

(** *** What the properties are stated with *)

Definition viaSearchNearby (c : Call) : bool :=
  match call_origin c with
  | ViaSearchNearby => true
  | InitialLoad => false
  end.

Definition isReset (t : Timer) : bool :=
  match action t with
  | ResetUpdating => true
  | _ => false
  end.

(** The unanswered calls made by [searchNearby]. *)
Definition searchesInFlight (s : State) : list Call :=
  filter viaSearchNearby (inflight (host s)).

(** The pending timers that will reopen the guard. *)
Definition resetsPending (s : State) : list Timer :=
  filter isReset (timers (host s)).

(** The calls [searchNearby] has made so far, with their times. *)
Definition searchesIssued (s : State) : list (Z * Call) :=
  filter (fun tc => viaSearchNearby (snd tc)) (issued (host s)).

(** The guard flag accounts for every search in flight and every pending
    reset: there is at most one of them, and only while the flag is set. *)
Definition guarded (s : State) : Prop :=
  (List.length (searchesInFlight s) + List.length (resetsPending s)
   <= if isUpdatingRef (refs s) then 1 else 0)%nat.

(** The guard is set and no pending timer reopens it before time [T]. *)
Definition closedUntil (T : Z) (s : State) : Prop :=
  isUpdatingRef (refs s) = true /\
  Forall (fun t => isReset t = true -> T <= due t) (timers (host s)).

(** Before the map exists nothing of the scheduler is in place; once it
    exists it has a center. *)
Definition mapped (s : State) : Prop :=
  match mapInstance (ui s) with
  | None =>
      mapLoaded (ui s) = false /\ idleListener (host s) = None /\
      autocompleteRef (refs s) = None /\ timers (host s) = [] /\
      isUpdatingRef (refs s) = false /\ searchesInFlight s = []
  | Some _ => mapCenter (host s) <> None
  end.

(** Timer identifiers are handed out in increasing order. *)
Definition freshTimers (s : State) : Prop :=
  Forall (fun t => (timer_id t < nextTimer (host s))%nat) (timers (host s)) /\
  forall id, searchTimeoutRef (refs s) = Some id -> (id < nextTimer (host s))%nat.

(** What holds between two events. *)
Record settled (s : State) : Prop := {
  st_guarded : guarded s;
  st_mapped : mapped s;
  st_fresh : freshTimers s;
  st_rendered : dirty s = false;
  st_tracked : Markers.tracked (markers (refs s))
}.

(** *** Debouncing *)







End Scheduler.

(** ** Sample data *)

Module Sample.

Definition here : LatLng := {| lat := 1; lng := 1 |}.

Definition place (id nm : string) (r : option Q) (g : option PlaceGeometry)
  : PlaceResult :=
  {| place_id := Some id; name := Some nm; rating := r;
     user_ratings_total := None; vicinity := None; types := None;
     photos := None; geometry := g |}.

Definition located : option PlaceGeometry := Some {| location := Some here |}.

Definition pizzaPlace : PlaceResult :=
  {| place_id := Some "a"; name := Some "Pizza Place"; rating := Some (21 # 5);
     user_ratings_total := Some 150; vicinity := Some "1 Main St";
     types := Some ["restaurant"; "pizza"]; photos := None;
     geometry := located |}.

Definition unratedDiner : PlaceResult := place "b" "Unrated Diner" None located.

Definition lowRatedCafe : PlaceResult := place "c" "Low Rated Cafe" (Some 2%Q) located.

(** A rated record the provider sent without [geometry]. *)
Definition ghostKitchen : PlaceResult := place "d" "Ghost Kitchen" (Some (9 # 2)) None.

(** A rated record whose [geometry] has no [location]. *)
Definition nowhereGrill : PlaceResult :=
  place "e" "Nowhere Grill" (Some 4%Q) (Some {| location := None |}).

Definition firstBistro : PlaceResult := place "f" "First Bistro" (Some 4%Q) located.
Definition secondBistro : PlaceResult := place "g" "Second Bistro" (Some 4%Q) located.

(** A record with four types, two of them written with underscores. *)
Definition takeaway : PlaceResult :=
  {| place_id := Some "h"; name := Some "Noodle Bar"; rating := Some (9 # 2);
     user_ratings_total := Some 80; vicinity := Some "2 Main St";
     types := Some ["meal_takeaway"; "restaurant"; "point_of_interest"; "food"];
     photos := None; geometry := located |}.

Definition results : list PlaceResult := [pizzaPlace; unratedDiner; lowRatedCafe].

Definition tied : list PlaceResult :=
  [firstBistro; lowRatedCafe; pizzaPlace; secondBistro; unratedDiner].

(** What [mapPlace] makes of a located record. *)
Definition restaurantOf (p : PlaceResult) : Restaurant :=
  {| r_place_id := place_id p; r_name := name p; r_rating := rating p;
     r_user_ratings_total := user_ratings_total p; r_vicinity := vicinity p;
     r_types := types p; r_photos := photos p;
     r_geometry := {| r_location := Some here |} |}.

(** The display filters before the user touches them. *)
Definition anyRating : FilterPipeline.DisplayFilters :=
  {| FilterPipeline.searchTerm := ""; FilterPipeline.cuisineFilter := "";
     FilterPipeline.minRating := 0 |}.

Definition fourStarPizza : FilterPipeline.DisplayFilters :=
  {| FilterPipeline.searchTerm := ""; FilterPipeline.cuisineFilter := "pizza";
     FilterPipeline.minRating := 4 |}.

End Sample.

(** ** Sample executions *)

Module Traces.

Import Gateway Scheduler.

(** The position arrived and the first search was answered. *)
Definition loaded : State :=
  run [(0, GeoSuccess Sample.here); (0, Response 0 OK (Some Sample.results))] init.

(** Two seconds later the user pressed Search: call 1 is in flight. *)
Definition searching : State := run [(2000, ClickSearch)] loaded.

(** Call 1 was answered at 2100 ms. *)
Definition answered : State :=
  run [(2100, Response 1 OK (Some Sample.results))] searching.

(** The user pressed Search while the first search was unanswered. *)
Definition overlapping : State :=
  run [(0, GeoSuccess Sample.here); (10, ClickSearch)] init.

(** The user typed a cuisine at 2000 ms; the search it started was
    answered at 2100 ms, and the cooldown is over at 4000 ms. *)
Definition sushi : State :=
  advance 4000
    (run [(2000, ChangeCuisine "sushi");
          (2100, Response 1 OK (Some Sample.results))] loaded).

(** The viewport settled at 3000 ms, and half a second has passed. *)
Definition halfLater : State :=
  advance 3500 (step (3000, MapIdle Sample.here) loaded).

(** Call 1, as [searchNearby] built it. *)
Definition call1 : Call :=
  {| call_id := 1; call_origin := ViaSearchNearby;
     call_request := buildRequest Sample.here initialRadius "" "" |}.

(** A closure in which both the cuisine filter and the search term are
    set, and one in which only the search term is. *)
Definition pizzaOnMain : Closure :=
  {| cl_mapInstance := Some TheMap; cl_searchTerm := "Main";
     cl_cuisineFilter := "pizza"; cl_searchRadius := 8045 |}.

Definition onMain : Closure :=
  {| cl_mapInstance := Some TheMap; cl_searchTerm := "Main";
     cl_cuisineFilter := ""; cl_searchRadius := 8045 |}.

End Traces.

(** ** What the component shows *)

Module Display.

Import Scheduler.

(** [type.replace(/_/g, " ")] *)
Fixpoint replaceUnderscores (s : string) : string :=
  match s with
  | EmptyString => EmptyString
  | String c s' =>
      String (if Ascii.eqb c "_" then " "%char else c) (replaceUnderscores s')
  end.

(** [restaurant.types?.slice(0, 3).map(type => type.replace(/_/g, " "))]:
    the tags under a row of the list. *)
Definition typeLabels (r : Restaurant) : list string :=
  match r_types r with
  | None => []
  | Some ts => map replaceUnderscores (firstn 3 ts)
  end.

(** The four blocks under the map (lines 508-576 of [index.tsx]). *)
Inductive Panel : Type :=
| Spinner
| ErrorBanner (message : string)
| ResultList (rows : list Restaurant)
| EmptyState.

(** [error], read as a condition: [null] and the empty string are falsy. *)
Definition errorText (u : UI) : option string :=
  match error u with
  | Some m => if Str.nonEmpty m then Some m else None
  | None => None
  end.

(** [restaurants.slice(0, 15)] *)
Definition rows (u : UI) : list Restaurant := firstn 15 (restaurants u).

(** [{loading && ...} {error && ...}
     {!error && !loading && restaurants.length > 0 && ...}
     {!error && !loading && restaurants.length === 0 && ...}] *)
Definition view (u : UI) : list Panel :=
  (if loading u then [Spinner] else [])
  ++ match errorText u with
     | Some m => [ErrorBanner m]
     | None => []
     end
  ++ match errorText u, loading u, restaurants u with
     | None, false, _ :: _ => [ResultList (rows u)]
     | _, _, _ => []
     end
  ++ match errorText u, loading u, restaurants u with
     | None, false, [] => [EmptyState]
     | _, _, _ => []
     end.

(** [markersRef.current], as the marker objects the handles stand for. *)
Fixpoint deref (hp : list Markers.Marker) (hs : list nat) : list Markers.Marker :=
  match hs with
  | [] => []
  | h :: hs' =>
      match nth_error hp h with
      | Some m => m :: deref hp hs'
      | None => deref hp hs'
      end
  end.

Definition current (st : Markers.Store) : list Markers.Marker :=
  deref (Markers.heap st) (Markers.markersRef st).

(** [m.title === restaurant.name] *)
Definition titleIs (name : option string) (m : Markers.Marker) : bool :=
  option_string_eqb (Markers.mk_title m) name.

(** [markersRef.current.find(m => m.title === restaurant.name)] *)
Definition findMarker (name : option string) (st : Markers.Store)
  : option Markers.Marker :=
  find (titleIs name) (current st).

(** What the info window of a marker shows (lines 69-79):
    [vicinity || ''], [rating || 'N/A'], [user_ratings_total || 0]. *)
Record Popup : Type := {
  p_name : option string;
  p_address : string;
  p_rating : option Q;          (* [None] is ['N/A'] *)
  p_reviews : Z
}.

Definition popupOf (m : Markers.Marker) : Popup :=
  let r := Markers.mk_restaurant m in
  {| p_name := r_name r;
     p_address := match r_vicinity r with
                  | Some v => v
                  | None => ""
                  end;
     p_rating := if Normalizer.truthy (r_rating r) then r_rating r else None;
     p_reviews := match r_user_ratings_total r with
                  | Some n => n
                  | None => 0
                  end |}.

(** The click handler of a row (lines 530-539): the marker whose click is
    triggered, if any. *)
Definition clickRow (r : Restaurant) (s : State) : option Markers.Marker :=
  match findMarker (r_name r) (markers (refs s)), mapInstance (ui s) with
  | Some m, Some _ => Some m
  | _, _ => None
  end.

(** [r'] has the name of [r]. *)
Definition sameName (r r' : Restaurant) : bool :=
  option_string_eqb (r_name r') (r_name r).

(** The filter state a render reads. *)
Definition filtersOf (u : UI) : FilterPipeline.DisplayFilters :=
  {| FilterPipeline.searchTerm := searchTerm u;
     FilterPipeline.cuisineFilter := cuisineFilter u;
     FilterPipeline.minRating := minRating u |}.

(** One render of [index.tsx]: [filteredRestaurants] is computed first
    (lines 348-354) and an exception of its callback leaves the render;
    the blocks are then built from [restaurants], not from the filtered
    list. *)
Definition render (u : UI) : result (list Panel) :=
  bind (FilterPipeline.filteredRestaurants (filtersOf u) (restaurants u))
       (fun _ => Ok (view u)).

End Display.

(** ** The first version of the component ([src/unnamed/part_000], lines 1-119) *)

Module FirstVersion.

(** [results.sort((a, b) => (b.rating || 0) - (a.rating || 0))]: every
    record is kept. *)
Definition sorted (results : list PlaceResult) : list PlaceResult :=
  Normalizer.sort Normalizer.compareFn results.

(** [r.types?.some(type => type.includes(filter.toLowerCase()))] *)
Definition matchesFilter (filter : string) (r : PlaceResult) : bool :=
  match types r with
  | None => false
  | Some ts =>
      FilterPipeline.some (fun type => Str.includes type (Str.toLowerCase filter)) ts
  end.

Definition filteredRestaurants (filter : string) (restaurants : list PlaceResult)
  : list PlaceResult :=
  List.filter (matchesFilter filter) restaurants.

(** [(filter ? filteredRestaurants : restaurants)] *)
Definition shown (filter : string) (restaurants : list PlaceResult)
  : list PlaceResult :=
  if Str.nonEmpty filter then filteredRestaurants filter restaurants
  else restaurants.

End FirstVersion.

(** ** More of what holds between two events *)

Module Invariants.

Import Gateway Scheduler.

Definition isDebounce (t : Timer) : bool :=
  match action t with
  | DebouncedSearch _ => true
  | _ => false
  end.

(** The pending debounce timers. *)
Definition debouncesPending (s : State) : list Timer :=
  filter isDebounce (timers (host s)).

(** Every pending debounce timer is the one [searchTimeoutRef] names. *)
Definition debounceTracked (s : State) : Prop :=
  Forall (fun t => isDebounce t = true ->
                   searchTimeoutRef (refs s) = Some (timer_id t))
         (timers (host s)).

(** The markers the component holds are those of the working set, row
    by row. *)
Definition inSync (s : State) : Prop :=
  Display.current (markers (refs s))
  = map Markers.newMarker (restaurants (ui s)).

(** The working set is what the normalizer lets through. *)
Definition normalized (rs : list Restaurant) : Prop :=
  Sorted Normalizer.r_desc rs /\
  Forall (fun r => exists q, r_rating r = Some q /\ (Normalizer.floor <= q)%Q) rs.

(** The spinner and the error banner exclude each other. *)
Definition oneMessage (s : State) : Prop :=
  (loading (ui s) = true -> error (ui s) = None) /\
  (forall m, error (ui s) = Some m -> Str.nonEmpty m = true).

(** The guard is set and nothing is left that could reset it. *)
Definition wedged (s : State) : Prop :=
  isUpdatingRef (refs s) = true /\ resetsPending s = [] /\
  searchesInFlight s = [].

(** The unanswered first search. *)
Definition firstSearchInFlight (s : State) : list Call :=
  filter (fun c => negb (viaSearchNearby c)) (inflight (host s)).

(** The first search is made once. *)
Definition firstOnce (s : State) : Prop :=
  (List.length (firstSearchInFlight s)
   <= if geoPending (host s) then 0 else 1)%nat.

(** The callback of a call runs to its end. *)
Definition completes (status : PlacesServiceStatus)
    (results : option (list PlaceResult)) : Prop :=
  match status, results with
  | OK, Some rs => exists out, Normalizer.normalize rs = Ok out
  | _, _ => True
  end.

(** There is no map, and nothing that needs one has happened. *)
Definition unmapped (s : State) : Prop :=
  mapInstance (ui s) = None /\ mapLoaded (ui s) = false /\
  autocompleteRef (refs s) = None /\ idleListener (host s) = None /\
  timers (host s) = [] /\ inflight (host s) = [] /\ issued (host s) = [] /\
  restaurants (ui s) = [] /\ isUpdatingRef (refs s) = false.

(** Until the position request is answered there is no map. *)
Definition waiting (s : State) : Prop :=
  geoPending (host s) = true -> unmapped s.

(** The markers on the map: the attached markers of the synchronizer
    and, once it exists, the 'Your Location' marker. *)
Definition markersOnMap (s : State) : nat :=
  (Markers.live (markers (refs s))
   + match userPin (host s) with Some _ => 1 | None => 0 end)%nat.



(** The position request was refused. *)
Definition denied (s : State) : Prop :=
  geoPending (host s) = false /\ unmapped s /\
  loading (ui s) = false /\ error (ui s) = Some msgGeoDenied.

End Invariants.

(** * Properties *)


(** ** Fallible traversals *)

Lemma mapM_Forall2 {A B : Type} (f : A -> result B) (l : list A) (out : list B) :
  mapM f l = Ok out -> Forall2 (fun x y => f x = Ok y) l out.
Proof.
  revert out; induction l as [|x l IH]; simpl; intros out H.
  - inversion H; constructor.
  - destruct (f x) as [y|e] eqn:Hx; simpl in H; [|discriminate].
    destruct (mapM f l) as [ys|e] eqn:Hl; simpl in H; [|discriminate].
    inversion H; subst. constructor; auto.
Qed.

Lemma mapM_total {A B : Type} (f : A -> result B) (l : list A) :
  Forall (fun x => exists y, f x = Ok y) l -> exists out, mapM f l = Ok out.
Proof.
  induction 1 as [|x l [y Hy] _ [ys Hys]]; simpl.
  - eexists; reflexivity.
  - rewrite Hy, Hys; simpl. eexists; reflexivity.
Qed.

Lemma mapM_throws {A B : Type} (f : A -> result B) (l : list A) (x : A) (e : exn) :
  In x l -> f x = Throw e -> exists e', mapM f l = Throw e'.
Proof.
  induction l as [|y l IH]; simpl; [tauto|].
  intros [->|Hin] Hx.
  - rewrite Hx; simpl; eauto.
  - destruct (f y); simpl; eauto.
    destruct (IH Hin Hx) as [e' ->]; simpl; eauto.
Qed.

Lemma mapM_filter {A B : Type} (f : A -> result B) (p : A -> bool) (q : B -> bool)
    (l : list A) (out : list B) :
  (forall x y, f x = Ok y -> q y = p x) ->
  mapM f l = Ok out -> mapM f (filter p l) = Ok (filter q out).
Proof.
  intros Hpq; revert out; induction l as [|x l IH]; simpl; intros out H.
  - inversion H; reflexivity.
  - destruct (f x) as [y|e] eqn:Hx; simpl in H; [|discriminate].
    destruct (mapM f l) as [ys|e] eqn:Hl; simpl in H; [|discriminate].
    inversion H; subst; simpl. rewrite (Hpq _ _ Hx).
    destruct (p x); simpl.
    + rewrite Hx; simpl. rewrite (IH _ eq_refl); reflexivity.
    + apply IH; reflexivity.
Qed.

(** ** ResultNormalizer *)

Module NormalizerFacts.

Import Normalizer.

Lemma compareFn_le (a b : PlaceResult) :
  Qle_bool (compareFn a b) 0 = true <-> desc a b.
Proof.
  unfold compareFn, desc, key. rewrite Qle_bool_iff. split; intro; lra.
Qed.

Lemma insert_perm (x : PlaceResult) (l : list PlaceResult) :
  Permutation (insert compareFn x l) (x :: l).
Proof.
  induction l as [|y l IH]; simpl; auto.
  destruct (Qle_bool (compareFn x y) 0); auto.
  rewrite IH. apply perm_swap.
Qed.

Lemma sort_perm (l : list PlaceResult) : Permutation (sort compareFn l) l.
Proof.
  induction l as [|x l IH]; simpl; auto.
  rewrite insert_perm. auto.
Qed.

Lemma insert_hd (x a : PlaceResult) (l : list PlaceResult) :
  desc a x -> HdRel desc a l -> HdRel desc a (insert compareFn x l).
Proof.
  intros Hax Hl. destruct l as [|y l]; simpl.
  - constructor; auto.
  - destruct (Qle_bool (compareFn x y) 0); constructor; auto.
    inversion Hl; auto.
Qed.

Lemma insert_sorted (x : PlaceResult) (l : list PlaceResult) :
  Sorted desc l -> Sorted desc (insert compareFn x l).
Proof.
  induction 1 as [|y l Hl IH Hhd]; simpl.
  - repeat constructor.
  - destruct (Qle_bool (compareFn x y) 0) eqn:E.
    + apply compareFn_le in E. repeat constructor; auto.
    + constructor; auto. apply insert_hd; auto.
      assert (~ desc x y) as N by (rewrite <- compareFn_le; congruence).
      unfold desc in *. lra.
Qed.

Lemma sort_sorted (l : list PlaceResult) : Sorted desc (sort compareFn l).
Proof.
  induction l; simpl; [constructor | apply insert_sorted; auto].
Qed.

Lemma filter_insert (q : Q) (x : PlaceResult) (l : list PlaceResult) :
  filter (ratingIs q) (insert compareFn x l) = filter (ratingIs q) (x :: l).
Proof.
  induction l as [|y l IH]; simpl; auto.
  destruct (Qle_bool (compareFn x y) 0) eqn:E; simpl; auto.
  rewrite IH; simpl.
  destruct (ratingIs q x) eqn:Hx; auto.
  destruct (ratingIs q y) eqn:Hy; auto.
  exfalso. unfold ratingIs in *.
  apply Qeq_bool_iff in Hx, Hy.
  assert (~ desc x y) as N by (rewrite <- compareFn_le; congruence).
  unfold desc in N. lra.
Qed.

(** Stability: sorting does not reorder the records of one rating. *)
Lemma filter_sort (q : Q) (l : list PlaceResult) :
  filter (ratingIs q) (sort compareFn l) = filter (ratingIs q) l.
Proof.
  induction l as [|x l IH]; simpl; auto.
  rewrite filter_insert; simpl. rewrite IH; reflexivity.
Qed.

Lemma admitted_spec (p : PlaceResult) :
  admitted p = true <-> exists q, rating p = Some q /\ (floor <= q)%Q.
Proof.
  unfold admitted, truthy. destruct (rating p) as [q|]; split.
  - intros H. apply andb_true_iff in H as [_ H]. apply Qle_bool_iff in H. eauto.
  - intros (q' & [= <-] & H). apply andb_true_iff; split.
    + apply negb_true_iff. destruct (Qeq_bool q 0) eqn:E; auto.
      apply Qeq_bool_iff in E. unfold floor in H. lra.
    + apply Qle_bool_iff; auto.
  - discriminate.
  - intros (q & [=] & _).
Qed.

Lemma In_sorted (results : list PlaceResult) (p : PlaceResult) :
  In p (sorted results) <-> In p results /\ admitted p = true.
Proof.
  unfold sorted. rewrite <- filter_In. split; apply Permutation_in.
  - apply sort_perm.
  - symmetry; apply sort_perm.
Qed.

Lemma mapPlace_rating (p : PlaceResult) (r : Restaurant) :
  mapPlace p = Ok r -> r_rating r = rating p.
Proof.
  unfold mapPlace. destruct (geometry p); [|discriminate].
  intros [= <-]; reflexivity.
Qed.

Lemma ratingIs_key (p : PlaceResult) : ratingIs (key p) p = true.
Proof. unfold ratingIs. apply Qeq_bool_iff. reflexivity. Qed.

Lemma desc_below (a : PlaceResult) (l : list PlaceResult) :
  Sorted desc (a :: l) -> Forall (fun x => (key x <= key a)%Q) l.
Proof.
  intros H. apply Sorted_StronglySorted in H.
  - inversion H; subst. assumption.
  - intros x y z Hxy Hyz. unfold desc in *. lra.
Qed.

(** Two arrangements in descending order that agree on the records of
    every rating, order included, are the same arrangement. *)
Lemma sorted_classes_eq (l1 l2 : list PlaceResult) :
  Sorted desc l1 -> Sorted desc l2 ->
  (forall q, filter (ratingIs q) l1 = filter (ratingIs q) l2) ->
  l1 = l2.
Proof.
  revert l2; induction l1 as [|a l1 IH]; intros [|b l2] S1 S2 H; auto.
  - specialize (H (key b)). simpl in H. rewrite ratingIs_key in H. discriminate.
  - specialize (H (key a)). simpl in H. rewrite ratingIs_key in H. discriminate.
  - assert (In a (b :: l2)) as Ha.
    { pose proof (H (key a)) as E. simpl in E. rewrite ratingIs_key in E.
      assert (In a (filter (ratingIs (key a)) (b :: l2))) as X
        by (simpl; rewrite <- E; left; reflexivity).
      apply filter_In in X. tauto. }
    assert (In b (a :: l1)) as Hb.
    { pose proof (H (key b)) as E. simpl in E. rewrite ratingIs_key in E.
      assert (In b (filter (ratingIs (key b)) (a :: l1))) as X
        by (simpl; rewrite E; left; reflexivity).
      apply filter_In in X. tauto. }
    pose proof (desc_below S1) as B1. pose proof (desc_below S2) as B2.
    rewrite Forall_forall in B1, B2.
    assert (key a == key b)%Q as K.
    { destruct Ha as [->|Ha]; [reflexivity|].
      destruct Hb as [->|Hb]; [reflexivity|].
      specialize (B1 _ Hb). specialize (B2 _ Ha). lra. }
    assert (a = b) as ->.
    { pose proof (H (key a)) as E. simpl in E. rewrite ratingIs_key in E.
      assert (ratingIs (key a) b = true) as Rb
        by (apply Qeq_bool_iff; symmetry; exact K).
      rewrite Rb in E. congruence. }
    f_equal. apply IH.
    + inversion S1; assumption.
    + inversion S2; assumption.
    + intros q. specialize (H q). simpl in H.
      destruct (ratingIs q b); congruence.
Qed.

(** Whatever algorithm the engine uses, a stable sort by the comparator
    returns what [sort] returns. *)
Lemma stable_sort_unique (l l' : list PlaceResult) :
  Sorted desc l' ->
  (forall q, filter (ratingIs q) l' = filter (ratingIs q) l) ->
  l' = sort compareFn l.
Proof.
  intros S H. apply sorted_classes_eq; auto.
  - apply sort_sorted.
  - intros q. rewrite H, filter_sort. reflexivity.
Qed.

End NormalizerFacts.

Module NormalizerClaims.

Import Normalizer NormalizerFacts.

Lemma Sorted_mapPlace (l : list PlaceResult) (out : list Restaurant) :
  Forall2 (fun p r => mapPlace p = Ok r) l out ->
  Sorted desc l -> Sorted r_desc out.
Proof.
  induction 1 as [|p r l out Hpr Hl IH]; intros Hs; [constructor|].
  inversion Hs as [|? ? Hs' Hhd]; subst. constructor; auto.
  destruct Hl as [|p' r' l' out' Hpr' _]; constructor.
  inversion Hhd; subst.
  unfold r_desc, r_key, desc, key in *.
  rewrite (mapPlace_rating _ Hpr), (mapPlace_rating _ Hpr'); auto.
Qed.

(** C3.  No record whose rating is [undefined] or below 3.5 is in the
    normalized output: every record of the output has a rating, and
    that rating is at least the fixed floor 3.5, whatever the display
    filter is (the normalizer does not read it). *)
Theorem normalize_admission_floor (results : list PlaceResult) (out : list Restaurant) :
  normalize results = Ok out ->
  Forall (fun r => exists q, r_rating r = Some q /\ (floor <= q)%Q) out.
Proof.
  intros H. apply mapM_Forall2 in H.
  assert (Forall (fun p => admitted p = true) (sorted results)) as Hadm.
  { apply Forall_forall. intros p Hp. apply In_sorted in Hp; tauto. }
  induction H as [|p r l out' Hpr _ IH]; constructor.
  - inversion Hadm; subst.
    rewrite (mapPlace_rating _ Hpr). apply admitted_spec; auto.
  - apply IH. inversion Hadm; auto.
Qed.

Lemma normalize_admission_floor_witness :
  Forall (fun r => exists q, r_rating r = Some q /\ (floor <= q)%Q)
         [Sample.restaurantOf Sample.pizzaPlace].
Proof.
  apply (@normalize_admission_floor Sample.results). reflexivity.
Defined.

(** C4.  The normalized output is sorted by rating, highest first (a
    missing rating counting as 0): each record's rating is at least
    that of the record after it.  Records of equal rating keep the
    order the provider returned them in: for every rating [q], the
    records of the output rated [q] are the images of the admitted
    records rated [q], in the provider's order. *)
Theorem normalize_sorted_stable (results : list PlaceResult) (out : list Restaurant) :
  normalize results = Ok out ->
  Sorted r_desc out /\
  forall q, mapM mapPlace (filter (ratingIs q) (filter admitted results))
            = Ok (filter (r_ratingIs q) out).
Proof.
  intros H. split.
  - apply Sorted_mapPlace with (l := sorted results).
    + apply mapM_Forall2; exact H.
    + apply sort_sorted.
  - intros q. rewrite <- (filter_sort q (filter admitted results)).
    apply mapM_filter; [|exact H].
    intros p r Hpr. unfold r_ratingIs, ratingIs, r_key, key.
    rewrite (mapPlace_rating _ Hpr); reflexivity.
Qed.

Lemma normalize_sorted_stable_witness :
  Sorted r_desc (map Sample.restaurantOf
                   [Sample.pizzaPlace; Sample.firstBistro; Sample.secondBistro]) /\
  forall q, mapM mapPlace (filter (ratingIs q) (filter admitted Sample.tied))
            = Ok (filter (r_ratingIs q)
                    (map Sample.restaurantOf
                       [Sample.pizzaPlace; Sample.firstBistro; Sample.secondBistro])).
Proof.
  apply (@normalize_sorted_stable Sample.tied). reflexivity.
Defined.

(** C2, as stated, fails.  A rated record without [geometry] makes the
    normalizer throw, and a rated record whose [geometry] has no
    [location] is kept, with an absent location. *)
Lemma normalize_throws_on_missing_geometry :
  admitted Sample.ghostKitchen = true /\
  geometry Sample.ghostKitchen = None /\
  normalize [Sample.pizzaPlace; Sample.ghostKitchen] = Throw TypeError /\
  exists r, normalize [Sample.nowhereGrill] = Ok [r] /\
            r_location (r_geometry r) = None.
Proof.
  repeat split. eexists; split; reflexivity.
Qed.

(** C2, amended.  When every record that passes the rating floor
    carries a [geometry] object, normalization completes without
    throwing; it drops whole records only, and only those below the
    rating floor: the output holds one record for each input record
    that passes the floor, each the image of such a record with its
    optional fields carried over as they are.  No record is dropped for
    its geometry. *)
Theorem normalize_completes (results : list PlaceResult) :
  (forall p, In p results -> admitted p = true -> geometry p <> None) ->
  exists out,
    normalize results = Ok out /\
    List.length out = List.length (filter admitted results) /\
    Forall2 (fun p r => mapPlace p = Ok r) (sorted results) out /\
    Permutation (sorted results) (filter admitted results).
Proof.
  intros Hgeo.
  destruct (@mapM_total _ _ mapPlace (sorted results)) as [out Hout].
  { apply Forall_forall. intros p Hp. apply In_sorted in Hp as [Hin Hadm].
    specialize (Hgeo p Hin Hadm). unfold mapPlace.
    destruct (geometry p); [eexists; reflexivity | congruence]. }
  exists out. pose proof (mapM_Forall2 _ _ Hout) as HF.
  repeat split; auto.
  - rewrite <- (Forall2_length HF). unfold sorted.
    apply Permutation_length, sort_perm.
  - apply sort_perm.
Qed.

Lemma normalize_completes_witness :
  exists out,
    normalize Sample.tied = Ok out /\
    List.length out = List.length (filter admitted Sample.tied) /\
    Forall2 (fun p r => mapPlace p = Ok r) (sorted Sample.tied) out /\
    Permutation (sorted Sample.tied) (filter admitted Sample.tied).
Proof.
  apply (@normalize_completes Sample.tied).
  intros p Hin _.
  repeat (destruct Hin as [<-|Hin]; [discriminate|]). destruct Hin.
Defined.

End NormalizerClaims.

(** ** FilterPipeline *)

Module FilterFacts.

Import FilterPipeline.

Lemma matchesRating_unrated (f : DisplayFilters) (r : Restaurant) :
  r_rating r = None ->
  matchesRating f r = false /\ Sibling.matchesRating f r = false.
Proof.
  intros H. unfold matchesRating, Sibling.matchesRating. rewrite H. auto.
Qed.

(** What the rating predicate of [index.tsx] decides for a rated record. *)
Lemma matchesRating_rated (f : DisplayFilters) (r : Restaurant) (q : Q) :
  r_rating r = Some q ->
  (matchesRating f r = true <-> (minRating f <= q)%Q).
Proof.
  intros H. unfold matchesRating. rewrite H. apply Qle_bool_iff.
Qed.

(** What the callback would answer for a record without a rating: never
    [true].  The normalizer lets no such record into a working set
    ([FilterClaims.rating_predicate_on_working_set]), so the callback is
    never handed one. *)
Lemma callback_rejects_unrated (f : DisplayFilters) (r : Restaurant) :
  r_rating r = None ->
  displayed f r <> Ok true /\ Sibling.displayed f r <> Ok true.
Proof.
  intros H. destruct (matchesRating_unrated f r H) as [H1 H2].
  unfold displayed, Sibling.displayed, matchesSearch, Sibling.matchesSearch.
  rewrite H1, H2.
  destruct (r_name r); simpl; rewrite ?andb_false_r; split; discriminate.
Qed.

(** The spec's scenario: with [minRating] 4 and cuisine ["pizza"] the one
    admitted restaurant is displayed. *)
Example pizza_is_displayed :
  filteredRestaurants Sample.fourStarPizza [Sample.restaurantOf Sample.pizzaPlace]
  = Ok [Sample.restaurantOf Sample.pizzaPlace].
Proof. reflexivity. Qed.

End FilterFacts.

(** ** MarkerSynchronizer *)

Module MarkerFacts.

Import Markers.

Lemma releaseAt_length (h : nat) (hp : list Marker) :
  List.length (releaseAt h hp) = List.length hp.
Proof.
  revert h; induction hp as [|m hp IH]; intros [|h]; simpl; auto.
Qed.

Lemma releaseAt_nth (h i : nat) (hp : list Marker) :
  nth_error (releaseAt h hp) i =
  if Nat.eqb i h then option_map release (nth_error hp i) else nth_error hp i.
Proof.
  revert h i; induction hp as [|m hp IH]; intros [|h] [|i]; simpl; auto.
  - destruct (Nat.eqb i h); reflexivity.
Qed.

(** Releasing a batch of handles: objects are never attached by it, and
    each object named by the batch ends up detached. *)
Lemma release_all_nth (hs : list nat) (hp : list Marker) (i : nat) (m' : Marker) :
  nth_error (fold_left (fun hp h => releaseAt h hp) hs hp) i = Some m' ->
  exists m, nth_error hp i = Some m /\
            (mk_attached m' = true -> mk_attached m = true) /\
            (In i hs -> mk_attached m' = false).
Proof.
  revert hp; induction hs as [|h hs IH]; simpl; intros hp H.
  - exists m'; repeat split; auto. tauto.
  - destruct (IH _ H) as (m1 & H1 & Hatt & Hin).
    rewrite releaseAt_nth in H1.
    destruct (Nat.eqb i h) eqn:E.
    + apply Nat.eqb_eq in E; subst i.
      destruct (nth_error hp h) as [m|] eqn:Hm; [|discriminate].
      injection H1 as <-. exists m; repeat split; auto.
      * intros Ha. apply Hatt in Ha. discriminate.
      * intros _. destruct (mk_attached m'); auto.
        specialize (Hatt eq_refl). discriminate.
    + exists m1; repeat split; auto.
      intros [->|Hi]; auto. rewrite Nat.eqb_refl in E; discriminate.
Qed.

Lemma release_all_length (hs : list nat) (hp : list Marker) :
  List.length (fold_left (fun hp h => releaseAt h hp) hs hp) = List.length hp.
Proof.
  revert hp; induction hs as [|h hs IH]; simpl; intros hp; auto.
  rewrite IH. apply releaseAt_length.
Qed.

Lemma clear_detached (st : Store) :
  tracked st -> Forall (fun m => mk_attached m = false) (heap (clear st)).
Proof.
  intros Htr. apply Forall_forall. intros m' Hin.
  apply In_nth_error in Hin as [i Hi]. simpl in Hi.
  destruct (release_all_nth _ _ _ Hi) as (m & Hm & Hatt & Hrel).
  destruct (mk_attached m') eqn:Ha; auto.
  apply Hrel. apply (Htr i m); auto.
Qed.

Lemma filter_none {A : Type} (p : A -> bool) (l : list A) :
  Forall (fun x => p x = false) l -> filter p l = [].
Proof.
  induction 1 as [|x l Hx _ IH]; simpl; auto. rewrite Hx; auto.
Qed.

Lemma live_clear (st : Store) : tracked st -> live (clear st) = 0%nat.
Proof.
  intros H. unfold live. rewrite filter_none; auto. apply clear_detached; auto.
Qed.

Lemma create_all (rs : list Restaurant) (st : Store) :
  heap (fold_left create rs st) = heap st ++ map newMarker rs /\
  markersRef (fold_left create rs st)
  = markersRef st ++ seq (List.length (heap st)) (List.length rs).
Proof.
  revert st; induction rs as [|r rs IH]; intros st; simpl.
  - rewrite !app_nil_r; auto.
  - destruct (IH (create st r)) as [-> ->]; simpl.
    rewrite length_app, <- !app_assoc; simpl.
    rewrite Nat.add_1_r. auto.
Qed.

Lemma filter_all {A : Type} (p : A -> bool) (l : list A) :
  Forall (fun x => p x = true) l -> filter p l = l.
Proof.
  induction 1 as [|x l Hx _ IH]; simpl; auto. rewrite Hx, IH; auto.
Qed.

(** After a synchronization the markers on the map are the new ones. *)
Lemma updateMarkers_live (rs : list Restaurant) (st : Store) :
  tracked st -> live (updateMarkers rs st) = List.length rs.
Proof.
  intros H. unfold updateMarkers, live.
  destruct (create_all rs (clear st)) as [-> _].
  rewrite filter_app, (filter_none _ (clear_detached H)); simpl.
  rewrite filter_all, length_map; auto.
  apply Forall_forall. intros m Hm. apply in_map_iff in Hm as (r & <- & _).
  reflexivity.
Qed.

Lemma updateMarkers_handles (rs : list Restaurant) (st : Store) :
  markersRef (updateMarkers rs st)
  = seq (List.length (heap st)) (List.length rs).
Proof.
  unfold updateMarkers. destruct (create_all rs (clear st)) as [_ ->].
  simpl. rewrite release_all_length. reflexivity.
Qed.

(** Every marker that existed before the synchronization is off the map
    after it. *)
Lemma updateMarkers_stale (rs : list Restaurant) (st : Store) (h : nat) (m : Marker) :
  tracked st -> (h < List.length (heap st))%nat ->
  nth_error (heap (updateMarkers rs st)) h = Some m -> mk_attached m = false.
Proof.
  intros Htr Hh Hm. unfold updateMarkers in Hm.
  destruct (create_all rs (clear st)) as [E _]. rewrite E in Hm.
  rewrite nth_error_app1 in Hm
    by (simpl; rewrite release_all_length; auto).
  pose proof (clear_detached Htr) as HF. rewrite Forall_forall in HF.
  apply HF. eapply nth_error_In; eauto.
Qed.

Lemma updateMarkers_tracked (rs : list Restaurant) (st : Store) :
  tracked st -> tracked (updateMarkers rs st).
Proof.
  intros Htr h m Hm Ha.
  rewrite updateMarkers_handles. apply in_seq.
  destruct (Nat.lt_ge_cases h (List.length (heap st))) as [Hlt|Hge].
  - rewrite (updateMarkers_stale rs Htr Hlt Hm) in Ha. discriminate.
  - split; auto.
    assert (nth_error (heap (updateMarkers rs st)) h <> None) as Hn by congruence.
    apply nth_error_Some in Hn. clear Hm. rename Hn into Hm.
    unfold updateMarkers in Hm.
    destruct (create_all rs (clear st)) as [E _]. rewrite E in Hm.
    rewrite length_app, length_map in Hm. simpl in Hm.
    rewrite release_all_length in Hm. lia.
Qed.

Lemma reachable_tracked (st : Store) : reachable st -> tracked st.
Proof.
  induction 1 as [|st rs _ IH].
  - intros [|h] m H; discriminate.
  - apply updateMarkers_tracked; auto.
Qed.

End MarkerFacts.

Module MarkerClaims.

Import Markers MarkerFacts.

(** C8.  Whatever markers earlier synchronizations left, after
    [updateMarkers] runs on a list the number of markers on the map is
    the length of the list, and so is the number of handles kept.  All
    earlier markers are released first: between the two phases no
    marker is on the map, and every marker that existed before is off
    the map afterwards.  Hence a second synchronization, with a shorter
    list or any other, leaves exactly its own markers. *)
Theorem updateMarkers_synchronizes (st : Store) (rs : list Restaurant) :
  reachable st ->
  live (updateMarkers rs st) = List.length rs /\
  List.length (markersRef (updateMarkers rs st)) = List.length rs /\
  live (clear st) = 0%nat /\
  (forall h m, (h < List.length (heap st))%nat ->
               nth_error (heap (updateMarkers rs st)) h = Some m ->
               mk_attached m = false) /\
  (forall rs', live (updateMarkers rs' (updateMarkers rs st)) = List.length rs').
Proof.
  intros Hr. pose proof (reachable_tracked Hr) as Htr.
  repeat split.
  - apply updateMarkers_live; auto.
  - rewrite updateMarkers_handles. apply length_seq.
  - apply live_clear; auto.
  - intros h m. apply updateMarkers_stale; auto.
  - intros rs'. apply updateMarkers_live, updateMarkers_tracked; auto.
Qed.

Lemma updateMarkers_synchronizes_witness :
  live (updateMarkers [Sample.restaurantOf Sample.pizzaPlace]
          (updateMarkers (map Sample.restaurantOf Sample.tied) empty)) = 1%nat.
Proof.
  apply (@updateMarkers_synchronizes
           (updateMarkers (map Sample.restaurantOf Sample.tied) empty)
           [Sample.restaurantOf Sample.pizzaPlace]).
  apply reach_update, reach_empty.
Defined.

End MarkerClaims.

(** ** SearchScheduler *)

Module SchedulerFacts.

Import Gateway Scheduler.


Lemma filter_filter_length {A : Type} (p q : A -> bool) (l : list A) :
  (List.length (filter p (filter q l)) <= List.length (filter p l))%nat.
Proof.
  induction l as [|x l IH]; simpl; auto.
  destruct (q x); simpl; destruct (p x); simpl; lia.
Qed.

Lemma filter_remove_lt {A : Type} (p q : A -> bool) (l : list A) (x : A) :
  In x l -> p x = true -> q x = false ->
  (List.length (filter p (filter q l)) < List.length (filter p l))%nat.
Proof.
  induction l as [|y l IH]; simpl; [tauto|].
  intros [->|Hin] Hp Hq.
  - rewrite Hq, Hp. simpl. pose proof (filter_filter_length p q l). lia.
  - specialize (IH Hin Hp Hq).
    destruct (q y); simpl; destruct (p y); simpl; lia.
Qed.

Lemma findCall_spec (id : nat) (s : State) (c : Call) :
  findCall id s = Some c -> In c (inflight (host s)) /\ call_id c = id.
Proof.
  unfold findCall. intros H. apply find_some in H as [H1 H2].
  apply Nat.eqb_eq in H2. auto.
Qed.

(** *** The guard accounts for searches and resets *)

Lemma guarded_frame (s s' : State) :
  isUpdatingRef (refs s') = isUpdatingRef (refs s) ->
  (List.length (searchesInFlight s') <= List.length (searchesInFlight s))%nat ->
  (List.length (resetsPending s') <= List.length (resetsPending s))%nat ->
  guarded s -> guarded s'.
Proof. unfold guarded. intros ->. lia. Qed.

Lemma guarded_searchNearby (env : Closure) (loc : LatLng) (s : State) :
  guarded s -> guarded (searchNearby env loc s).
Proof.
  unfold searchNearby. destruct (isUpdatingRef (refs s)) eqn:E; auto.
  unfold guarded, searchesInFlight, resetsPending. rewrite E. cbn.
  rewrite filter_app, length_app. cbn. lia.
Qed.

Lemma guarded_searchAtCenter (env : Closure) (s : State) :
  guarded s -> guarded (searchAtCenter env s).
Proof.
  unfold searchAtCenter. destruct (cl_mapInstance env); auto.
  destruct (mapCenter (host s)); auto using guarded_searchNearby.
Qed.

Lemma guarded_clearTimeout (id : nat) (s : State) :
  guarded s -> guarded (clearTimeout id s).
Proof.
  apply guarded_frame; auto. unfold resetsPending, clearTimeout; cbn.
  apply filter_filter_length.
Qed.

Lemma guarded_clearSearchTimeout (s : State) :
  guarded s -> guarded (clearSearchTimeout s).
Proof.
  unfold clearSearchTimeout. destruct (searchTimeoutRef (refs s)); auto.
  apply guarded_clearTimeout.
Qed.

(** Setting a timer that is not a reset. *)
Lemma guarded_setTimeout (a : TimerAction) (d : Z) (s : State) :
  a <> ResetUpdating -> guarded s -> guarded (fst (setTimeout a d s)).
Proof.
  intros Ha. apply guarded_frame; auto. unfold resetsPending; cbn.
  rewrite filter_app, length_app. cbn. unfold isReset; cbn.
  destruct a; cbn; try lia. congruence.
Qed.

Lemma guarded_onIdle (env : Closure) (s : State) :
  guarded s -> guarded (onIdle env s).
Proof.
  intros G. apply guarded_clearSearchTimeout in G. unfold onIdle.
  destruct (isUpdatingRef (refs (clearSearchTimeout s))); auto.
  apply (@guarded_setTimeout (DebouncedSearch env) debounceDelay) in G;
    [exact G | discriminate].
Qed.

Lemma guarded_onPlaceChanged (env : Closure) (place : PlaceResult) (s : State) :
  guarded s -> guarded (onPlaceChanged env place s).
Proof.
  intros G. unfold onPlaceChanged. destruct (geometry place) as [g|]; auto.
  destruct (location g), (cl_mapInstance env); auto.
  apply guarded_searchNearby. exact G.
Qed.

Lemma guarded_flush (s : State) : guarded s -> guarded (flush s).
Proof.
  unfold flush. destruct (dirty s); auto. intros G.
  assert (guarded (idleEffect (with_dirty false s))) as G1.
  { unfold idleEffect.
    assert (guarded (match idleListener (host (with_dirty false s)) with
                     | Some _ => clearSearchTimeout (with_dirty false s)
                     | None => with_dirty false s
                     end)) as G0.
    { destruct (idleListener (host (with_dirty false s)));
        [apply guarded_clearSearchTimeout|]; exact G. }
    exact G0. }
  unfold autocompleteEffect.
  destruct (autocompleteRef (refs (idleEffect (with_dirty false s)))); auto.
  destruct (mapLoaded (ui (idleEffect (with_dirty false s)))); auto.
Qed.

Lemma guarded_removeCall (id : nat) (s : State) :
  guarded s -> guarded (removeCall id s).
Proof.
  apply guarded_frame; auto. unfold searchesInFlight; cbn.
  apply filter_filter_length.
Qed.

Lemma guarded_onInitialResponse (st : PlacesServiceStatus)
    (res : option (list PlaceResult)) (s : State) :
  guarded s -> guarded (onInitialResponse st res s).
Proof.
  intros G. unfold onInitialResponse.
  destruct st; try exact G; destruct res as [rs|]; try exact G.
  destruct (Normalizer.normalize rs); exact G.
Qed.

(** The callback trades the answered search for a pending reset. *)
Lemma guarded_onSearchResponse (id : nat) (c : Call) (st : PlacesServiceStatus)
    (res : option (list PlaceResult)) (s : State) :
  findCall id s = Some c -> call_origin c = ViaSearchNearby ->
  guarded s -> guarded (onSearchResponse st res (removeCall id s)).
Proof.
  intros F O G. apply findCall_spec in F as [Hin Hid].
  assert ((List.length (searchesInFlight (removeCall id s))
           < List.length (searchesInFlight s))%nat) as L.
  { unfold searchesInFlight; cbn. apply filter_remove_lt with (x := c); auto.
    - unfold viaSearchNearby; rewrite O; auto.
    - rewrite Hid, Nat.eqb_refl; auto. }
  assert (forall s1, isUpdatingRef (refs s1) = isUpdatingRef (refs s) ->
            inflight (host s1) = inflight (host (removeCall id s)) ->
            timers (host s1) = timers (host s) -> guarded (scheduleReset s1)) as K.
  { intros s1 E1 E2 E3. unfold guarded, searchesInFlight, resetsPending in *.
    cbn. rewrite E1, E2, E3. rewrite filter_app, length_app. cbn.
    cbn in L. lia. }
  unfold onSearchResponse.
  destruct st; try (apply K; reflexivity);
    destruct res as [rs|]; try (apply K; reflexivity).
  destruct (Normalizer.normalize rs); [apply K; reflexivity|].
  apply guarded_removeCall; exact G.
Qed.

Lemma guarded_handle (e : Event) (s : State) : guarded s -> guarded (handle e s).
Proof.
  intros G. destruct e; cbn [handle].
  - destruct (geoPending (host s)); auto.
    revert G. apply guarded_frame; auto.
    unfold searchesInFlight; cbn. rewrite filter_app, length_app. cbn. lia.
  - destruct (geoPending (host s)); auto.
  - destruct (findCall id s) as [c|] eqn:F; auto.
    destruct (call_origin c) eqn:O.
    + apply guarded_onInitialResponse, guarded_removeCall, G.
    + eapply guarded_onSearchResponse; eauto.
  - destruct (idleListener (host s)); auto. apply guarded_onIdle. exact G.
  - exact G.
  - apply guarded_searchAtCenter. exact G.
  - exact G.
  - destruct (cl_mapInstance (closure s)); auto.
    + destruct (mapCenter (host (setSearchRadius meters s))); auto.
      apply guarded_searchNearby.
      apply (@guarded_setTimeout RemoveCircle 2000) in G; [exact G|discriminate].
  - apply guarded_searchAtCenter. exact G.
  - apply guarded_searchAtCenter. exact G.
  - destruct (autocompleteRef (refs s)); auto. apply guarded_onPlaceChanged, G.
Qed.

(** A timer that fires is pending, so a reset that fires was the one the
    guard accounted for. *)
Lemma guarded_fire (t : Timer) (s : State) :
  In t (timers (host s)) -> guarded s -> guarded (fire t s).
Proof.
  intros Hin G. unfold fire. apply guarded_flush.
  destruct (action t) eqn:A; cbn [runTimer].
  - destruct (mapCenter _); [apply guarded_searchNearby|];
      apply (guarded_clearTimeout (timer_id t)) in G; exact G.
  - unfold guarded, searchesInFlight, resetsPending in *. cbn.
    pose proof (@filter_remove_lt _ isReset
                  (fun t' => negb (Nat.eqb (timer_id t') (timer_id t)))
                  (timers (host s)) t Hin) as L.
    unfold isReset at 1 in L. rewrite A in L. cbn beta in L.
    rewrite Nat.eqb_refl in L. specialize (L eq_refl eq_refl).
    destruct (isUpdatingRef (refs s)); lia.
  - apply (guarded_clearTimeout (timer_id t)) in G; exact G.
Qed.

Create HintDb sched discriminated.

#[export] Hint Unfold handle onGeoSuccess onInitialResponse onSearchResponse onIdle
  searchAtCenter onPlaceChanged searchNearby clearSearchTimeout runTimer
  scheduleReset setRestaurants setLoading setError setMapLoaded setMapInstance
  setSearchTerm setCuisineFilter setMinRating setSearchRadius updateMarkers
  setTimeout nearbySearch removeCall clearTimeout setState : sched.

(** Unfold the handlers and split on every test they make. *)
Ltac cases :=
  repeat (autounfold with sched in *; cbn in *;
          match goal with
          | |- context [match ?x with _ => _ end] => destruct x eqn:?
          end);
  autounfold with sched in *; cbn in *.

Lemma filter_filter_nil {A : Type} (p q : A -> bool) (l : list A) :
  filter p l = [] -> filter p (filter q l) = [].
Proof.
  intros H. pose proof (filter_filter_length p q l) as L. rewrite H in L.
  destruct (filter p (filter q l)); auto. simpl in L. lia.
Qed.

(** *** The map comes first *)

Lemma mapped_handle (e : Event) (s : State) : mapped s -> mapped (handle e s).
Proof.
  unfold mapped, searchesInFlight. intros H.
  destruct (mapInstance (ui s)) eqn:M.
  - destruct e; cases; try congruence; try (intuition congruence).
  - destruct H as (H1 & H2 & H3 & H4 & H5 & H6).
    assert (forall id, filter viaSearchNearby
              (filter (fun c => negb (Nat.eqb (call_id c) id)) (inflight (host s)))
            = []) as H7 by (intros; apply filter_filter_nil; exact H6).
    destruct e;
      try (cases; try congruence;
           rewrite ?H1, ?H2, ?H3, ?H4, ?H5, ?H6 in *; try discriminate;
           intuition congruence).
    cbn [handle]. destruct (findCall id s) as [c|] eqn:F.
    2:{ rewrite M. repeat split; assumption. }
    apply findCall_spec in F as [Hin _].
    destruct (call_origin c) eqn:O.
    + cases; try congruence; rewrite ?H7; repeat split; assumption.
    + exfalso. assert (In c (filter viaSearchNearby (inflight (host s)))) as X.
      { apply filter_In; split; auto. unfold viaSearchNearby; rewrite O; auto. }
      rewrite H6 in X. destruct X.
Qed.

Lemma mapped_flush (s : State) : mapped s -> mapped (flush s).
Proof.
  unfold flush. destruct (dirty s); auto.
  unfold mapped, searchesInFlight, autocompleteEffect, idleEffect, clearSearchTimeout.
  intros H. destruct (mapInstance (ui s)) eqn:M.
  - cases; congruence.
  - destruct H as (H1 & H2 & H3 & H4 & H5 & H6).
    cbn. rewrite H2. cbn. rewrite M, H3, H1. cbn. rewrite M. repeat split; auto.
Qed.

Lemma mapped_fire (t : Timer) (s : State) :
  In t (timers (host s)) -> mapped s -> mapped (fire t s).
Proof.
  intros Hin H. unfold fire. apply mapped_flush.
  unfold mapped, searchesInFlight in *.
  destruct (mapInstance (ui s)) eqn:M.
  - destruct (action t); cases; congruence.
  - destruct H as (_ & _ & _ & H4 & _). rewrite H4 in Hin. destruct Hin.
Qed.

(** *** Timer identifiers *)

Ltac fresh_list :=
  match goal with
  | H : Forall _ (timers (host ?s)) |- Forall _ _ =>
      rewrite Forall_forall in H |- *;
      let t := fresh "t" in
      let Ht := fresh "Ht" in
      intros t Ht; rewrite ?in_app_iff, ?filter_In in Ht; cbn in Ht;
      decompose [and or] Ht; clear Ht; subst; cbn; try lia;
      match goal with
      | Hin : In t _ |- _ => specialize (H _ Hin); lia
      end
  end.

Ltac fresh_ref :=
  let id := fresh "id" in
  let E := fresh "E" in
  intros id E;
  first
    [ injection E as <-; lia
    | match goal with
      | H : forall id, _ = Some id -> _ |- _ =>
          specialize (H id ltac:(congruence)); lia
      end ].

Lemma fresh_handle (e : Event) (s : State) :
  freshTimers s -> freshTimers (handle e s).
Proof.
  unfold freshTimers. intros [HF HR].
  destruct e; cases; (split; [try assumption; fresh_list | try assumption; fresh_ref]).
Qed.

Lemma fresh_flush (s : State) : freshTimers s -> freshTimers (flush s).
Proof.
  unfold freshTimers, flush, autocompleteEffect, idleEffect. intros [HF HR].
  cases; (split; [try assumption; fresh_list | try assumption; fresh_ref]).
Qed.

Lemma fresh_fire (t : Timer) (s : State) : freshTimers s -> freshTimers (fire t s).
Proof.
  intros H. unfold fire. apply fresh_flush. revert H.
  unfold freshTimers. intros [HF HR].
  destruct (action t); cases;
    (split; [try assumption; fresh_list | try assumption; fresh_ref]).
Qed.

(** *** Markers stay tracked *)

Ltac tracked_leaf :=
  first [ assumption
        | apply MarkerFacts.updateMarkers_tracked; assumption
        | apply (@MarkerFacts.updateMarkers_tracked []); assumption ].

Lemma tracked_handle (e : Event) (s : State) :
  Markers.tracked (markers (refs s)) ->
  Markers.tracked (markers (refs (handle e s))).
Proof. intros H. destruct e; cases; tracked_leaf. Qed.

Lemma tracked_flush (s : State) :
  Markers.tracked (markers (refs s)) ->
  Markers.tracked (markers (refs (flush s))).
Proof.
  intros H. unfold flush, autocompleteEffect, idleEffect. cases; tracked_leaf.
Qed.

Lemma tracked_fire (t : Timer) (s : State) :
  Markers.tracked (markers (refs s)) ->
  Markers.tracked (markers (refs (fire t s))).
Proof.
  intros H. unfold fire. apply tracked_flush.
  destruct (action t); cases; tracked_leaf.
Qed.

Lemma rendered_flush (s : State) : dirty (flush s) = false.
Proof.
  unfold flush, autocompleteEffect, idleEffect. cases; auto.
Qed.

(** *** Between two events *)

Lemma settled_dispatch (e : Event) (s : State) : settled s -> settled (dispatch e s).
Proof.
  intros [G M F _ K]. unfold dispatch. constructor.
  - apply guarded_flush, guarded_handle, G.
  - apply mapped_flush, mapped_handle, M.
  - apply fresh_flush, fresh_handle, F.
  - apply rendered_flush.
  - apply tracked_flush, tracked_handle, K.
Qed.

Lemma settled_fire (t : Timer) (s : State) :
  In t (timers (host s)) -> settled s -> settled (fire t s).
Proof.
  intros Hin [G M F D K]. constructor.
  - apply guarded_fire; auto.
  - apply mapped_fire; auto.
  - apply fresh_fire; auto.
  - apply rendered_flush.
  - apply tracked_fire; auto.
Qed.

Lemma earliest_In (ts : list Timer) (t : Timer) : earliest ts = Some t -> In t ts.
Proof.
  revert t; induction ts as [|u ts IH]; simpl; intros t H; [discriminate|].
  destruct (earliest ts) as [v|].
  - destruct (due v <? due u); injection H as <-; auto.
  - injection H as <-; auto.
Qed.

Lemma nextDue_spec (T : Z) (s : State) (t : Timer) :
  nextDue T s = Some t -> In t (timers (host s)) /\ due t <= T.
Proof.
  unfold nextDue. destruct (earliest (timers (host s))) as [u|] eqn:E; [|discriminate].
  destruct (due u <=? T) eqn:L; [|discriminate].
  intros [= <-]. split; [apply earliest_In; auto | lia].
Qed.

Lemma settled_advanceFuel (n : nat) (T : Z) (s : State) :
  settled s -> settled (advanceFuel n T s).
Proof.
  revert s; induction n as [|n IH]; simpl; intros s H; auto.
  destruct (nextDue T s) as [t|] eqn:E; auto.
  apply IH, settled_fire; auto. apply (nextDue_spec _ _ E).
Qed.

Lemma settled_advance (T : Z) (s : State) : settled s -> settled (advance T s).
Proof.
  intros H. unfold advance.
  destruct (settled_advanceFuel (List.length (timers (host s))) T H)
    as [G M F D K].
  constructor; auto.
Qed.

Lemma settled_init : settled init.
Proof.
  constructor; cbn; auto.
  - unfold guarded; cbn; lia.
  - unfold mapped; cbn; auto 10.
  - split; [constructor | discriminate].
  - intros [|h] m H; discriminate.
Qed.

Lemma reachable_settled (s : State) : reachable s -> settled s.
Proof.
  induction 1 as [|s te _ IH|s T _ IH].
  - apply settled_init.
  - apply settled_dispatch, settled_advance, IH.
  - apply settled_advance, IH.
Qed.

(** *** While the guard is closed *)

Ltac closed_list :=
  match goal with
  | H : Forall _ (timers (host ?s)) |- Forall _ _ =>
      rewrite Forall_forall in H |- *;
      let t := fresh "t" in
      let Ht := fresh "Ht" in
      intros t Ht; rewrite ?in_app_iff, ?filter_In in Ht; cbn in Ht;
      decompose [and or] Ht; clear Ht; subst; cbn;
      first [ discriminate 1 | intros _; unfold cooldown in *; lia | auto ]
  end.

Lemma closed_handle (T : Z) (e : Event) (s : State) :
  T <= now (host s) + cooldown ->
  closedUntil T s -> closedUntil T (handle e s).
Proof.
  unfold closedUntil. intros HT [HU HF].
  destruct e; cases; try congruence;
    (split; [assumption | try assumption; closed_list]).
Qed.

Lemma closed_flush (T : Z) (s : State) : closedUntil T s -> closedUntil T (flush s).
Proof.
  unfold closedUntil, flush, autocompleteEffect, idleEffect. intros [HU HF].
  cases; (split; [assumption | try assumption; closed_list]).
Qed.

(** With the guard closed, only the first search can still be issued. *)
Lemma closed_handle_issued (e : Event) (s : State) :
  isUpdatingRef (refs s) = true ->
  (forall p, e <> GeoSuccess p) ->
  issued (host (handle e s)) = issued (host s).
Proof.
  intros HU He. destruct e; cases; try congruence.
  exfalso; eapply He; reflexivity.
Qed.

Lemma closed_handle_searches (e : Event) (s : State) :
  isUpdatingRef (refs s) = true ->
  searchesIssued (handle e s) = searchesIssued s.
Proof.
  intros HU. unfold searchesIssued. destruct e; cases; try congruence.
  rewrite filter_app; cbn. apply app_nil_r.
Qed.

Lemma flush_issued (s : State) : issued (host (flush s)) = issued (host s).
Proof.
  unfold flush, autocompleteEffect, idleEffect. cases; reflexivity.
Qed.

Lemma flush_now (s : State) : now (host (flush s)) = now (host s).
Proof.
  unfold flush, autocompleteEffect, idleEffect. cases; reflexivity.
Qed.

Lemma handle_now (e : Event) (s : State) : now (host (handle e s)) = now (host s).
Proof. destruct e; cases; reflexivity. Qed.

(** A timer that is not a reset changes nothing while the guard is closed. *)
Lemma closed_fire (T : Z) (t : Timer) (s : State) :
  isReset t = false -> closedUntil T s ->
  closedUntil T (fire t s) /\ issued (host (fire t s)) = issued (host s).
Proof.
  intros Ht C. unfold fire. rewrite flush_issued.
  assert (closedUntil T
            (with_host (fun h => host_now (Z.max (now h) (due t)) h)
               (clearTimeout (timer_id t) s))) as C1.
  { destruct C as [HU HF]. split; [exact HU|]. cbn.
    rewrite Forall_forall in HF |- *. intros u Hu.
    apply filter_In in Hu as [Hu _]. auto. }
  destruct C1 as [HU1 HF1].
  unfold isReset in Ht. destruct (action t); try discriminate; cbn [runTimer].
  - destruct (mapCenter _); unfold searchNearby; rewrite ?HU1;
      (split; [apply closed_flush; split; assumption | reflexivity]).
  - split; [apply closed_flush; split; assumption | reflexivity].
Qed.

Lemma fire_now (t : Timer) (s : State) :
  now (host (fire t s)) = Z.max (now (host s)) (due t).
Proof.
  unfold fire. rewrite flush_now. destruct (action t); cases; reflexivity.
Qed.

Lemma closed_advanceFuel (n : nat) (T' T : Z) (s : State) :
  T' < T -> closedUntil T s ->
  closedUntil T (advanceFuel n T' s) /\
  issued (host (advanceFuel n T' s)) = issued (host s) /\
  now (host s) <= now (host (advanceFuel n T' s)).
Proof.
  intros HT. revert s; induction n as [|n IH]; simpl; intros s C.
  - split; [exact C|]. split; [reflexivity | lia].
  - destruct (nextDue T' s) as [t|] eqn:E;
      [|split; [exact C|]; split; [reflexivity | lia]].
    apply nextDue_spec in E as [Hin Hdue].
    assert (isReset t = false) as Hr.
    { destruct C as [_ HF]. rewrite Forall_forall in HF. specialize (HF _ Hin).
      destruct (isReset t); auto. specialize (HF eq_refl). lia. }
    destruct (closed_fire t Hr C) as [C1 I1].
    destruct (IH _ C1) as (C2 & I2 & N2).
    split; [exact C2|]. split; [congruence|].
    rewrite fire_now in N2. lia.
Qed.

Lemma closed_advance (T' T : Z) (s : State) :
  T' < T -> closedUntil T s ->
  closedUntil T (advance T' s) /\
  issued (host (advance T' s)) = issued (host s) /\
  now (host s) <= now (host (advance T' s)).
Proof.
  intros HT C. unfold advance.
  destruct (closed_advanceFuel (List.length (timers (host s))) HT C)
    as (C1 & I1 & N1).
  split; [exact C1|]. split; [exact I1|]. cbn. lia.
Qed.

Lemma closed_step (T : Z) (te : Z * Event) (s : State) :
  fst te < T -> T <= now (host s) + cooldown -> closedUntil T s ->
  closedUntil T (step te s) /\
  searchesIssued (step te s) = searchesIssued s /\
  now (host s) <= now (host (step te s)).
Proof.
  intros Ht HT C. unfold step, dispatch.
  destruct (closed_advance Ht C) as (C1 & I1 & N1).
  split; [|split].
  - apply closed_flush, closed_handle; auto; lia.
  - unfold searchesIssued at 1. rewrite flush_issued.
    change (searchesIssued (handle (snd te) (advance (fst te) s)) = searchesIssued s).
    rewrite closed_handle_searches by apply C1.
    unfold searchesIssued. rewrite I1. reflexivity.
  - rewrite flush_now, handle_now. exact N1.
Qed.

Lemma closed_run (T : Z) (evs : list (Z * Event)) (s : State) :
  Forall (fun te => fst te < T) evs ->
  T <= now (host s) + cooldown -> closedUntil T s ->
  closedUntil T (run evs s) /\
  searchesIssued (run evs s) = searchesIssued s /\
  now (host s) <= now (host (run evs s)).
Proof.
  intros H. revert s. induction H as [|te evs Hte _ IH]; intros s HT C.
  - split; [exact C|]. split; [reflexivity | cbn; lia].
  - change (run (te :: evs) s) with (run evs (step te s)).
    destruct (closed_step te Hte HT C) as (C1 & I1 & N1).
    destruct (IH (step te s)) as (C2 & I2 & N2); auto; try lia.
    split; [exact C2|]. split; [congruence | lia].
Qed.

(** An explicit action, whenever it comes while the guard is closed,
    leaves the log of gateway calls as it is. *)
Lemma closed_explicit (T : Z) (t : Z) (e : Event) (s : State) :
  t < T -> explicit e = true -> closedUntil T s ->
  issued (host (step (t, e) s)) = issued (host s).
Proof.
  intros Ht He C. unfold step, dispatch; cbn [fst snd].
  destruct (closed_advance Ht C) as (C1 & I1 & _).
  rewrite flush_issued, closed_handle_issued; auto.
  - apply C1.
  - intros p ->. discriminate.
Qed.

(** *** The order in which timers fire *)

Lemma earliest_none (ts : list Timer) : earliest ts = None -> ts = [].
Proof.
  destruct ts as [|u ts]; simpl; auto.
  destruct (earliest ts) as [v|]; [destruct (due v <? due u)|]; discriminate.
Qed.

Lemma earliest_min (ts : list Timer) (t : Timer) :
  earliest ts = Some t -> Forall (fun u => due t <= due u) ts.
Proof.
  revert t; induction ts as [|u ts IH]; simpl; intros t H; [constructor|].
  destruct (earliest ts) as [v|] eqn:E.
  - specialize (IH v eq_refl).
    destruct (due v <? due u) eqn:L; injection H as <-.
    + constructor; [lia | exact IH].
    + constructor; [lia|]. eapply Forall_impl; [|exact IH]. cbn; intros; lia.
  - injection H as <-. apply earliest_none in E; subst.
    constructor; [lia | constructor].
Qed.

(** The timer set last fires only when every older one is due later. *)
Lemma earliest_app_last (pre : list Timer) (r t : Timer) :
  earliest (pre ++ [r]) = Some t ->
  (In t pre /\ due t <= due r) \/
  (t = r /\ Forall (fun u => due r < due u) pre).
Proof.
  revert t; induction pre as [|u pre IH]; simpl; intros t H.
  - injection H as <-. right; auto.
  - destruct (earliest (pre ++ [r])) as [v|] eqn:E.
    + destruct (IH v eq_refl) as [[Hin Hle]|[-> HF]].
      * destruct (due v <? due u) eqn:L; injection H as <-; left; split; auto.
        pose proof (@earliest_min _ _ E) as M. rewrite Forall_forall in M.
        assert (due v <= due r) by exact Hle. lia.
      * destruct (due r <? due u) eqn:L; injection H as <-.
        -- right; split; auto. constructor; [lia | exact HF].
        -- left; split; auto. lia.
    + apply earliest_none in E. destruct pre; discriminate.
Qed.

Lemma advanceFuel_idle (n : nat) (T : Z) (s : State) :
  nextDue T s = None -> advanceFuel n T s = s.
Proof. destruct n; simpl; auto. intros ->; reflexivity. Qed.

Lemma filter_length_lt {A : Type} (q : A -> bool) (l : list A) (x : A) :
  In x l -> q x = false -> (List.length (filter q l) < List.length l)%nat.
Proof.
  induction l as [|y l IH]; simpl; [tauto|].
  pose proof (filter_length_le q l) as L.
  intros [->|Hin] Hq.
  - rewrite Hq. lia.
  - specialize (IH Hin Hq). destruct (q y); simpl; lia.
Qed.

(** With the guard closed and nothing to render, a timer that is not a
    reset only leaves the queue. *)
Lemma fire_dropped (t : Timer) (s : State) :
  isUpdatingRef (refs s) = true -> dirty s = false -> isReset t = false ->
  fire t s = with_host (fun h => host_now (Z.max (now h) (due t)) h)
               (clearTimeout (timer_id t) s).
Proof.
  intros HU HD Ht. unfold fire, isReset in *.
  destruct (action t); try discriminate; cbn [runTimer].
  - destruct (mapCenter _); unfold searchNearby; cbn; rewrite ?HU;
      unfold flush; cbn; rewrite HD; reflexivity.
  - unfold flush; cbn; rewrite HD; reflexivity.
Qed.

Lemma fire_reset (t : Timer) (s : State) :
  dirty s = false -> action t = ResetUpdating ->
  fire t s = with_refs (refs_isUpdatingRef false)
               (with_host (fun h => host_now (Z.max (now h) (due t)) h)
                  (clearTimeout (timer_id t) s)).
Proof.
  intros HD Ht. unfold fire. rewrite Ht; cbn [runTimer].
  unfold flush; cbn; rewrite HD; reflexivity.
Qed.

(** Waiting until the reset is due reopens the guard, and does nothing
    else that can be observed. *)
Lemma reopen_advanceFuel (n : nat) (r : Timer) (pre : list Timer) (s : State) :
  isUpdatingRef (refs s) = true -> dirty s = false ->
  timers (host s) = pre ++ [r] -> action r = ResetUpdating ->
  Forall (fun t => isReset t = false /\ timer_id t <> timer_id r) pre ->
  now (host s) <= due r ->
  (List.length pre < n)%nat ->
  isUpdatingRef (refs (advanceFuel n (due r) s)) = false /\
  dirty (advanceFuel n (due r) s) = false /\
  issued (host (advanceFuel n (due r) s)) = issued (host s) /\
  nextCall (host (advanceFuel n (due r) s)) = nextCall (host s) /\
  ui (advanceFuel n (due r) s) = ui s /\
  mapCenter (host (advanceFuel n (due r) s)) = mapCenter (host s) /\
  now (host (advanceFuel n (due r) s)) = due r.
Proof.
  revert pre s. induction n as [|n IH]; intros pre s HU HD HT Hr Hpre Hnow Hn;
    [lia|].
  simpl. unfold nextDue. rewrite HT.
  destruct (earliest (pre ++ [r])) as [t|] eqn:E.
  2:{ apply earliest_none in E. destruct pre; discriminate. }
  destruct (@earliest_app_last _ _ _ E) as [[Hin Hle]|[-> Hlate]].
  - assert ((due t <=? due r) = true) as -> by lia.
    rewrite Forall_forall in Hpre. destruct (Hpre _ Hin) as [Ht Hid].
    rewrite (@fire_dropped t s HU HD Ht).
    destruct (IH (filter (fun u => negb (Nat.eqb (timer_id u) (timer_id t))) pre)
                 (with_host (fun h => host_now (Z.max (now h) (due t)) h)
                    (clearTimeout (timer_id t) s)))
      as (A1 & A2 & A3 & A4 & A5 & A6 & A7).
    + exact HU.
    + exact HD.
    + cbn. rewrite HT, filter_app. cbn.
      assert (Nat.eqb (timer_id r) (timer_id t) = false) as ->
        by (apply Nat.eqb_neq; congruence).
      reflexivity.
    + exact Hr.
    + apply Forall_forall. intros u Hu. apply filter_In in Hu as [Hu _]. auto.
    + cbn. lia.
    + pose proof (@filter_length_lt _
          (fun u => negb (Nat.eqb (timer_id u) (timer_id t))) pre t Hin) as L.
      cbn beta in L. rewrite Nat.eqb_refl in L. specialize (L eq_refl). lia.
    + repeat split; assumption.
  - rewrite Z.leb_refl. rewrite (@fire_reset r s HD Hr).
    rewrite advanceFuel_idle.
    + cbn. repeat split; auto. lia.
    + unfold nextDue. cbn. rewrite HT, filter_app. cbn. rewrite Nat.eqb_refl. cbn.
      rewrite app_nil_r.
      rewrite MarkerFacts.filter_all.
      2:{ eapply Forall_impl; [|exact Hpre]. cbn. intros u [_ Hu].
          apply negb_true_iff, Nat.eqb_neq. exact Hu. }
      destruct (earliest pre) as [u|] eqn:Eu; auto.
      pose proof (@earliest_In _ _ Eu) as Hin.
      rewrite Forall_forall in Hlate. specialize (Hlate _ Hin).
      assert ((due u <=? due r) = false) as -> by lia. reflexivity.
Qed.

(** *** A search in flight *)

Lemma in_flight (s : State) (id : nat) (c : Call) :
  findCall id s = Some c -> call_origin c = ViaSearchNearby ->
  In c (searchesInFlight s).
Proof.
  intros F O. apply findCall_spec in F as [Hin _].
  apply filter_In; split; auto. unfold viaSearchNearby; rewrite O; auto.
Qed.

(** While a search made by [searchNearby] is unanswered the guard is
    closed and no reset is pending. *)
Lemma in_flight_closed (s : State) :
  guarded s -> searchesInFlight s <> [] ->
  isUpdatingRef (refs s) = true /\
  Forall (fun t => isReset t = false) (timers (host s)).
Proof.
  unfold guarded, resetsPending. intros G H.
  destruct (searchesInFlight s) as [|c l] eqn:E; [congruence|]. cbn in G.
  destruct (isUpdatingRef (refs s)); [|lia]. split; auto.
  apply Forall_forall. intros t Ht.
  destruct (isReset t) eqn:R; auto. exfalso.
  assert (In t (filter isReset (timers (host s)))) as X
    by (apply filter_In; auto).
  destruct (filter isReset (timers (host s))); [destruct X | cbn in G; lia].
Qed.

Lemma in_flight_closedUntil (T : Z) (s : State) :
  guarded s -> searchesInFlight s <> [] -> closedUntil T s.
Proof.
  intros G H. destruct (in_flight_closed G H) as [HU HF]. split; auto.
  eapply Forall_impl; [|exact HF]. cbn. congruence.
Qed.

(** The state in which the callback of a search leaves the scheduler:
    the guard still closed, and the reset the newest pending timer. *)
Lemma response_schedules_reset (s : State) (id : nat) (c : Call)
    (st : PlacesServiceStatus) (res : option (list PlaceResult)) :
  settled s -> findCall id s = Some c -> call_origin c = ViaSearchNearby ->
  st <> OK ->
  let s' := dispatch (Response id st res) s in
  let r := {| timer_id := nextTimer (host s);
              due := now (host s) + cooldown;
              action := ResetUpdating |} in
  isUpdatingRef (refs s') = true /\ dirty s' = false /\
  (exists pre, timers (host s') = pre ++ [r] /\
     Forall (fun t => isReset t = false /\ timer_id t <> timer_id r) pre) /\
  issued (host s') = issued (host s) /\
  nextCall (host s') = nextCall (host s) /\
  now (host s') = now (host s) /\
  mapInstance (ui s') = mapInstance (ui s) /\
  mapCenter (host s') = mapCenter (host s).
Proof.
  intros [G M [FT FR] D K] F O Hst s' r.
  pose proof (@in_flight s id c F O) as Hc.
  destruct (@in_flight_closed s G) as [HU HF];
    [intros E; rewrite E in Hc; destruct Hc|].
  assert (Forall (fun t => isReset t = false /\ timer_id t <> timer_id r)
            (timers (host s))) as Hpre.
  { rewrite Forall_forall in *. intros t Ht. split; auto.
    specialize (FT _ Ht). cbn. lia. }
  assert (forall q, Forall (fun t => isReset t = false /\ timer_id t <> timer_id r)
            (filter q (timers (host s)))) as Hpre'.
  { intros q. rewrite Forall_forall in *. intros t Ht.
    apply filter_In in Ht as [Ht _]. auto. }
  subst s'. unfold dispatch. cbn [handle]. rewrite F, O.
  split; [|split; [apply rendered_flush|]].
  { unfold flush, autocompleteEffect, idleEffect. destruct st; cases; congruence. }
  rewrite flush_issued, flush_now.
  unfold flush, autocompleteEffect, idleEffect.
  assert (forall n, searchTimeoutRef (refs s) = Some n ->
                    Nat.eqb (nextTimer (host s)) n = false) as Hn.
  { intros n Hn. apply Nat.eqb_neq. specialize (FR _ Hn). lia. }
  destruct st; try congruence; cases;
    (split; [|repeat split; reflexivity]);
    first [ exists (timers (host s)); split; [reflexivity | exact Hpre]
          | eexists; split;
            [ rewrite filter_app; cbn; rewrite (Hn _ eq_refl); cbn; reflexivity
            | apply Hpre' ] ].
Qed.

(** *** Debouncing *)











(** *** Enough turns *)

Lemma flush_timers (s : State) :
  (List.length (timers (host (flush s))) <= List.length (timers (host s)))%nat.
Proof.
  unfold flush, autocompleteEffect, idleEffect.
  cases; auto; apply filter_length_le.
Qed.

Lemma runTimer_timers (a : TimerAction) (s : State) :
  timers (host (runTimer a s)) = timers (host s).
Proof. destruct a; cases; reflexivity. Qed.

(** Firing a timer takes it off the queue and puts none on it. *)
Lemma fire_timers (t : Timer) (s : State) :
  In t (timers (host s)) ->
  (List.length (timers (host (fire t s))) < List.length (timers (host s)))%nat.
Proof.
  intros Hin. unfold fire.
  eapply Nat.le_lt_trans; [apply flush_timers|].
  rewrite runTimer_timers. cbn.
  apply filter_length_lt with (x := t); auto.
  rewrite Nat.eqb_refl. reflexivity.
Qed.

Lemma advanceFuel_complete (n : nat) (T : Z) (s : State) :
  (List.length (timers (host s)) <= n)%nat ->
  nextDue T (advanceFuel n T s) = None.
Proof.
  revert s; induction n as [|n IH]; intros s H; simpl.
  - unfold nextDue. destruct (timers (host s)); [reflexivity | simpl in H; lia].
  - destruct (nextDue T s) as [t|] eqn:E; [|exact E].
    apply IH. apply nextDue_spec in E as [Hin _].
    pose proof (@fire_timers t s Hin). lia.
Qed.

(** After [advance T] no pending timer is due at or before [T]. *)
Lemma advance_complete (T : Z) (s : State) : nextDue T (advance T s) = None.
Proof.
  unfold advance.
  pose proof (@advanceFuel_complete (List.length (timers (host s))) T s
                (Nat.le_refl _)) as H.
  unfold nextDue in *. exact H.
Qed.

(** *** Executions *)

Lemma reachable_run (evs : list (Z * Event)) (s : State) :
  reachable s -> reachable (run evs s).
Proof.
  revert s; induction evs as [|te evs IH]; intros s H; [exact H|].
  apply (IH (step te s)). apply reach_step; exact H.
Qed.

Lemma flush_ui (s : State) : ui (flush s) = ui s.
Proof. unfold flush, autocompleteEffect, idleEffect. cases; reflexivity. Qed.

Lemma flush_markers (s : State) : markers (refs (flush s)) = markers (refs s).
Proof. unfold flush, autocompleteEffect, idleEffect. cases; reflexivity. Qed.

(** Once a search made by [searchNearby] is answered, the guard stays
    closed for the length of the cooldown. *)
Lemma response_closes (s : State) (id : nat) (c : Call)
    (st : PlacesServiceStatus) (res : option (list PlaceResult)) :
  settled s -> findCall id s = Some c -> call_origin c = ViaSearchNearby ->
  closedUntil (now (host s) + cooldown) (dispatch (Response id st res) s) /\
  now (host (dispatch (Response id st res) s)) = now (host s).
Proof.
  intros [G M FT D K] F O. split.
  - apply closed_flush, closed_handle; [lia|].
    apply in_flight_closedUntil; auto.
    intros E. pose proof (@in_flight s id c F O) as X. rewrite E in X. destruct X.
  - unfold dispatch. rewrite flush_now, handle_now. reflexivity.
Qed.

Lemma markers_cleared (st : Markers.Store) :
  Markers.tracked st ->
  Markers.markersRef (Markers.updateMarkers [] st) = [] /\
  Markers.live (Markers.updateMarkers [] st) = 0%nat.
Proof.
  intros H. split; [reflexivity|]. apply (MarkerFacts.updateMarkers_live [] H).
Qed.

End SchedulerFacts.

Module SchedulerClaims.

Import Gateway Scheduler SchedulerFacts.

(** C5, as stated, fails.  Call 1 is answered at 2100 ms; the user
    presses Search at 2600 ms, inside the one-second cooldown, and no
    gateway call is made.  The same press at 3200 ms makes one. *)
Lemma explicit_action_suppressed_in_cooldown :
  searchesInFlight Traces.searching <> [] /\
  now (host Traces.answered) = 2100 /\
  explicit ClickSearch = true /\
  issued (host (step (2600, ClickSearch) Traces.answered))
  = issued (host Traces.answered) /\
  List.length (issued (host Traces.answered)) = 2%nat /\
  List.length (issued (host (step (3200, ClickSearch) Traces.answered))) = 3%nat.
Proof.
  vm_compute. repeat split. discriminate.
Qed.

(** C5, amended.  In the variant with the cooldown, when a search made
    by [searchNearby] completes, an explicit user action (cuisine
    change, radius change, Search, Reset, autocomplete selection) that
    occurs within the one-second cooldown issues no search, whatever
    happened in the window before it: the guard is tested inside
    [searchNearby], so the cooldown suppresses explicit actions as well
    as the searches of the idle listener. *)
Theorem cooldown_suppresses_explicit_actions (s : State) (id : nat) (c : Call)
    (st : PlacesServiceStatus) (res : option (list PlaceResult))
    (evs : list (Z * Event)) (t : Z) (e : Event) :
  reachable s ->
  findCall id s = Some c -> call_origin c = ViaSearchNearby ->
  Forall (fun te => fst te < now (host s) + cooldown) evs ->
  t < now (host s) + cooldown ->
  explicit e = true ->
  issued (host (step (t, e) (run evs (dispatch (Response id st res) s))))
  = issued (host (run evs (dispatch (Response id st res) s))).
Proof.
  intros R F O Hevs Ht He.
  destruct (@response_closes s id c st res (reachable_settled R) F O) as [C N].
  destruct (@closed_run (now (host s) + cooldown) evs
              (dispatch (Response id st res) s) Hevs) as (C1 & _ & _);
    [lia | exact C |].
  apply closed_explicit with (T := now (host s) + cooldown); auto.
Qed.

Lemma cooldown_suppresses_explicit_actions_witness :
  issued (host (step (2600, ClickSearch)
                  (run [(2300, MapIdle Sample.here)]
                     (dispatch (Response 1 OK (Some Sample.results))
                        (advance 2100 Traces.searching)))))
  = issued (host (run [(2300, MapIdle Sample.here)]
                    (dispatch (Response 1 OK (Some Sample.results))
                       (advance 2100 Traces.searching)))).
Proof.
  apply (@cooldown_suppresses_explicit_actions
           (advance 2100 Traces.searching) 1%nat Traces.call1).
  - apply reach_wait. unfold Traces.searching, Traces.loaded.
    do 2 apply reachable_run. apply reach_init.
  - vm_compute; reflexivity.
  - reflexivity.
  - repeat constructor; vm_compute; reflexivity.
  - vm_compute; reflexivity.
  - reflexivity.
Defined.

(** C6, as stated, fails.  The first search is issued by the
    geolocation callback, which does not set the guard flag; a press on
    Search before it is answered issues a second call, and two calls
    are in flight. *)
Lemma first_search_overlaps :
  reachable Traces.overlapping /\
  List.length (inflight (host Traces.overlapping)) = 2%nat /\
  map call_origin (inflight (host Traces.overlapping))
  = [InitialLoad; ViaSearchNearby].
Proof.
  split; [|split; vm_compute; reflexivity].
  unfold Traces.overlapping. apply reachable_run, reach_init.
Qed.

(** C6, amended.  In every reachable state at most one gateway call
    made by [searchNearby] is in flight, and while one is in flight an
    explicit action (Search, the Refresh of this variant, included),
    whenever it comes, issues no gateway call: the guard flag applies to
    explicit actions as well as to debounce fires.  The first search of
    the geolocation callback is outside the guard. *)
Theorem one_search_in_flight (s : State) :
  reachable s ->
  (List.length (searchesInFlight s) <= 1)%nat /\
  (searchesInFlight s <> [] ->
   forall t e, explicit e = true ->
               issued (host (step (t, e) s)) = issued (host s)).
Proof.
  intros R. destruct (reachable_settled R) as [G _ _ _ _]. split.
  - unfold guarded in G. destruct (isUpdatingRef (refs s)); lia.
  - intros H t e He. apply closed_explicit with (T := t + 1); auto; [lia|].
    apply in_flight_closedUntil; auto.
Qed.

Lemma one_search_in_flight_witness :
  (List.length (searchesInFlight Traces.searching) <= 1)%nat /\
  (searchesInFlight Traces.searching <> [] ->
   forall t e, explicit e = true ->
               issued (host (step (t, e) Traces.searching))
               = issued (host Traces.searching)).
Proof.
  apply (@one_search_in_flight Traces.searching).
  unfold Traces.searching, Traces.loaded.
  do 2 apply reachable_run. apply reach_init.
Defined.



(** C9.  When the answer to a search made by [searchNearby] carries a
    status other than [OK] and [ZERO_RESULTS], the state after the
    callback has an empty restaurant list, no marker handle and no
    marker on the map, the error message set and [loading] false; and
    the system can search again: once the cooldown has passed, a press
    on Search issues a new gateway call. *)
Theorem gateway_error_recovers (s : State) (id : nat) (c : Call)
    (st : PlacesServiceStatus) (res : option (list PlaceResult)) :
  reachable s ->
  findCall id s = Some c -> call_origin c = ViaSearchNearby ->
  st <> OK -> st <> ZERO_RESULTS ->
  restaurants (ui (dispatch (Response id st res) s)) = [] /\
  Markers.markersRef (markers (refs (dispatch (Response id st res) s))) = [] /\
  Markers.live (markers (refs (dispatch (Response id st res) s))) = 0%nat /\
  error (ui (dispatch (Response id st res) s)) = Some msgError /\
  loading (ui (dispatch (Response id st res) s)) = false /\
  exists c',
    issued (host (step (now (host s) + cooldown, ClickSearch)
                    (dispatch (Response id st res) s)))
    = issued (host (dispatch (Response id st res) s))
      ++ [(now (host s) + cooldown, c')] /\
    call_origin c' = ViaSearchNearby.
Proof.
  intros R F O Hok Hzero.
  pose proof (reachable_settled R) as S.
  destruct (@response_schedules_reset s id c st res S F O Hok)
    as (HU & HD & (pre & HT & Hpre) & HI & HC & HN & HM & HCen).
  destruct S as [G M FT D K].
  destruct (markers_cleared K) as [K1 K2].
  assert (restaurants (ui (dispatch (Response id st res) s)) = [] /\
          markers (refs (dispatch (Response id st res) s))
          = Markers.updateMarkers [] (markers (refs s)) /\
          error (ui (dispatch (Response id st res) s)) = Some msgError /\
          loading (ui (dispatch (Response id st res) s)) = false)
    as (U1 & U2 & U3 & U4).
  { unfold dispatch. rewrite flush_ui, flush_markers. cbn [handle]. rewrite F, O.
    unfold onSearchResponse.
    destruct st; try congruence; destruct res; repeat split; reflexivity. }
  rewrite U1, U2, U3, U4. repeat (split; [first [reflexivity | assumption]|]).
  set (s' := dispatch (Response id st res) s) in *.
  set (r := {| timer_id := nextTimer (host s); due := now (host s) + cooldown;
               action := ResetUpdating |}) in *.
  assert (now (host s') <= due r) as Hnow by (cbn; unfold cooldown; lia).
  destruct (@reopen_advanceFuel (List.length (timers (host s'))) r pre s'
              HU HD HT eq_refl Hpre Hnow)
    as (A1 & A2 & A3 & A4 & A5 & A6 & A7).
  { rewrite HT, length_app. cbn. lia. }
  change (due r) with (now (host s) + cooldown) in *.
  assert (exists h ctr, mapInstance (ui s) = Some h /\ mapCenter (host s) = Some ctr)
    as (h & ctr & Hh & Hctr).
  { destruct (@in_flight_closed s G) as [HUs _].
    { intros E. pose proof (@in_flight s id c F O) as X.
      rewrite E in X. destruct X. }
    unfold mapped in M. destruct (mapInstance (ui s)) as [h|].
    - destruct (mapCenter (host s)) as [ctr|]; [eauto | congruence].
    - destruct M as (_ & _ & _ & _ & M5 & _). congruence. }
  unfold step, dispatch; cbn [fst snd]. rewrite flush_issued.
  unfold advance. cbn [handle]. unfold searchAtCenter, closure. cbn.
  rewrite A5, HM, Hh, A6, HCen, Hctr. unfold searchNearby. cbn. rewrite A1.
  cbn. rewrite A3, A7.
  rewrite Z.max_id. eexists. split; reflexivity.
Qed.

Lemma gateway_error_recovers_witness :
  restaurants (ui (dispatch (Response 1 UNKNOWN_ERROR None) Traces.searching)) = [] /\
  Markers.markersRef
    (markers (refs (dispatch (Response 1 UNKNOWN_ERROR None) Traces.searching))) = [] /\
  Markers.live
    (markers (refs (dispatch (Response 1 UNKNOWN_ERROR None) Traces.searching))) = 0%nat /\
  error (ui (dispatch (Response 1 UNKNOWN_ERROR None) Traces.searching))
  = Some msgError /\
  loading (ui (dispatch (Response 1 UNKNOWN_ERROR None) Traces.searching)) = false /\
  exists c',
    issued (host (step (now (host Traces.searching) + cooldown, ClickSearch)
                    (dispatch (Response 1 UNKNOWN_ERROR None) Traces.searching)))
    = issued (host (dispatch (Response 1 UNKNOWN_ERROR None) Traces.searching))
      ++ [(now (host Traces.searching) + cooldown, c')] /\
    call_origin c' = ViaSearchNearby.
Proof.
  apply (@gateway_error_recovers Traces.searching 1%nat Traces.call1).
  - unfold Traces.searching, Traces.loaded.
    do 2 apply reachable_run. apply reach_init.
  - vm_compute; reflexivity.
  - reflexivity.
  - discriminate.
  - discriminate.
Defined.

(** The three cases of the keyword, on the request literal itself. *)
Example keyword_cases :
  keywordOf "pizza" "Main" = Some "pizza" /\
  keywordOf "" "Main" = Some "Main" /\
  keywordOf "" "" = None.
Proof. repeat split. Qed.

End SchedulerClaims.

(** * Further properties *)

(** ** ResultNormalizer *)

Module NormalizerMore.

Import Normalizer NormalizerFacts.

Lemma mapM_throws_inv {A B : Type} (f : A -> result B) (l : list A) (e : exn) :
  mapM f l = Throw e -> exists x, In x l /\ f x = Throw e.
Proof.
  induction l as [|x l IH]; simpl; [discriminate|].
  destruct (f x) as [y|e'] eqn:Hx; simpl.
  - destruct (mapM f l) as [ys|e'] eqn:Hl; simpl; [discriminate|].
    intros [= <-]. destruct (IH eq_refl) as (x' & Hin & Hx'). eauto.
  - intros [= <-]. eauto.
Qed.

(** X1.  The normalizer throws exactly when some record that passes the
    rating floor has no [geometry]; records below the floor may lack it. *)
Theorem normalize_throws_iff (results : list PlaceResult) :
  (exists e, normalize results = Throw e) <->
  (exists p, In p results /\ admitted p = true /\ geometry p = None).
Proof.
  split.
  - intros [e H]. apply mapM_throws_inv in H as (p & Hin & Hp).
    apply In_sorted in Hin as [Hin Hadm]. exists p. repeat split; auto.
    unfold mapPlace in Hp. destruct (geometry p); [discriminate | reflexivity].
  - intros (p & Hin & Hadm & Hgeo).
    apply (@mapM_throws _ _ mapPlace (sorted results) p TypeError).
    + apply In_sorted; auto.
    + unfold mapPlace. rewrite Hgeo. reflexivity.
Qed.

Lemma normalize_floor (results : list PlaceResult) (out : list Restaurant) :
  normalize results = Ok out ->
  Forall (fun r => exists q, r_rating r = Some q /\ (floor <= q)%Q) out.
Proof.
  intros H. apply mapM_Forall2 in H.
  assert (Forall (fun p => admitted p = true) (sorted results)) as Hadm.
  { apply Forall_forall. intros p Hp. apply In_sorted in Hp; tauto. }
  induction H as [|p r l out' Hpr _ IH]; constructor.
  - inversion Hadm; subst.
    rewrite (mapPlace_rating _ Hpr). apply admitted_spec; auto.
  - apply IH. inversion Hadm; auto.
Qed.

Lemma normalize_normalized (results : list PlaceResult) (out : list Restaurant) :
  normalize results = Ok out -> Invariants.normalized out.
Proof.
  intros H. split.
  - apply NormalizerClaims.Sorted_mapPlace with (l := sorted results).
    + apply mapM_Forall2; exact H.
    + apply sort_sorted.
  - apply normalize_floor with (results := results); exact H.
Qed.

Lemma r_desc_below (a : Restaurant) (l : list Restaurant) :
  Sorted r_desc (a :: l) -> Forall (fun x => (r_key x <= r_key a)%Q) l.
Proof.
  intros H. apply Sorted_StronglySorted in H.
  - inversion H; subst. assumption.
  - intros x y z Hxy Hyz. unfold r_desc in *. lra.
Qed.

Lemma In_skipn {A : Type} (n : nat) (l : list A) (x : A) :
  In x (skipn n l) -> In x l.
Proof.
  revert l; induction n as [|n IH]; intros [|y l] H; simpl in *; auto.
Qed.

(** In an array in descending order, whatever [slice(0, n)] keeps is
    rated at least as high as whatever it leaves out. *)
Lemma sorted_firstn_skipn (n : nat) (l : list Restaurant) :
  Sorted r_desc l ->
  forall a b, In a (firstn n l) -> In b (skipn n l) -> (r_key b <= r_key a)%Q.
Proof.
  revert l; induction n as [|n IH]; intros l S a b Ha Hb; [destruct Ha|].
  destruct l as [|x l]; [destruct Ha|]. simpl in Ha, Hb.
  destruct Ha as [<-|Ha].
  - pose proof (r_desc_below S) as B. rewrite Forall_forall in B.
    apply B. apply In_skipn with (n := n). exact Hb.
  - apply (IH l); auto. inversion S; auto.
Qed.

End NormalizerMore.

(** ** FilterPipeline *)

Module FilterMore.

Import FilterPipeline.

Lemma filterM_ok {A : Type} (f : A -> result bool) (l : list A) :
  Forall (fun x => exists b, f x = Ok b) l ->
  filterM f l
  = Ok (filter (fun x => match f x with Ok b => b | Throw _ => false end) l).
Proof.
  induction 1 as [|x l [b Hb] _ IH]; simpl; [reflexivity|].
  rewrite Hb, IH. simpl. reflexivity.
Qed.

Lemma filterM_throws {A : Type} (f : A -> result bool) (l : list A) :
  (exists e, filterM f l = Throw e) <-> (exists x e, In x l /\ f x = Throw e).
Proof.
  induction l as [|x l IH]; simpl.
  - split; [intros [e H]; discriminate | intros (x & e & [] & _)].
  - destruct (f x) as [b|e] eqn:Hx; simpl.
    + destruct (filterM f l) as [out|e] eqn:Hl; simpl.
      * split; [intros [e H]; discriminate|].
        intros (y & e & [<-|Hin] & Hy); [congruence|].
        destruct IH as [_ IH].
        destruct IH as [e' He']; [exists y, e; auto | discriminate].
      * split; [|intros _; exists e; reflexivity]. intros _.
        destruct IH as [IH _].
        destruct IH as (y & e' & Hin & Hy); [exists e; reflexivity|].
        exists y, e'; auto.
    + split; [|intros _; exists e; reflexivity].
      intros _. exists x, e; auto.
Qed.

Lemma displayed_named (f : DisplayFilters) (r : Restaurant) :
  (exists b, displayed f r = Ok b) <-> r_name r <> None.
Proof.
  unfold displayed, matchesSearch. destruct (r_name r); simpl; split;
    try congruence; eauto.
  - intros [b H]; discriminate.
Qed.

Lemma filteredRestaurants_throws (f : DisplayFilters) (rs : list Restaurant) :
  (exists e, filteredRestaurants f rs = Throw e) <->
  (exists r, In r rs /\ r_name r = None).
Proof.
  unfold filteredRestaurants. rewrite filterM_throws. split.
  - intros (r & e & Hin & Hr). exists r; split; auto.
    destruct (r_name r) eqn:N; auto.
    assert (r_name r <> None) as X by congruence.
    apply (displayed_named f) in X as [b Hb]. congruence.
  - intros (r & Hin & Hr). exists r, TypeError. split; auto.
    unfold displayed, matchesSearch. rewrite Hr. reflexivity.
Qed.

Lemma filteredRestaurants_ok (f : DisplayFilters) (rs : list Restaurant) :
  Forall (fun r => r_name r <> None) rs ->
  filteredRestaurants f rs
  = Ok (filter (fun r => match displayed f r with
                         | Ok b => b
                         | Throw _ => false
                         end) rs).
Proof.
  intros H. apply filterM_ok. eapply Forall_impl; [|exact H].
  intros r. apply displayed_named.
Qed.

(** X2.  The filter of [index.tsx] throws exactly when some restaurant
    of the working set has no name; otherwise it returns, in their
    order, the restaurants its callback accepts. *)
Theorem filteredRestaurants_total (f : DisplayFilters) (rs : list Restaurant) :
  ((exists e, filteredRestaurants f rs = Throw e) <->
   (exists r, In r rs /\ r_name r = None)) /\
  (Forall (fun r => r_name r <> None) rs ->
   filteredRestaurants f rs
   = Ok (filter (fun r => match displayed f r with
                          | Ok b => b
                          | Throw _ => false
                          end) rs)).
Proof.
  split; [apply filteredRestaurants_throws | apply filteredRestaurants_ok].
Qed.

Lemma filteredRestaurants_total_witness :
  filteredRestaurants Sample.fourStarPizza
    (map Sample.restaurantOf Sample.tied)
  = Ok (filter (fun r => match displayed Sample.fourStarPizza r with
                         | Ok b => b
                         | Throw _ => false
                         end) (map Sample.restaurantOf Sample.tied)).
Proof.
  apply (@filteredRestaurants_total Sample.fourStarPizza
           (map Sample.restaurantOf Sample.tied)).
  repeat constructor; discriminate.
Defined.

Lemma includes_empty (s : string) : Str.includes s "" = true.
Proof. destruct s; reflexivity. Qed.

Lemma filterM_all {A : Type} (f : A -> result bool) (l : list A) :
  Forall (fun x => f x = Ok true) l -> filterM f l = Ok l.
Proof.
  induction 1 as [|x l Hx _ IH]; simpl; [reflexivity|].
  rewrite Hx, IH. reflexivity.
Qed.

(** X3.  With no search term and no cuisine filter, a minimum rating of
    at most 3.5 hides nothing of a working set that passed the
    normalizer's floor, in [index.tsx] and in its siblings: the "Any
    rating" and "3+" choices show the same list. *)
Theorem low_minimum_shows_all (f : DisplayFilters) (rs : list Restaurant) :
  searchTerm f = "" -> cuisineFilter f = "" ->
  (minRating f <= Normalizer.floor)%Q ->
  Forall (fun r => r_name r <> None) rs ->
  Forall (fun r => exists q, r_rating r = Some q /\ (Normalizer.floor <= q)%Q) rs ->
  filteredRestaurants f rs = Ok rs /\ Sibling.filteredRestaurants f rs = Ok rs.
Proof.
  intros HT HC HM Hn Hr.
  assert (Forall (fun r => displayed f r = Ok true /\
                           Sibling.displayed f r = Ok true) rs) as H.
  { rewrite Forall_forall in *. intros r Hin.
    specialize (Hn r Hin). destruct (Hr r Hin) as (q & Hq & Hfl).
    unfold displayed, Sibling.displayed, matchesSearch, Sibling.matchesSearch,
      matchesCuisine, Sibling.matchesCuisine, matchesRating, Sibling.matchesRating.
    rewrite HT, HC, Hq. destruct (r_name r) as [n|]; [|congruence]. simpl.
    rewrite includes_empty. simpl.
    assert (Qle_bool (minRating f) q = true) as ->
      by (apply Qle_bool_iff; lra).
    assert (Qeq_bool q 0 = false) as ->.
    { destruct (Qeq_bool q 0) eqn:E; auto. apply Qeq_bool_iff in E.
      unfold Normalizer.floor in Hfl. lra. }
    split; reflexivity. }
  split; apply filterM_all; eapply Forall_impl; try exact H; cbn; tauto.
Qed.

Lemma low_minimum_shows_all_witness :
  filteredRestaurants Sample.anyRating [Sample.restaurantOf Sample.pizzaPlace]
  = Ok [Sample.restaurantOf Sample.pizzaPlace] /\
  Sibling.filteredRestaurants Sample.anyRating [Sample.restaurantOf Sample.pizzaPlace]
  = Ok [Sample.restaurantOf Sample.pizzaPlace].
Proof.
  apply (@low_minimum_shows_all Sample.anyRating
           [Sample.restaurantOf Sample.pizzaPlace]).
  - reflexivity.
  - reflexivity.
  - vm_compute. discriminate.
  - repeat constructor; discriminate.
  - repeat constructor. exists (21 # 5)%Q. split; [reflexivity|].
    vm_compute. discriminate.
Defined.

(** X4.  Raising the minimum rating only removes rows: with the same
    search term and cuisine filter, whatever is displayed under the
    higher minimum is displayed under the lower one. *)
Theorem raising_minimum_only_removes (f1 f2 : DisplayFilters) (r : Restaurant) :
  searchTerm f1 = searchTerm f2 -> cuisineFilter f1 = cuisineFilter f2 ->
  (minRating f1 <= minRating f2)%Q ->
  (displayed f2 r = Ok true -> displayed f1 r = Ok true) /\
  (Sibling.displayed f2 r = Ok true -> Sibling.displayed f1 r = Ok true).
Proof.
  intros HT HC HM.
  unfold displayed, Sibling.displayed, matchesSearch, Sibling.matchesSearch,
    matchesCuisine, Sibling.matchesCuisine, matchesRating, Sibling.matchesRating.
  rewrite HT, HC. destruct (r_name r) as [n|]; simpl; [|split; discriminate].
  assert (forall q, Qle_bool (minRating f2) q = true ->
                    Qle_bool (minRating f1) q = true) as Hq.
  { intros q H. apply Qle_bool_iff in H. apply Qle_bool_iff. lra. }
  split; intros [= H]; f_equal;
    apply andb_true_iff in H as [H1 H2]; rewrite H1; simpl.
  - destruct (r_rating r) as [q|]; [apply Hq; exact H2 | discriminate].
  - destruct (Normalizer.truthy (r_rating r)); [|discriminate].
    destruct (r_rating r) as [q|]; [apply Hq; exact H2 | discriminate].
Qed.

Lemma raising_minimum_only_removes_witness :
  (displayed Sample.fourStarPizza (Sample.restaurantOf Sample.pizzaPlace) = Ok true ->
   displayed {| searchTerm := ""; cuisineFilter := "pizza"; minRating := 3 |}
     (Sample.restaurantOf Sample.pizzaPlace) = Ok true) /\
  (Sibling.displayed Sample.fourStarPizza (Sample.restaurantOf Sample.pizzaPlace)
   = Ok true ->
   Sibling.displayed {| searchTerm := ""; cuisineFilter := "pizza"; minRating := 3 |}
     (Sample.restaurantOf Sample.pizzaPlace) = Ok true).
Proof.
  apply (@raising_minimum_only_removes
           {| searchTerm := ""; cuisineFilter := "pizza"; minRating := 3 |}
           Sample.fourStarPizza).
  - reflexivity.
  - reflexivity.
  - vm_compute. discriminate.
Defined.

Lemma nonEmpty_toLowerCase (s : string) :
  Str.nonEmpty (Str.toLowerCase s) = Str.nonEmpty s.
Proof. destruct s; reflexivity. Qed.

(** X5.  For ASCII strings, the search term and the cuisine filter
    count only up to the case of their letters: two filter states of
    ASCII strings whose terms and cuisine filters have the same
    lower-case form, and the same minimum rating, accept the same
    restaurants (of ASCII name, address and types). *)
Theorem filters_ignore_case (f f' : DisplayFilters) (r : Restaurant) :
  asciiFilters f = true -> asciiFilters f' = true ->
  asciiFields r = true ->
  Str.toLowerCase (searchTerm f)
  = Str.toLowerCase (searchTerm f') ->
  Str.toLowerCase (cuisineFilter f)
  = Str.toLowerCase (cuisineFilter f') ->
  minRating f = minRating f' ->
  displayed f r = displayed f' r /\
  Sibling.displayed f r = Sibling.displayed f' r.
Proof.
  intros _ _ _ HT HC HM.
  assert (Str.nonEmpty (cuisineFilter f)
          = Str.nonEmpty (cuisineFilter f')) as HN.
  { rewrite <- (nonEmpty_toLowerCase (cuisineFilter f)), HC.
    apply nonEmpty_toLowerCase. }
  unfold displayed, Sibling.displayed,
    matchesSearch, Sibling.matchesSearch,
    matchesCuisine, Sibling.matchesCuisine,
    matchesRating, Sibling.matchesRating.
  rewrite HT, HC, HM, HN. split; reflexivity.
Qed.

Lemma filters_ignore_case_witness :
  displayed {| searchTerm := "MAIN"; cuisineFilter := "Pizza"; minRating := 4 |}
    (Sample.restaurantOf Sample.pizzaPlace)
  = displayed {| searchTerm := "main"; cuisineFilter := "pizza"; minRating := 4 |}
      (Sample.restaurantOf Sample.pizzaPlace) /\
  Sibling.displayed {| searchTerm := "MAIN"; cuisineFilter := "Pizza"; minRating := 4 |}
    (Sample.restaurantOf Sample.pizzaPlace)
  = Sibling.displayed {| searchTerm := "main"; cuisineFilter := "pizza"; minRating := 4 |}
      (Sample.restaurantOf Sample.pizzaPlace).
Proof.
  apply (@filters_ignore_case
           {| searchTerm := "MAIN"; cuisineFilter := "Pizza"; minRating := 4 |}
           {| searchTerm := "main"; cuisineFilter := "pizza"; minRating := 4 |});
    reflexivity.
Defined.

End FilterMore.

(** ** MarkerSynchronizer: the markers held *)

Module MarkerMore.

Import Markers MarkerFacts.

Lemma deref_fresh (pre ms : list Marker) :
  Display.deref (pre ++ ms) (seq (List.length pre) (List.length ms)) = ms.
Proof.
  revert pre; induction ms as [|m ms IH]; intros pre; simpl; [reflexivity|].
  rewrite nth_error_app2 by lia. rewrite Nat.sub_diag. simpl.
  f_equal. specialize (IH (pre ++ [m])).
  rewrite <- app_assoc, length_app in IH. simpl in IH.
  rewrite Nat.add_1_r in IH. exact IH.
Qed.

Lemma current_updateMarkers (rs : list Restaurant) (st : Store) :
  Display.current (updateMarkers rs st) = map newMarker rs.
Proof.
  unfold Display.current. rewrite updateMarkers_handles.
  unfold updateMarkers. destruct (create_all rs (clear st)) as [-> _].
  replace (List.length (heap st)) with (List.length (heap (clear st)))
    by (simpl; apply release_all_length).
  rewrite <- (length_map newMarker rs). apply deref_fresh.
Qed.

End MarkerMore.

(** ** The rows of the list *)

Module DisplayMore.

Import Display.

Lemma replaceUnderscores_length (s : string) :
  String.length (replaceUnderscores s) = String.length s.
Proof. induction s as [|c s IH]; simpl; congruence. Qed.

Lemma replaceUnderscores_clean (s : string) :
  ~ In "_"%char (list_ascii_of_string (replaceUnderscores s)).
Proof.
  induction s as [|c s IH]; simpl; [tauto|].
  intros [H|H]; [|tauto].
  destruct (Ascii.eqb c "_") eqn:E; [discriminate|].
  apply Ascii.eqb_neq in E. congruence.
Qed.

Lemma replaceUnderscores_get (t : string) (k : nat) :
  String.get k (replaceUnderscores t)
  = option_map (fun c => if Ascii.eqb c "_" then " "%char else c) (String.get k t).
Proof.
  revert k; induction t as [|c t IH]; intros k; simpl; [reflexivity|].
  destruct k; simpl; auto.
Qed.

(** X6.  Under a row the types of the restaurant are shown as tags, at
    most three and in their order: the tag at a position is the type at
    that position with every underscore replaced by a blank and every
    other character kept, so it has the length of the type and holds no
    underscore. *)
Theorem typeLabels_spec (r : Restaurant) (ts : list string) :
  r_types r = Some ts ->
  List.length (typeLabels r) = Nat.min 3 (List.length ts) /\
  forall i t, (i < 3)%nat -> nth_error ts i = Some t ->
    exists l,
      nth_error (typeLabels r) i = Some l /\
      String.length l = String.length t /\
      (forall k c, String.get k t = Some c ->
         String.get k l = Some (if Ascii.eqb c "_" then " "%char else c)) /\
      ~ In "_"%char (list_ascii_of_string l).
Proof.
  intros H. unfold typeLabels. rewrite H. split.
  - rewrite length_map, length_firstn. reflexivity.
  - intros i t Hi Ht. exists (replaceUnderscores t).
    split; [|split; [|split]].
    + rewrite nth_error_map, nth_error_firstn.
      destruct (Nat.ltb_spec i 3); [|lia]. rewrite Ht. reflexivity.
    + apply replaceUnderscores_length.
    + intros k c Hk. rewrite replaceUnderscores_get, Hk. reflexivity.
    + apply replaceUnderscores_clean.
Qed.

Lemma typeLabels_spec_witness :
  List.length (typeLabels (Sample.restaurantOf Sample.takeaway))
  = Nat.min 3 (List.length ["meal_takeaway"; "restaurant"; "point_of_interest"; "food"]) /\
  forall i t, (i < 3)%nat ->
    nth_error ["meal_takeaway"; "restaurant"; "point_of_interest"; "food"] i = Some t ->
    exists l,
      nth_error (typeLabels (Sample.restaurantOf Sample.takeaway)) i = Some l /\
      String.length l = String.length t /\
      (forall k c, String.get k t = Some c ->
         String.get k l = Some (if Ascii.eqb c "_" then " "%char else c)) /\
      ~ In "_"%char (list_ascii_of_string l).
Proof.
  apply (@typeLabels_spec (Sample.restaurantOf Sample.takeaway)
           ["meal_takeaway"; "restaurant"; "point_of_interest"; "food"]).
  reflexivity.
Defined.

Example typeLabels_takeaway :
  typeLabels (Sample.restaurantOf Sample.takeaway)
  = ["meal takeaway"; "restaurant"; "point of interest"].
Proof. reflexivity. Qed.

End DisplayMore.

(** ** The first version of the component *)

Module FirstVersionMore.

Import Normalizer NormalizerFacts FirstVersion.

Lemma desc_trans (a b c : PlaceResult) : desc a b -> desc b c -> desc a c.
Proof. unfold desc. intros; lra. Qed.

Lemma StronglySorted_filter {A : Type} (R : A -> A -> Prop) (p : A -> bool)
    (l : list A) :
  StronglySorted R l -> StronglySorted R (filter p l).
Proof.
  induction 1 as [|x l Hl IH Hx]; simpl; [constructor|].
  destruct (p x); auto. constructor; auto.
  rewrite Forall_forall in *. intros y Hy. apply filter_In in Hy as [Hy _]. auto.
Qed.

Lemma Sorted_filter_desc (p : PlaceResult -> bool) (l : list PlaceResult) :
  Sorted desc l -> Sorted desc (filter p l).
Proof.
  intros H. apply StronglySorted_Sorted, StronglySorted_filter.
  apply Sorted_StronglySorted; auto. intros a b c. apply desc_trans.
Qed.

(** X7.  The first version of the component drops no result: what it
    keeps is a permutation of what the provider sent, in descending
    order of rating with an unrated record counted as 0 and records of
    the same rating in the provider's order.  What it lists
    for a type filter is still in that order; with an empty filter it is
    the whole list, and with a non-empty one exactly the records one of
    whose types contains the filter in lower case, so a record without
    types is not listed. *)
Theorem first_version_lists (filter : string) (results : list PlaceResult) :
  Permutation (sorted results) results /\
  (forall q, List.filter (ratingIs q) (sorted results)
             = List.filter (ratingIs q) results) /\
  Sorted desc (shown filter (sorted results)) /\
  (Str.nonEmpty filter = false -> shown filter (sorted results) = sorted results) /\
  (Str.nonEmpty filter = true ->
   forall r, In r (shown filter (sorted results)) <->
             In r results /\
             exists ts t, types r = Some ts /\ In t ts /\
                          Str.includes t (Str.toLowerCase filter) = true).
Proof.
  unfold shown, sorted, filteredRestaurants.
  pose proof (sort_perm results) as HP.
  pose proof (@sort_sorted results) as HS.
  split; [exact HP|]. split; [intros q; apply filter_sort|].
  split; [|split].
  - destruct (Str.nonEmpty filter); auto. apply Sorted_filter_desc; auto.
  - intros ->; reflexivity.
  - intros -> r. rewrite filter_In. unfold matchesFilter, FilterPipeline.some.
    split.
    + intros [Hin Hm]. split.
      * eapply Permutation_in; [exact HP | exact Hin].
      * destruct (types r) as [ts|]; [|discriminate].
        apply existsb_exists in Hm as (t & Ht & Hi). eauto.
    + intros (Hin & ts & t & Hts & Ht & Hi). split.
      * eapply Permutation_in; [apply Permutation_sym; exact HP | exact Hin].
      * rewrite Hts. apply existsb_exists. eauto.
Qed.

Lemma first_version_lists_witness :
  shown "" (sorted Sample.tied) = sorted Sample.tied.
Proof.
  apply (@first_version_lists "" Sample.tied). reflexivity.
Defined.

End FirstVersionMore.

(** ** The component between two events, continued *)

Module SchedulerMore.

Import Gateway Scheduler SchedulerFacts Invariants.

(** *** Proving that a property holds in every reachable state *)

Section Preservation.

Variable P : State -> Prop.
Hypothesis P_dispatch : forall e s, P s -> P (dispatch e s).
Hypothesis P_fire : forall t s, In t (timers (host s)) -> P s -> P (fire t s).
Hypothesis P_clock :
  forall T s, P s -> P (with_host (fun h => host_now (Z.max (now h) T) h) s).

Lemma preserved_advanceFuel (n : nat) (T : Z) (s : State) :
  P s -> P (advanceFuel n T s).
Proof.
  revert s; induction n as [|n IH]; intros s H; simpl; auto.
  destruct (nextDue T s) as [t|] eqn:E; auto.
  apply IH, P_fire; auto. apply (nextDue_spec _ _ E).
Qed.

Lemma preserved_advance (T : Z) (s : State) : P s -> P (advance T s).
Proof. intros H. apply P_clock, preserved_advanceFuel, H. Qed.

Lemma preserved_step (te : Z * Event) (s : State) : P s -> P (step te s).
Proof. intros H. apply P_dispatch, preserved_advance, H. Qed.

Lemma preserved_run (evs : list (Z * Event)) (s : State) : P s -> P (run evs s).
Proof.
  revert s; induction evs as [|te evs IH]; intros s H; simpl; auto.
  apply IH, preserved_step, H.
Qed.

Lemma preserved_reachable (s : State) : P init -> reachable s -> P s.
Proof.
  intros H0. induction 1.
  - exact H0.
  - apply preserved_step; auto.
  - apply preserved_advance; auto.
Qed.

End Preservation.

(** *** What a timer leaves alone *)

Lemma fire_restaurants (t : Timer) (s : State) :
  restaurants (ui (fire t s)) = restaurants (ui s).
Proof.
  unfold fire. rewrite flush_ui. destruct (action t); cases; reflexivity.
Qed.

Lemma fire_markers (t : Timer) (s : State) :
  markers (refs (fire t s)) = markers (refs s).
Proof.
  unfold fire. rewrite flush_markers. destruct (action t); cases; reflexivity.
Qed.

Lemma fire_mapInstance (t : Timer) (s : State) :
  mapInstance (ui (fire t s)) = mapInstance (ui s).
Proof.
  unfold fire. rewrite flush_ui. destruct (action t); cases; reflexivity.
Qed.

(** *** The working set and its markers *)

(** An event either leaves the working set and the markers alone or
    replaces the working set by a normalized list and synchronizes the
    markers with it. *)
Lemma normalized_nil : normalized [].
Proof. split; constructor. Qed.

Lemma handle_working_set (e : Event) (s : State) :
  (mapInstance (ui s) = None -> inflight (host s) = []) ->
  (restaurants (ui (handle e s)) = restaurants (ui s) /\
   markers (refs (handle e s)) = markers (refs s)) \/
  (exists rs, normalized rs /\ mapInstance (ui s) <> None /\
     restaurants (ui (handle e s)) = rs /\
     markers (refs (handle e s)) = Markers.updateMarkers rs (markers (refs s))).
Proof.
  intros HM.
  destruct e; try (left; cases; split; reflexivity).
  cbn [handle]. destruct (findCall id s) as [c|] eqn:F; [|left; auto].
  assert (mapInstance (ui s) <> None) as HI.
  { intros E. apply findCall_spec in F as [Hin _].
    rewrite (HM E) in Hin. destruct Hin. }
  unfold onInitialResponse, onSearchResponse.
  destruct (call_origin c), status, results as [rs|];
    try destruct (Normalizer.normalize rs) as [out|] eqn:N;
    try (left; split; reflexivity);
    right; eexists; (split; [|split; [exact HI | split; reflexivity]]);
    first [ apply normalized_nil
          | eapply NormalizerMore.normalize_normalized; exact N ].
Qed.

Lemma flush_inflight (s : State) : inflight (host (flush s)) = inflight (host s).
Proof. unfold flush, autocompleteEffect, idleEffect. cases; reflexivity. Qed.

Lemma handle_mapInstance (e : Event) (s : State) :
  mapInstance (ui s) <> None -> mapInstance (ui (handle e s)) <> None.
Proof. intros H. destruct e; cases; congruence. Qed.

(** Before the map exists no gateway call was made and the working set
    is empty. *)
Lemma nomap_handle (e : Event) (s : State) :
  mapped s ->
  (mapInstance (ui s) = None -> inflight (host s) = [] /\ restaurants (ui s) = []) ->
  mapInstance (ui (handle e s)) = None ->
  inflight (host (handle e s)) = [] /\ restaurants (ui (handle e s)) = [].
Proof.
  intros M H E.
  destruct (mapInstance (ui s)) as [h|] eqn:N.
  { exfalso. apply (@handle_mapInstance e s); congruence. }
  destruct (H eq_refl) as [H1 H2]. unfold mapped in M. rewrite N in M.
  destruct M as (M1 & M2 & M3 & M4 & M5 & M6).
  destruct e; try (cases; rewrite ?N, ?M3, ?H1 in *; cbn in *;
                   solve [auto | discriminate]).
  all: cbn [handle] in *;
    first [ unfold findCall; rewrite H1 | rewrite M2 | rewrite M3 ]; cbn; auto.
Qed.

Lemma working_set_invariant (s : State) :
  reachable s ->
  normalized (restaurants (ui s)) /\
  inSync s /\
  Markers.tracked (markers (refs s)) /\
  Markers.live (markers (refs s)) = List.length (restaurants (ui s)) /\
  mapped s /\
  (mapInstance (ui s) = None ->
   inflight (host s) = [] /\ restaurants (ui s) = []).
Proof.
  apply (@preserved_reachable (fun s =>
    normalized (restaurants (ui s)) /\
    inSync s /\
    Markers.tracked (markers (refs s)) /\
    Markers.live (markers (refs s)) = List.length (restaurants (ui s)) /\
    mapped s /\
    (mapInstance (ui s) = None ->
     inflight (host s) = [] /\ restaurants (ui s) = []))).
  - intros e s0 (N & Y & K & L & M & U). unfold dispatch, inSync.
    rewrite flush_ui, flush_markers, flush_inflight.
    split; [|split; [|split; [|split; [|split]]]].
    + destruct (@handle_working_set e s0) as [[-> _]|(rs & Hn & _ & -> & _)]; auto.
      intros E; apply U, E.
    + destruct (@handle_working_set e s0) as [[-> ->]|(rs & _ & _ & -> & ->)];
        [intros E; apply U, E | exact Y | apply MarkerMore.current_updateMarkers].
    + rewrite <- flush_markers. apply tracked_flush, tracked_handle, K.
    + destruct (@handle_working_set e s0) as [[-> ->]|(rs & _ & _ & -> & ->)];
        [intros E; apply U, E | exact L | apply MarkerFacts.updateMarkers_live, K].
    + apply mapped_flush, mapped_handle, M.
    + apply nomap_handle; auto.
  - intros t s0 Hin (N & Y & K & L & M & U). unfold inSync.
    rewrite fire_restaurants, fire_markers, fire_mapInstance.
    repeat (split; [assumption|]). split; [apply mapped_fire; auto|].
    intros E. unfold mapped in M. rewrite E in M.
    destruct M as (_ & _ & _ & M4 & _). rewrite M4 in Hin. destruct Hin.
  - intros T s0 H. exact H.
  - unfold inSync. cbn. repeat split; try constructor; try discriminate.
    intros [|h] m H; discriminate.
Qed.

(** X8.  In every reachable state the working set is what the
    normalizer lets through: every restaurant in it is rated at least
    3.5 and the list is in descending order of rating.  The list under
    the map has at most 15 rows, and no restaurant left out of it is
    rated above one that is shown. *)
Theorem list_shows_best_rated (s : State) :
  reachable s ->
  Forall (fun r => exists q, r_rating r = Some q /\ (Normalizer.floor <= q)%Q)
         (restaurants (ui s)) /\
  Sorted Normalizer.r_desc (restaurants (ui s)) /\
  (List.length (Display.rows (ui s)) <= 15)%nat /\
  (forall a b, In a (Display.rows (ui s)) ->
               In b (skipn 15 (restaurants (ui s))) ->
               (Normalizer.r_key b <= Normalizer.r_key a)%Q).
Proof.
  intros R. destruct (working_set_invariant R) as ([HS HF] & _).
  split; [exact HF|]. split; [exact HS|]. split.
  - unfold Display.rows. rewrite length_firstn. lia.
  - intros a b. apply NormalizerMore.sorted_firstn_skipn. exact HS.
Qed.

Lemma list_shows_best_rated_witness :
  Forall (fun r => exists q, r_rating r = Some q /\ (Normalizer.floor <= q)%Q)
         (restaurants (ui Traces.loaded)) /\
  Sorted Normalizer.r_desc (restaurants (ui Traces.loaded)) /\
  (List.length (Display.rows (ui Traces.loaded)) <= 15)%nat /\
  (forall a b, In a (Display.rows (ui Traces.loaded)) ->
               In b (skipn 15 (restaurants (ui Traces.loaded))) ->
               (Normalizer.r_key b <= Normalizer.r_key a)%Q).
Proof.
  apply (@list_shows_best_rated Traces.loaded).
  unfold Traces.loaded. apply reachable_run, reach_init.
Defined.

Lemma reachable_userPin (s : State) :
  reachable s -> (userPin (host s) = None <-> mapInstance (ui s) = None).
Proof.
  apply (@preserved_reachable
           (fun s => userPin (host s) = None <-> mapInstance (ui s) = None)).
  - intros e s0 H. unfold dispatch. rewrite flush_ui.
    assert (userPin (host (flush (handle e s0))) = userPin (host (handle e s0))) as ->
      by (unfold flush, autocompleteEffect, idleEffect; cases; reflexivity).
    destruct e; cases;
      first [ assumption | split; discriminate | intuition congruence ].
  - intros t s0 _ H. rewrite fire_mapInstance.
    assert (userPin (host (fire t s0)) = userPin (host s0)) as ->; [|exact H].
    unfold fire.
    assert (forall x, userPin (host (flush x)) = userPin (host x)) as ->
      by (intros x; unfold flush, autocompleteEffect, idleEffect; cases; reflexivity).
    destruct (action t); cases; reflexivity.
  - intros T s0 H. exact H.
  - cbn. tauto.
Qed.

(** X9.  In every reachable state the markers the component holds are
    those of the working set, one for each restaurant and in the same
    order, also for the restaurants beyond the fifteenth row.  The
    markers on the map are these and, once the map exists, the 'Your
    Location' marker, which is never removed.  The popup of a marker of
    the working set shows a rating of at least 3.5, never the 'N/A' of
    an unrated restaurant. *)
Theorem markers_follow_working_set (s : State) :
  reachable s ->
  Display.current (markers (refs s))
  = map Markers.newMarker (restaurants (ui s)) /\
  Markers.live (markers (refs s)) = List.length (restaurants (ui s)) /\
  markersOnMap s
  = (List.length (restaurants (ui s))
     + match mapInstance (ui s) with Some _ => 1 | None => 0 end)%nat /\
  (forall m, In m (Display.current (markers (refs s))) ->
     Display.p_name (Display.popupOf m) = Markers.mk_title m /\
     exists q, Display.p_rating (Display.popupOf m) = Some q /\
               (Normalizer.floor <= q)%Q).
Proof.
  intros R. destruct (working_set_invariant R) as ([_ HF] & Y & _ & L & _).
  split; [exact Y|]. split; [exact L|]. split.
  - unfold markersOnMap. rewrite L. f_equal.
    pose proof (reachable_userPin R) as [P1 P2].
    destruct (userPin (host s)), (mapInstance (ui s)); auto.
    + specialize (P2 eq_refl). discriminate.
    + specialize (P1 eq_refl). discriminate.
  - intros m Hm. rewrite Y in Hm. apply in_map_iff in Hm as (r & <- & Hr).
    split; [reflexivity|].
    rewrite Forall_forall in HF. destruct (HF r Hr) as (q & Hq & Hle).
    exists q. split; auto.
    unfold Display.popupOf, Normalizer.truthy. cbn. rewrite Hq.
    destruct (Qeq_bool q 0) eqn:E; auto.
    apply Qeq_bool_iff in E. unfold Normalizer.floor in Hle. lra.
Qed.

Lemma markers_follow_working_set_witness :
  Display.current (markers (refs Traces.answered))
  = map Markers.newMarker (restaurants (ui Traces.answered)) /\
  Markers.live (markers (refs Traces.answered))
  = List.length (restaurants (ui Traces.answered)) /\
  markersOnMap Traces.answered
  = (List.length (restaurants (ui Traces.answered))
     + match mapInstance (ui Traces.answered) with Some _ => 1 | None => 0 end)%nat /\
  (forall m, In m (Display.current (markers (refs Traces.answered))) ->
     Display.p_name (Display.popupOf m) = Markers.mk_title m /\
     exists q, Display.p_rating (Display.popupOf m) = Some q /\
               (Normalizer.floor <= q)%Q).
Proof.
  assert (reachable Traces.answered) as R.
  { unfold Traces.answered, Traces.searching, Traces.loaded.
    do 3 apply reachable_run. apply reach_init. }
  exact (@markers_follow_working_set Traces.answered R).
Defined.

(** After the answer the map holds the marker of the one restaurant and
    the 'Your Location' marker. *)
Example two_markers_on_map : markersOnMap Traces.answered = 2%nat.
Proof. vm_compute. reflexivity. Qed.

(** *** What is rendered *)

Lemma oneMessage_handle (e : Event) (s : State) :
  oneMessage s -> oneMessage (handle e s).
Proof.
  unfold oneMessage. intros [HL HE].
  destruct e; cases;
    (split;
     [ let L := fresh "L" in intros L; try discriminate L; auto
     | let m := fresh "m" in
       let E := fresh "E" in
       intros m E;
       first [ discriminate E | injection E as <-; reflexivity | eauto ] ]).
Qed.

Lemma oneMessage_fire (t : Timer) (s : State) :
  oneMessage s -> oneMessage (fire t s).
Proof.
  unfold oneMessage, fire. rewrite flush_ui. intros [HL HE].
  destruct (action t); cases;
    (split;
     [ let L := fresh "L" in intros L; try discriminate L; auto
     | let m := fresh "m" in
       let E := fresh "E" in
       intros m E;
       first [ discriminate E | injection E as <-; reflexivity | eauto ] ]).
Qed.

Lemma reachable_oneMessage (s : State) : reachable s -> oneMessage s.
Proof.
  apply (@preserved_reachable oneMessage).
  - intros e s0 H. unfold dispatch, oneMessage. rewrite flush_ui.
    apply oneMessage_handle, H.
  - intros t s0 _. apply oneMessage_fire.
  - intros T s0 H. exact H.
  - split; [reflexivity | discriminate].
Qed.

Lemma render_total (u : UI) :
  ((exists e, Display.render u = Throw e) <->
   (exists r, In r (restaurants u) /\ r_name r = None)) /\
  (forall ps, Display.render u = Ok ps -> ps = Display.view u) /\
  (Forall (fun r => r_name r <> None) (restaurants u) ->
   Display.render u = Ok (Display.view u)).
Proof.
  pose proof (FilterMore.filteredRestaurants_throws (Display.filtersOf u)
                (restaurants u)) as HT.
  pose proof (@FilterMore.filteredRestaurants_ok (Display.filtersOf u)
                (restaurants u)) as HO.
  unfold Display.render.
  split; [|split].
  - rewrite <- HT.
    destruct (FilterPipeline.filteredRestaurants _ _); simpl;
      split; intros [e' H]; try discriminate; eauto.
  - intros ps. destruct (FilterPipeline.filteredRestaurants _ _); simpl;
      congruence.
  - intros H. rewrite (HO H). reflexivity.
Qed.

Lemma view_one_block (s : State) :
  oneMessage s ->
  (loading (ui s) = true /\ Display.view (ui s) = [Display.Spinner]) \/
  (loading (ui s) = false /\
   exists m, error (ui s) = Some m /\ Display.view (ui s) = [Display.ErrorBanner m]) \/
  (loading (ui s) = false /\ error (ui s) = None /\
   restaurants (ui s) = [] /\ Display.view (ui s) = [Display.EmptyState]) \/
  (loading (ui s) = false /\ error (ui s) = None /\
   restaurants (ui s) <> [] /\
   Display.view (ui s) = [Display.ResultList (firstn 15 (restaurants (ui s)))]).
Proof.
  intros [HL HE].
  unfold Display.view, Display.errorText, Display.rows.
  destruct (loading (ui s)) eqn:L.
  - left. rewrite (HL eq_refl). destruct (restaurants (ui s)); auto.
  - right. destruct (error (ui s)) as [m|] eqn:E.
    + left. rewrite (HE m eq_refl). split; auto. exists m.
      destruct (restaurants (ui s)); auto.
    + right. destruct (restaurants (ui s)) as [|r rs] eqn:RS.
      * left. auto.
      * right. repeat split; auto. discriminate.
Qed.

(** X10.  A render of a reachable state throws exactly when a
    restaurant of the working set has no name.  Otherwise it shows one
    block under the map: the spinner while loading, else the error
    banner when an error is set, else the list of the first 15
    restaurants of the working set, or the empty-state text when the
    working set is empty. *)
Theorem render_one_block (s : State) :
  reachable s ->
  ((exists e, Display.render (ui s) = Throw e) <->
   (exists r, In r (restaurants (ui s)) /\ r_name r = None)) /\
  (forall ps, Display.render (ui s) = Ok ps ->
     (loading (ui s) = true /\ ps = [Display.Spinner]) \/
     (loading (ui s) = false /\
      exists m, error (ui s) = Some m /\ ps = [Display.ErrorBanner m]) \/
     (loading (ui s) = false /\ error (ui s) = None /\
      restaurants (ui s) = [] /\ ps = [Display.EmptyState]) \/
     (loading (ui s) = false /\ error (ui s) = None /\
      restaurants (ui s) <> [] /\
      ps = [Display.ResultList (firstn 15 (restaurants (ui s)))])).
Proof.
  intros R. destruct (render_total (ui s)) as (HT & HO & _).
  split; [exact HT|]. intros ps Hps. rewrite (HO ps Hps).
  apply view_one_block, reachable_oneMessage, R.
Qed.

Lemma render_one_block_witness :
  ((exists e, Display.render (ui Traces.loaded) = Throw e) <->
   (exists r, In r (restaurants (ui Traces.loaded)) /\ r_name r = None)) /\
  (forall ps, Display.render (ui Traces.loaded) = Ok ps ->
     (loading (ui Traces.loaded) = true /\ ps = [Display.Spinner]) \/
     (loading (ui Traces.loaded) = false /\
      exists m, error (ui Traces.loaded) = Some m /\ ps = [Display.ErrorBanner m]) \/
     (loading (ui Traces.loaded) = false /\ error (ui Traces.loaded) = None /\
      restaurants (ui Traces.loaded) = [] /\ ps = [Display.EmptyState]) \/
     (loading (ui Traces.loaded) = false /\ error (ui Traces.loaded) = None /\
      restaurants (ui Traces.loaded) <> [] /\
      ps = [Display.ResultList (firstn 15 (restaurants (ui Traces.loaded)))])).
Proof.
  apply (@render_one_block Traces.loaded).
  unfold Traces.loaded. apply reachable_run, reach_init.
Defined.

(** *** A click on a row *)

Lemma find_newMarker (name : option string) (rs : list Restaurant) :
  find (Display.titleIs name) (map Markers.newMarker rs)
  = option_map Markers.newMarker
      (find (fun r' => option_string_eqb (r_name r') name) rs).
Proof.
  induction rs as [|r rs IH]; simpl; [reflexivity|].
  unfold Display.titleIs at 1. cbn [Markers.newMarker Markers.mk_title].
  destruct (option_string_eqb (r_name r) name); auto.
Qed.

Lemma find_first {A : Type} (p : A -> bool) (l : list A) (x : A) :
  In x l -> p x = true -> exists y, find p l = Some y.
Proof.
  induction l as [|a l IH]; simpl; [tauto|].
  intros [->|Hin] Hp.
  - rewrite Hp. eauto.
  - destruct (p a); eauto.
Qed.

Lemma option_string_eqb_eq (a b : option string) :
  option_string_eqb a b = true -> a = b.
Proof.
  destruct a, b; simpl; try discriminate; auto.
  intros H. apply String.eqb_eq in H. congruence.
Qed.

(** X11.  A click on a row that is shown triggers the click of a marker
    the component holds: the marker of the first restaurant of the
    working set that has the name of the row's restaurant.  It is the
    row's own marker when no other restaurant of the working set has
    that name; of two restaurants with one name, the click on either
    row opens the popup of the one that comes first. *)
Theorem row_click_opens_first_namesake (s : State) (rws : list Restaurant)
    (r : Restaurant) :
  reachable s ->
  Display.render (ui s) = Ok [Display.ResultList rws] -> In r rws ->
  exists r',
    find (Display.sameName r) (restaurants (ui s)) = Some r' /\
    r_name r' = r_name r /\
    Display.clickRow r s = Some (Markers.newMarker r') /\
    ((forall x, In x (restaurants (ui s)) -> r_name x = r_name r -> x = r) ->
     r' = r).
Proof.
  intros R Hps Hr.
  destruct (render_total (ui s)) as (_ & HO & _).
  apply HO in Hps.
  destruct (working_set_invariant R) as (_ & Y & _ & _ & _ & U).
  assert (rws = firstn 15 (restaurants (ui s)) /\ restaurants (ui s) <> [])
    as [-> Hne].
  { destruct (view_one_block (reachable_oneMessage R))
      as [[_ V]|[(_ & m & _ & V)|[(_ & _ & _ & V)|(_ & _ & Hne & V)]]];
      rewrite V in Hps; try discriminate Hps.
    split; [congruence | exact Hne]. }
  assert (In r (restaurants (ui s))) as Hin.
  { rewrite <- (firstn_skipn 15 (restaurants (ui s))).
    apply in_or_app; left; exact Hr. }
  destruct (@find_first _ (Display.sameName r) (restaurants (ui s)) r Hin)
    as [r' Hf].
  { unfold Display.sameName. destruct (r_name r); simpl; auto.
    apply String.eqb_refl. }
  pose proof (find_some _ _ Hf) as [Hin' Hsame].
  apply option_string_eqb_eq in Hsame.
  exists r'. split; [exact Hf|]. split; [exact Hsame|]. split.
  - unfold Display.clickRow, Display.findMarker. unfold inSync in Y. rewrite Y.
    rewrite find_newMarker.
    change (fun r' : Restaurant => option_string_eqb (r_name r') (r_name r))
      with (Display.sameName r).
    rewrite Hf. simpl.
    destruct (mapInstance (ui s)) eqn:M; auto.
    destruct (U eq_refl) as [_ E]. congruence.
  - intros Huniq. apply Huniq; auto.
Qed.

Lemma row_click_opens_first_namesake_witness :
  exists r',
    find (Display.sameName (Sample.restaurantOf Sample.pizzaPlace))
      (restaurants (ui Traces.loaded)) = Some r' /\
    r_name r' = r_name (Sample.restaurantOf Sample.pizzaPlace) /\
    Display.clickRow (Sample.restaurantOf Sample.pizzaPlace) Traces.loaded
    = Some (Markers.newMarker r') /\
    ((forall x, In x (restaurants (ui Traces.loaded)) ->
                r_name x = r_name (Sample.restaurantOf Sample.pizzaPlace) ->
                x = Sample.restaurantOf Sample.pizzaPlace) ->
     r' = Sample.restaurantOf Sample.pizzaPlace).
Proof.
  apply (@row_click_opens_first_namesake Traces.loaded
           [Sample.restaurantOf Sample.pizzaPlace]).
  - unfold Traces.loaded. apply reachable_run, reach_init.
  - vm_compute. reflexivity.
  - simpl. auto.
Defined.

End SchedulerMore.

(** ** FilterPipeline: the rating predicate on the working set *)

Module FilterClaims.

Import Gateway Scheduler SchedulerFacts Invariants SchedulerMore.



End FilterClaims.


Module DebounceMore.

Import Gateway Scheduler SchedulerFacts Invariants SchedulerMore.

(** *** One debounce timer *)

Lemma debounce_filter (q : Timer -> bool) (s s' : State) :
  searchTimeoutRef (refs s') = searchTimeoutRef (refs s) ->
  timers (host s') = filter q (timers (host s)) ->
  debounceTracked s /\ (List.length (debouncesPending s) <= 1)%nat ->
  debounceTracked s' /\ (List.length (debouncesPending s') <= 1)%nat.
Proof.
  unfold debounceTracked, debouncesPending. intros HR HT [H1 H2].
  rewrite HR, HT. split.
  - rewrite Forall_forall in *. intros t Ht. apply filter_In in Ht as [Ht _]. auto.
  - pose proof (filter_filter_length isDebounce q (timers (host s))). lia.
Qed.

Lemma debounce_app (extra : list Timer) (s s' : State) :
  searchTimeoutRef (refs s') = searchTimeoutRef (refs s) ->
  timers (host s') = timers (host s) ++ extra ->
  Forall (fun t => isDebounce t = false) extra ->
  debounceTracked s /\ (List.length (debouncesPending s) <= 1)%nat ->
  debounceTracked s' /\ (List.length (debouncesPending s') <= 1)%nat.
Proof.
  unfold debounceTracked, debouncesPending. intros HR HT HE [H1 H2].
  rewrite HR, HT. split.
  - apply Forall_app. split; auto.
    eapply Forall_impl; [|exact HE]. cbn. congruence.
  - rewrite filter_app, (MarkerFacts.filter_none _ HE), app_nil_r. exact H2.
Qed.

(** Clearing the timeout that [searchTimeoutRef] names leaves no
    debounce timer pending. *)
Lemma debounce_cleared (s : State) :
  debounceTracked s -> debouncesPending (clearSearchTimeout s) = [].
Proof.
  unfold debounceTracked, debouncesPending, clearSearchTimeout. intros H.
  destruct (searchTimeoutRef (refs s)) as [id|] eqn:E; cbn.
  - apply MarkerFacts.filter_none. rewrite Forall_forall in *.
    intros t Ht. apply filter_In in Ht as [Ht Hid].
    destruct (isDebounce t) eqn:D; auto.
    specialize (H t Ht D). injection H as ->.
    rewrite Nat.eqb_refl in Hid. discriminate.
  - apply MarkerFacts.filter_none. rewrite Forall_forall in *.
    intros t Ht. destruct (isDebounce t) eqn:D; auto.
    specialize (H t Ht D). discriminate.
Qed.

Lemma clearSearchTimeout_filter (s : State) :
  exists q, timers (host (clearSearchTimeout s)) = filter q (timers (host s)).
Proof.
  unfold clearSearchTimeout. destruct (searchTimeoutRef (refs s)); cbn.
  - eexists; reflexivity.
  - exists (fun _ => true). symmetry. apply MarkerFacts.filter_all.
    apply Forall_forall; auto.
Qed.

Lemma debounce_onIdle (env : Closure) (s : State) :
  debounceTracked s /\ (List.length (debouncesPending s) <= 1)%nat ->
  debounceTracked (onIdle env s) /\
  (List.length (debouncesPending (onIdle env s)) <= 1)%nat /\
  (isUpdatingRef (refs s) = true -> debouncesPending (onIdle env s) = []).
Proof.
  intros [H1 H2]. pose proof (@debounce_cleared s H1) as HC.
  destruct (clearSearchTimeout_filter s) as [q Hq].
  assert (refs (clearSearchTimeout s) = refs s) as HRefs
    by (unfold clearSearchTimeout; destruct (searchTimeoutRef (refs s)); reflexivity).
  assert (searchTimeoutRef (refs (clearSearchTimeout s)) = searchTimeoutRef (refs s))
    as HR by (rewrite HRefs; reflexivity).
  assert (isUpdatingRef (refs (clearSearchTimeout s)) = isUpdatingRef (refs s))
    as HU by (rewrite HRefs; reflexivity).
  destruct (@debounce_filter q s (clearSearchTimeout s) HR Hq (conj H1 H2)) as [K1 K2].
  unfold onIdle. rewrite HU.
  destruct (isUpdatingRef (refs s)).
  - split; [exact K1|]. split; [exact K2 | intros _; exact HC].
  - unfold debounceTracked, debouncesPending in *. cbn.
    rewrite filter_app, HC. cbn. split; [|split; [lia | discriminate]].
    apply Forall_app. split.
    + apply Forall_forall. intros t Ht D. exfalso.
      assert (In t (filter isDebounce (timers (host (clearSearchTimeout s))))) as X
        by (apply filter_In; auto).
      rewrite HC in X. destruct X.
    + repeat constructor.
Qed.

(** An event other than a settle of the viewport sets no debounce timer. *)
Lemma handle_timers (e : Event) (s : State) :
  (forall c, e <> MapIdle c) ->
  searchTimeoutRef (refs (handle e s)) = searchTimeoutRef (refs s) /\
  exists extra, timers (host (handle e s)) = timers (host s) ++ extra /\
                Forall (fun t => isDebounce t = false) extra.
Proof.
  intros He.
  destruct e; try (exfalso; eapply He; reflexivity); cases;
    (split; [congruence|]);
    first [ exists []; rewrite app_nil_r; split; [reflexivity | constructor]
          | eexists; split; [reflexivity | repeat constructor] ].
Qed.

Lemma debounce_handle (e : Event) (s : State) :
  debounceTracked s /\ (List.length (debouncesPending s) <= 1)%nat ->
  debounceTracked (handle e s) /\
  (List.length (debouncesPending (handle e s)) <= 1)%nat.
Proof.
  intros H.
  assert ((exists c, e = MapIdle c) \/ forall c, e <> MapIdle c) as [[c ->]|He]
    by (destruct e; eauto; right; discriminate).
  - cbn [handle]. destruct (idleListener (host s)) as [env|]; auto.
    destruct (@debounce_onIdle env (with_host (host_mapCenter (Some c)) s) H)
      as (K1 & K2 & _). auto.
  - destruct (@handle_timers e s He) as (HR & extra & HT & HE).
    apply (@debounce_app extra s (handle e s) HR HT HE H).
Qed.

Lemma flush_timers_filter (s : State) :
  searchTimeoutRef (refs (flush s)) = searchTimeoutRef (refs s) /\
  exists q, timers (host (flush s)) = filter q (timers (host s)).
Proof.
  assert (timers (host s) = filter (fun _ => true) (timers (host s))) as Hid
    by (symmetry; apply MarkerFacts.filter_all, Forall_forall; auto).
  unfold flush, autocompleteEffect, idleEffect.
  cases; (split; [congruence|]);
    first [ exists (fun _ => true); exact Hid | eexists; reflexivity ].
Qed.

Lemma debounce_flush (s : State) :
  debounceTracked s /\ (List.length (debouncesPending s) <= 1)%nat ->
  debounceTracked (flush s) /\
  (List.length (debouncesPending (flush s)) <= 1)%nat.
Proof.
  destruct (flush_timers_filter s) as (HR & q & HT).
  apply (@debounce_filter q s (flush s) HR HT).
Qed.

Lemma debounce_fire (t : Timer) (s : State) :
  debounceTracked s /\ (List.length (debouncesPending s) <= 1)%nat ->
  debounceTracked (fire t s) /\
  (List.length (debouncesPending (fire t s)) <= 1)%nat.
Proof.
  intros H. unfold fire. apply debounce_flush.
  eapply (@debounce_filter (fun u => negb (Nat.eqb (timer_id u) (timer_id t))) s);
    [| |exact H].
  - destruct (action t); cases; reflexivity.
  - rewrite runTimer_timers. reflexivity.
Qed.

Lemma handle_idleListener (e : Event) (s : State) :
  idleListener (host (handle e s)) = idleListener (host s).
Proof. destruct e; cases; congruence. Qed.

Lemma quiet_handle (e : Event) (s : State) :
  (idleListener (host s) = None -> debouncesPending s = []) ->
  idleListener (host (handle e s)) = None -> debouncesPending (handle e s) = [].
Proof.
  rewrite handle_idleListener. intros H L. specialize (H L).
  assert ((exists c, e = MapIdle c) \/ forall c, e <> MapIdle c) as [[c ->]|He]
    by (destruct e; eauto; right; discriminate).
  - cbn [handle]. rewrite L. exact H.
  - destruct (@handle_timers e s He) as (_ & extra & HT & HE).
    unfold debouncesPending in *.
    rewrite HT, filter_app, H, (MarkerFacts.filter_none _ HE). reflexivity.
Qed.

Lemma autocompleteEffect_timers (s : State) :
  timers (host (autocompleteEffect s)) = timers (host s).
Proof. unfold autocompleteEffect. cases; reflexivity. Qed.

Lemma quiet_flush (s : State) :
  debounceTracked s ->
  (idleListener (host s) = None -> debouncesPending s = []) ->
  idleListener (host (flush s)) = None -> debouncesPending (flush s) = [].
Proof.
  intros HT H. unfold flush. destruct (dirty s); auto.
  unfold debouncesPending. rewrite autocompleteEffect_timers.
  unfold idleEffect. cbn [with_dirty host idleListener].
  destruct (idleListener (host s)) eqn:L; intros _.
  - apply (@debounce_cleared (with_dirty false s)). exact HT.
  - apply H. reflexivity.
Qed.

Lemma quiet_fire (t : Timer) (s : State) :
  debounceTracked s /\ (List.length (debouncesPending s) <= 1)%nat ->
  (idleListener (host s) = None -> debouncesPending s = []) ->
  idleListener (host (fire t s)) = None -> debouncesPending (fire t s) = [].
Proof.
  intros HT H. unfold fire.
  assert (debounceTracked
            (runTimer (action t)
               (with_host (fun h => host_now (Z.max (now h) (due t)) h)
                  (clearTimeout (timer_id t) s))) /\
          (idleListener (host (runTimer (action t)
               (with_host (fun h => host_now (Z.max (now h) (due t)) h)
                  (clearTimeout (timer_id t) s)))) = None ->
           debouncesPending (runTimer (action t)
               (with_host (fun h => host_now (Z.max (now h) (due t)) h)
                  (clearTimeout (timer_id t) s))) = [])) as [K1 K2].
  { split.
    - eapply (@debounce_filter
                (fun u => negb (Nat.eqb (timer_id u) (timer_id t))) s);
        [| |exact HT].
      + destruct (action t); cases; reflexivity.
      + rewrite runTimer_timers. reflexivity.
    - unfold debouncesPending. rewrite runTimer_timers. cbn.
      intros L. apply filter_filter_nil, H.
      revert L. destruct (action t); cases; auto. }
  apply quiet_flush; auto.
Qed.

Lemma debounce_invariant (s : State) :
  reachable s ->
  debounceTracked s /\ (List.length (debouncesPending s) <= 1)%nat /\
  (idleListener (host s) = None -> debouncesPending s = []).
Proof.
  apply (@preserved_reachable (fun s =>
    debounceTracked s /\ (List.length (debouncesPending s) <= 1)%nat /\
    (idleListener (host s) = None -> debouncesPending s = []))).
  - intros e s0 (H1 & H2 & H3).
    destruct (@debounce_handle e s0 (conj H1 H2)) as [K1 K2].
    destruct (@debounce_flush (handle e s0) (conj K1 K2)) as [L1 L2].
    split; [exact L1|]. split; [exact L2|].
    apply quiet_flush; auto. apply quiet_handle; auto.
  - intros t s0 _ (H1 & H2 & H3).
    destruct (@debounce_fire t s0 (conj H1 H2)) as [K1 K2].
    split; [exact K1|]. split; [exact K2|]. apply quiet_fire; auto.
  - intros T s0 H. exact H.
  - split; [constructor | split; [cbn; lia | reflexivity]].
Qed.

(** X12.  In every reachable state at most one debounce timer is
    pending, the one [searchTimeoutRef] names: whatever the idle
    listener set before has been cancelled.  A settle of the viewport
    while the guard is set cancels the pending timer and sets none, so
    no search follows it. *)
Theorem one_debounce_pending (s : State) :
  reachable s ->
  (List.length (debouncesPending s) <= 1)%nat /\
  (forall t, In t (debouncesPending s) ->
             searchTimeoutRef (refs s) = Some (timer_id t)) /\
  (forall c, isUpdatingRef (refs s) = true ->
             debouncesPending (dispatch (MapIdle c) s) = []).
Proof.
  intros R. destruct (debounce_invariant R) as (H1 & H2 & H3).
  split; [exact H2|]. split.
  - intros t Ht. unfold debouncesPending in Ht. apply filter_In in Ht as [Ht D].
    unfold debounceTracked in H1. rewrite Forall_forall in H1. auto.
  - intros c HU. unfold dispatch.
    destruct (flush_timers_filter (handle (MapIdle c) s)) as (_ & q & HT).
    unfold debouncesPending at 1. rewrite HT.
    apply filter_filter_nil. cbn [handle].
    destruct (idleListener (host s)) as [env|] eqn:L.
    + destruct (@debounce_onIdle env (with_host (host_mapCenter (Some c)) s)
                  (conj H1 H2)) as (_ & _ & K).
      apply K. exact HU.
    + apply H3. reflexivity.
Qed.

Lemma one_debounce_pending_witness :
  (List.length (debouncesPending Traces.searching) <= 1)%nat /\
  (forall t, In t (debouncesPending Traces.searching) ->
             searchTimeoutRef (refs Traces.searching) = Some (timer_id t)) /\
  (forall c, isUpdatingRef (refs Traces.searching) = true ->
             debouncesPending (dispatch (MapIdle c) Traces.searching) = []).
Proof.
  apply (@one_debounce_pending Traces.searching).
  unfold Traces.searching, Traces.loaded.
  do 2 apply reachable_run. apply reach_init.
Defined.

End DebounceMore.

Module GuardMore.

Import Gateway Scheduler SchedulerFacts Invariants SchedulerMore.

(** *** The calls in flight *)

Lemma filter_split_length {A : Type} (p : A -> bool) (l : list A) :
  List.length l
  = (List.length (filter p l) + List.length (filter (fun x => negb (p x)) l))%nat.
Proof.
  induction l as [|x l IH]; simpl; auto. destruct (p x); simpl; lia.
Qed.

Lemma firstOnce_handle (e : Event) (s : State) :
  firstOnce s -> firstOnce (handle e s).
Proof.
  unfold firstOnce, firstSearchInFlight. intros H.
  assert (forall id,
    (List.length (filter (fun c => negb (viaSearchNearby c))
       (filter (fun c => negb (Nat.eqb (call_id c) id)) (inflight (host s))))
     <= List.length (filter (fun c => negb (viaSearchNearby c))
                       (inflight (host s))))%nat) as HF
    by (intros; apply filter_filter_length).
  destruct e; cases; rewrite ?filter_app, ?length_app; cbn;
    try lia;
    match goal with
    | |- context [Nat.eqb _ ?id] => specialize (HF id); lia
    end.
Qed.

Lemma firstOnce_flush (s : State) : firstOnce s -> firstOnce (flush s).
Proof.
  unfold firstOnce, firstSearchInFlight. rewrite flush_inflight.
  assert (geoPending (host (flush s)) = geoPending (host s)) as ->
    by (unfold flush, autocompleteEffect, idleEffect; cases; reflexivity).
  auto.
Qed.

Lemma firstOnce_fire (t : Timer) (s : State) : firstOnce s -> firstOnce (fire t s).
Proof.
  intros H. unfold fire. apply firstOnce_flush. revert H.
  unfold firstOnce, firstSearchInFlight.
  destruct (action t); cases; rewrite ?filter_app, ?length_app; cbn; lia.
Qed.

Lemma reachable_firstOnce (s : State) : reachable s -> firstOnce s.
Proof.
  apply (@preserved_reachable firstOnce).
  - intros e s0 H. apply firstOnce_flush, firstOnce_handle, H.
  - intros t s0 _. apply firstOnce_fire.
  - intros T s0 H. exact H.
  - unfold firstOnce. cbn. lia.
Qed.

(** X13.  In every reachable state at most two gateway calls are
    unanswered: at most one made by [searchNearby] and at most one first
    search, which is made once, when the position arrives. *)
Theorem at_most_two_calls (s : State) :
  reachable s ->
  (List.length (inflight (host s)) <= 2)%nat /\
  (List.length (firstSearchInFlight s) <= 1)%nat /\
  (geoPending (host s) = true -> firstSearchInFlight s = []).
Proof.
  intros R. pose proof (reachable_firstOnce R) as F.
  pose proof (reachable_settled R) as [G _ _ _ _].
  unfold firstOnce in F. unfold guarded in G.
  assert (List.length (searchesInFlight s) <= 1)%nat as HS
    by (destruct (isUpdatingRef (refs s)); lia).
  assert (List.length (firstSearchInFlight s) <= 1)%nat as HF
    by (destruct (geoPending (host s)); lia).
  split; [|split; [exact HF|]].
  - rewrite (filter_split_length viaSearchNearby).
    unfold searchesInFlight, firstSearchInFlight in *. lia.
  - intros E. rewrite E in F.
    destruct (firstSearchInFlight s); [reflexivity | simpl in F; lia].
Qed.

Lemma at_most_two_calls_witness :
  (List.length (inflight (host Traces.overlapping)) <= 2)%nat /\
  (List.length (firstSearchInFlight Traces.overlapping) <= 1)%nat /\
  (geoPending (host Traces.overlapping) = true ->
   firstSearchInFlight Traces.overlapping = []).
Proof.
  apply (@at_most_two_calls Traces.overlapping).
  unfold Traces.overlapping. apply reachable_run, reach_init.
Defined.

(** *** A callback that throws *)

Lemma wedged_handle (e : Event) (s : State) :
  wedged s ->
  wedged (handle e s) /\ searchesIssued (handle e s) = searchesIssued s.
Proof.
  intros (HU & HR & HS). split; [|apply closed_handle_searches; exact HU].
  unfold wedged, resetsPending, searchesInFlight in *.
  assert (forall q, filter isReset (filter q (timers (host s))) = []) as HR'
    by (intros; apply filter_filter_nil; exact HR).
  assert (forall q, filter viaSearchNearby (filter q (inflight (host s))) = [])
    as HS' by (intros; apply filter_filter_nil; exact HS).
  destruct e;
    try (cases; rewrite ?HU in *; try discriminate;
         rewrite ?filter_app, ?HR, ?HS, ?HR', ?HS'; cbn;
         repeat split; solve [reflexivity | assumption | congruence]).
  cbn [handle]. destruct (findCall id s) as [c|] eqn:F; [|repeat split; auto].
  destruct (call_origin c) eqn:O.
  - unfold onInitialResponse.
    cases; rewrite ?HS'; repeat split; solve [reflexivity | assumption].
  - exfalso. pose proof (@in_flight s id c F O) as X.
    unfold searchesInFlight in X. rewrite HS in X. destruct X.
Qed.

Lemma wedged_flush (s : State) : wedged s -> wedged (flush s).
Proof.
  intros (HU & HR & HS).
  unfold wedged, resetsPending, searchesInFlight in *.
  rewrite flush_inflight.
  destruct (DebounceMore.flush_timers_filter s) as (_ & q & ->).
  split; [|split; [apply filter_filter_nil; exact HR | exact HS]].
  unfold flush, autocompleteEffect, idleEffect. cases; assumption.
Qed.

Lemma wedged_fire (t : Timer) (s : State) :
  In t (timers (host s)) -> wedged s ->
  wedged (fire t s) /\ searchesIssued (fire t s) = searchesIssued s.
Proof.
  intros Hin (HU & HR & HS).
  assert (isReset t = false) as Ht.
  { destruct (isReset t) eqn:E; auto. exfalso.
    assert (In t (resetsPending s)) as X by (apply filter_In; auto).
    rewrite HR in X. destruct X. }
  unfold fire. split.
  - apply wedged_flush.
    unfold wedged, resetsPending, searchesInFlight, isReset in *.
    rewrite runTimer_timers. cbn.
    split; [|split; [apply filter_filter_nil; exact HR|]];
      destruct (action t); try discriminate Ht; cases;
      first [assumption | congruence].
  - unfold searchesIssued. rewrite flush_issued. unfold isReset in Ht.
    destruct (action t); try discriminate Ht; cases; congruence.
Qed.

Lemma wedged_run (evs : list (Z * Event)) (s : State) :
  wedged s -> wedged (run evs s) /\ searchesIssued (run evs s) = searchesIssued s.
Proof.
  intros W.
  apply (@preserved_run (fun s' => wedged s' /\ searchesIssued s' = searchesIssued s));
    auto.
  - intros e s0 [H E]. destruct (@wedged_handle e s0 H) as [H' E'].
    unfold dispatch. split; [apply wedged_flush, H'|].
    unfold searchesIssued in *. rewrite flush_issued. congruence.
  - intros t s0 Hin [H E]. destruct (@wedged_fire t s0 Hin H) as [H' E'].
    split; [exact H' | congruence].
Qed.

(** X14.  When the callback of a search made by [searchNearby] throws
    (an admitted record has no geometry), the statement that schedules
    the reset of the guard is never reached: whatever events follow and
    however long, the guard stays set and [searchNearby] makes no call
    again: not for Search, not for Reset, not for a pan of the map. *)
Theorem throwing_callback_wedges_guard (s : State) (id : nat) (c : Call)
    (rs : list PlaceResult) (e : exn) (evs : list (Z * Event)) :
  reachable s ->
  findCall id s = Some c -> call_origin c = ViaSearchNearby ->
  Normalizer.normalize rs = Throw e ->
  isUpdatingRef (refs (run evs (dispatch (Response id OK (Some rs)) s))) = true /\
  searchesIssued (run evs (dispatch (Response id OK (Some rs)) s))
  = searchesIssued s.
Proof.
  intros R F O N.
  pose proof (reachable_settled R) as [G _ _ _ _].
  pose proof (@in_flight s id c F O) as Hc.
  destruct (@in_flight_closed s G) as [HU HF];
    [intros E; rewrite E in Hc; destruct Hc|].
  assert (wedged (dispatch (Response id OK (Some rs)) s) /\
          searchesIssued (dispatch (Response id OK (Some rs)) s)
          = searchesIssued s) as [W E].
  { unfold dispatch. split.
    - apply wedged_flush. cbn [handle]. rewrite F, O.
      unfold onSearchResponse. rewrite N.
      unfold wedged, resetsPending, searchesInFlight. cbn.
      split; [exact HU|]. split.
      + apply MarkerFacts.filter_none. exact HF.
      + unfold guarded in G. rewrite HU in G.
        pose proof (@filter_remove_lt _ viaSearchNearby
                      (fun c => negb (Nat.eqb (call_id c) id))
                      (inflight (host s)) c) as L.
        apply findCall_spec in F as [Hin Hid]. cbn beta in L.
        rewrite Hid, Nat.eqb_refl in L.
        assert (viaSearchNearby c = true) as V
          by (unfold viaSearchNearby; rewrite O; reflexivity).
        specialize (L Hin V eq_refl). unfold searchesInFlight in G.
        destruct (filter viaSearchNearby
                    (filter (fun c => negb (Nat.eqb (call_id c) id))
                       (inflight (host s)))); [reflexivity | simpl in L; lia].
    - unfold searchesIssued. rewrite flush_issued. cbn [handle]. rewrite F, O.
      unfold onSearchResponse. rewrite N. reflexivity. }
  destruct (@wedged_run evs _ W) as [(HU' & _) E'].
  split; [exact HU' | congruence].
Qed.

Lemma throwing_callback_wedges_guard_witness :
  isUpdatingRef
    (refs (run [(9000, ClickSearch); (20000, MapIdle Sample.here)]
             (dispatch (Response 1 OK (Some [Sample.ghostKitchen]))
                Traces.searching))) = true /\
  searchesIssued
    (run [(9000, ClickSearch); (20000, MapIdle Sample.here)]
       (dispatch (Response 1 OK (Some [Sample.ghostKitchen])) Traces.searching))
  = searchesIssued Traces.searching.
Proof.
  apply (@throwing_callback_wedges_guard Traces.searching 1%nat Traces.call1
           [Sample.ghostKitchen] TypeError).
  - unfold Traces.searching, Traces.loaded.
    do 2 apply reachable_run. apply reach_init.
  - vm_compute; reflexivity.
  - reflexivity.
  - reflexivity.
Defined.

(** *** A callback that runs to its end *)

Lemma completed_response_schedules_reset (s : State) (id : nat) (c : Call)
    (st : PlacesServiceStatus) (res : option (list PlaceResult)) :
  settled s -> findCall id s = Some c -> call_origin c = ViaSearchNearby ->
  completes st res ->
  let s' := dispatch (Response id st res) s in
  let r := {| timer_id := nextTimer (host s);
              due := now (host s) + cooldown;
              action := ResetUpdating |} in
  isUpdatingRef (refs s') = true /\ dirty s' = false /\
  (exists pre, timers (host s') = pre ++ [r] /\
     Forall (fun t => isReset t = false /\ timer_id t <> timer_id r) pre) /\
  now (host s') = now (host s).
Proof.
  intros [G M [FT FR] D K] F O Hst s' r.
  pose proof (@in_flight s id c F O) as Hc.
  destruct (@in_flight_closed s G) as [HU HF];
    [intros E; rewrite E in Hc; destruct Hc|].
  assert (Forall (fun t => isReset t = false /\ timer_id t <> timer_id r)
            (timers (host s))) as Hpre.
  { rewrite Forall_forall in *. intros t Ht. split; auto.
    specialize (FT _ Ht). cbn. lia. }
  assert (forall q, Forall (fun t => isReset t = false /\ timer_id t <> timer_id r)
            (filter q (timers (host s)))) as Hpre'.
  { intros q. rewrite Forall_forall in *. intros t Ht.
    apply filter_In in Ht as [Ht _]. auto. }
  subst s'. unfold dispatch. cbn [handle]. rewrite F, O.
  assert (forall n, searchTimeoutRef (refs s) = Some n ->
                    Nat.eqb (nextTimer (host s)) n = false) as Hn.
  { intros n Hn. apply Nat.eqb_neq. specialize (FR _ Hn). lia. }
  unfold onSearchResponse.
  assert (match st, res with
          | OK, Some rs => exists out, Normalizer.normalize rs = Ok out
          | _, _ => True
          end) as Hst' by exact Hst.
  clear Hst.
  split; [|split; [apply rendered_flush|]].
  { unfold flush, autocompleteEffect, idleEffect.
    destruct st, res as [rs|];
      cbn in Hst';
      try match type of Hst' with
          | ex _ => destruct Hst' as [out Hout]; rewrite Hout
          end;
      cases; congruence. }
  rewrite flush_now.
  unfold flush, autocompleteEffect, idleEffect.
  destruct st, res as [rs|];
    cbn in Hst';
      try match type of Hst' with
          | ex _ => destruct Hst' as [out Hout]; rewrite Hout
          end;
      cases;
    (split; [|reflexivity]);
    first [ exists (timers (host s)); split; [reflexivity | exact Hpre]
          | eexists; split;
            [ rewrite filter_app; cbn; rewrite (Hn _ eq_refl); cbn; reflexivity
            | apply Hpre' ] ].
Qed.

(** X15.  When the callback of a search made by [searchNearby] runs to
    its end, whatever the status, the guard stays set for one second
    from the answer and is open from then on: it reopens exactly when
    the cooldown has passed. *)
Theorem guard_reopens_after_cooldown (s : State) (id : nat) (c : Call)
    (st : PlacesServiceStatus) (res : option (list PlaceResult)) :
  reachable s ->
  findCall id s = Some c -> call_origin c = ViaSearchNearby ->
  completes st res ->
  (forall T, T < now (host s) + cooldown ->
     isUpdatingRef (refs (advance T (dispatch (Response id st res) s))) = true) /\
  isUpdatingRef
    (refs (advance (now (host s) + cooldown) (dispatch (Response id st res) s)))
  = false.
Proof.
  intros R F O Hc. pose proof (reachable_settled R) as S.
  split.
  - intros T HT.
    destruct (@response_closes s id c st res S F O) as [C _].
    destruct (@closed_advance T (now (host s) + cooldown)
                (dispatch (Response id st res) s) HT C) as [[HU _] _].
    exact HU.
  - destruct (@completed_response_schedules_reset s id c st res S F O Hc)
      as (HU & HD & (pre & HT & Hpre) & HN).
    set (s' := dispatch (Response id st res) s) in *.
    set (r := {| timer_id := nextTimer (host s); due := now (host s) + cooldown;
                 action := ResetUpdating |}) in *.
    assert (now (host s') <= due r) as Hnow by (cbn; unfold cooldown; lia).
    destruct (@reopen_advanceFuel (List.length (timers (host s'))) r pre s'
                HU HD HT eq_refl Hpre Hnow) as (A1 & _).
    { rewrite HT, length_app. cbn. lia. }
    unfold advance. cbn. exact A1.
Qed.

Lemma guard_reopens_after_cooldown_witness :
  (forall T, T < now (host (advance 2100 Traces.searching)) + cooldown ->
     isUpdatingRef
       (refs (advance T (dispatch (Response 1 OK (Some Sample.results))
                           (advance 2100 Traces.searching)))) = true) /\
  isUpdatingRef
    (refs (advance (now (host (advance 2100 Traces.searching)) + cooldown)
             (dispatch (Response 1 OK (Some Sample.results))
                (advance 2100 Traces.searching))))
  = false.
Proof.
  apply (@guard_reopens_after_cooldown (advance 2100 Traces.searching) 1%nat
           Traces.call1).
  - apply reach_wait. unfold Traces.searching, Traces.loaded.
    do 2 apply reachable_run. apply reach_init.
  - vm_compute; reflexivity.
  - reflexivity.
  - exists [Sample.restaurantOf Sample.pizzaPlace]. vm_compute. reflexivity.
Defined.

End GuardMore.

(** ** The keyword of a search *)

Module KeywordFacts.

Import Gateway Scheduler SchedulerFacts Invariants SchedulerMore.



(** A render cancels whatever debounce timer is pending. *)
Lemma render_clears_debounce (s : State) :
  debounceTracked s ->
  (idleListener (host s) = None -> debouncesPending s = []) ->
  dirty s = true -> debouncesPending (flush s) = [].
Proof.
  intros HT HQ D. unfold flush. rewrite D.
  unfold debouncesPending. rewrite DebounceMore.autocompleteEffect_timers.
  unfold idleEffect. cbn [with_dirty host idleListener].
  destruct (idleListener (host s)) eqn:L.
  - apply (@DebounceMore.debounce_cleared (with_dirty false s)). exact HT.
  - apply HQ. reflexivity.
Qed.













End KeywordFacts.

Module KeywordClaims.

Import Gateway Scheduler SchedulerFacts Invariants SchedulerMore KeywordFacts.




(** After the cuisine filter "sushi" has been rendered, a press on
    Search sends it as the keyword. *)
Example search_sends_rendered_cuisine :
  exists c,
    issued (host (dispatch ClickSearch Traces.sushi))
    = issued (host Traces.sushi) ++ [(4000, c)] /\
    rq_keyword (call_request c) = Some "sushi".
Proof. eexists. split; vm_compute; reflexivity. Qed.

End KeywordClaims.


Module ControlsMore.

Import Gateway Scheduler SchedulerFacts Invariants SchedulerMore.

(** *** Without a position *)

Lemma handle_geoPending (e : Event) (s : State) :
  geoPending (host (handle e s)) = true -> geoPending (host s) = true.
Proof. destruct e; cases; congruence. Qed.

Lemma flush_geoPending (s : State) :
  geoPending (host (flush s)) = geoPending (host s).
Proof. unfold flush, autocompleteEffect, idleEffect. cases; reflexivity. Qed.

Lemma unmapped_handle (e : Event) (s : State) :
  (forall p, e <> GeoSuccess p) \/ geoPending (host s) = false ->
  unmapped s -> unmapped (handle e s).
Proof.
  unfold unmapped. intros He (U1 & U2 & U3 & U4 & U5 & U6 & U7 & U8 & U9).
  destruct e;
    try (cases; rewrite ?U1, ?U2, ?U3, ?U4, ?U5, ?U6, ?U7, ?U8, ?U9 in *;
         cbn in *; repeat split; solve [auto | discriminate | congruence]).
  all: cbn [handle] in *;
    first [ destruct He as [He|He];
            [ exfalso; eapply He; reflexivity
            | rewrite He; repeat split; assumption ]
          | unfold findCall; rewrite U6; cbn; repeat split; assumption
          | rewrite U4; repeat split; assumption
          | rewrite U3; repeat split; assumption ].
Qed.

Lemma unmapped_flush (s : State) : unmapped s -> unmapped (flush s).
Proof.
  unfold unmapped. intros (U1 & U2 & U3 & U4 & U5 & U6 & U7 & U8 & U9).
  unfold flush, autocompleteEffect, idleEffect.
  destruct (dirty s); [|repeat split; assumption].
  cbn. rewrite U4. cbn. rewrite U1, U3, U2. cbn.
  rewrite U1. repeat split; assumption.
Qed.

Lemma reachable_waiting (s : State) : reachable s -> waiting s.
Proof.
  apply (@preserved_reachable waiting); unfold waiting.
  - intros e s0 W G. unfold dispatch in *. rewrite flush_geoPending in G.
    pose proof (handle_geoPending _ _ G) as G0.
    apply unmapped_flush, unmapped_handle; auto.
    left. intros p ->. cbn in G. rewrite G0 in G. cbn in G. discriminate.
  - intros t s0 Hin W G. exfalso.
    assert (geoPending (host s0) = true) as G0.
    { revert G. unfold fire. rewrite flush_geoPending.
      destruct (action t); cases; congruence. }
    destruct (W G0) as (_ & _ & _ & _ & U5 & _). rewrite U5 in Hin. destruct Hin.
  - intros T s0 W. exact W.
  - intros _. repeat split.
Qed.

Lemma denied_handle (e : Event) (s : State) : denied s -> denied (handle e s).
Proof.
  intros (G & U & L & E).
  pose proof (@unmapped_handle e s (or_intror G) U) as U'.
  destruct U as (U1 & U2 & U3 & U4 & U5 & U6 & U7 & U8 & U9).
  split; [|split; [exact U'|]].
  - destruct e; cases; congruence.
  - destruct e;
      try (cases; rewrite ?U1, ?U3, ?U4, ?U6, ?G in *; cbn in *;
           split; solve [auto | discriminate | congruence]).
    all: cbn [handle] in *;
      first [ rewrite G; split; assumption
            | unfold findCall; rewrite U6; cbn; split; assumption
            | rewrite U4; split; assumption
            | rewrite U3; split; assumption ].
Qed.

Lemma denied_flush (s : State) : denied s -> denied (flush s).
Proof.
  intros (G & U & L & E). unfold denied.
  rewrite flush_geoPending, flush_ui. repeat split; auto.
  all: apply (unmapped_flush U).
Qed.

Lemma denied_run (evs : list (Z * Event)) (s : State) :
  denied s -> denied (run evs s).
Proof.
  apply (@preserved_run denied).
  - intros e s0 H. apply denied_flush, denied_handle, H.
  - intros t s0 Hin (_ & (_ & _ & _ & _ & U5 & _) & _).
    rewrite U5 in Hin. destruct Hin.
  - intros T s0 H. exact H.
Qed.

(** X16.  When the position request is refused the component shows the
    geolocation error and nothing else, and stays so: there is no map,
    and whatever the user does afterwards (Search, Reset, a cuisine, a
    radius) no gateway call is ever made. *)
Theorem denied_position_never_searches (s : State) (T : Z)
    (evs : list (Z * Event)) :
  reachable s -> geoPending (host s) = true ->
  issued (host (run evs (step (T, GeoDenied) s))) = [] /\
  mapInstance (ui (run evs (step (T, GeoDenied) s))) = None /\
  Display.render (ui (run evs (step (T, GeoDenied) s)))
  = Ok [Display.ErrorBanner msgGeoDenied].
Proof.
  intros R G.
  assert (denied (step (T, GeoDenied) s)) as D.
  { pose proof (reachable_waiting (reach_wait T R)) as W.
    assert (geoPending (host (advance T s)) = true) as G'.
    { unfold advance. cbn.
      destruct (reachable_waiting R G) as (_ & _ & _ & _ & U5 & _).
      rewrite U5. cbn. exact G. }
    specialize (W G'). unfold step, dispatch. cbn [fst snd].
    apply denied_flush. cbn [handle]. rewrite G'.
    destruct W as (U1 & U2 & U3 & U4 & U5 & U6 & U7 & U8 & U9).
    repeat split; cbn; auto. }
  destruct (denied_run evs D)
    as (_ & (U1 & _ & _ & _ & _ & _ & U7 & U8 & _) & L & E).
  split; [exact U7|]. split; [exact U1|].
  destruct (render_total (ui (run evs (step (T, GeoDenied) s)))) as (_ & _ & HO).
  rewrite HO by (rewrite U8; constructor).
  unfold Display.view, Display.errorText. rewrite L, E, U8. reflexivity.
Qed.

Lemma denied_position_never_searches_witness :
  issued (host (run [(100, ClickSearch); (200, ChangeRadius 1609)]
                  (step (50, GeoDenied) init))) = [] /\
  mapInstance (ui (run [(100, ClickSearch); (200, ChangeRadius 1609)]
                     (step (50, GeoDenied) init))) = None /\
  Display.render (ui (run [(100, ClickSearch); (200, ChangeRadius 1609)]
                        (step (50, GeoDenied) init)))
  = Ok [Display.ErrorBanner msgGeoDenied].
Proof.
  apply (@denied_position_never_searches init 50
           [(100, ClickSearch); (200, ChangeRadius 1609)]).
  - apply reach_init.
  - reflexivity.
Defined.

(** *** The closures of the controls *)

Lemma handle_autocompleteRef (e : Event) (s : State) :
  autocompleteRef (refs (handle e s)) = autocompleteRef (refs s).
Proof. destruct e; cases; congruence. Qed.

Lemma flush_autocompleteRef (env : Closure) (s : State) :
  autocompleteRef (refs s) = Some env ->
  autocompleteRef (refs (flush s)) = Some env.
Proof.
  intros H. unfold flush, autocompleteEffect, idleEffect. cases; congruence.
Qed.

Lemma fire_autocompleteRef (env : Closure) (t : Timer) (s : State) :
  autocompleteRef (refs s) = Some env ->
  autocompleteRef (refs (fire t s)) = Some env.
Proof.
  intros H. unfold fire. apply flush_autocompleteRef.
  destruct (action t); cases; congruence.
Qed.

(** X17.  The listener of the autocomplete box is installed once and
    keeps the closure of the render that installed it, whatever happens
    afterwards.  The search that a selected place starts is therefore
    made with the radius, the cuisine filter and the search term of
    that render, not with the current ones and not with the name of the
    selected place, which is only stored as the new search term. *)
Theorem place_selection_uses_first_closure (s : State) (env : Closure)
    (evs : list (Z * Event)) (place : PlaceResult) (g : PlaceGeometry)
    (loc : LatLng) :
  autocompleteRef (refs s) = Some env ->
  autocompleteRef (refs (run evs s)) = Some env /\
  (geometry place = Some g -> location g = Some loc ->
   cl_mapInstance env <> None -> isUpdatingRef (refs s) = false ->
   exists c,
     issued (host (dispatch (PlaceChanged place) s))
     = issued (host s) ++ [(now (host s), c)] /\
     call_request c
     = buildRequest loc (cl_searchRadius env) (cl_cuisineFilter env)
         (cl_searchTerm env) /\
     searchTerm (ui (dispatch (PlaceChanged place) s))
     = match name place with Some n => n | None => "" end).
Proof.
  intros H. split.
  - apply (@preserved_run (fun s' => autocompleteRef (refs s') = Some env)); auto.
    + intros e s0 H0. unfold dispatch. apply flush_autocompleteRef.
      rewrite handle_autocompleteRef. exact H0.
    + intros t s0 _. apply fire_autocompleteRef.
  - intros Hg Hl Hm HU. unfold dispatch. rewrite flush_issued, flush_ui.
    cbn [handle]. rewrite H. unfold onPlaceChanged. rewrite Hg, Hl.
    destruct (cl_mapInstance env); [|congruence].
    unfold searchNearby. cbn. rewrite HU. cbn.
    eexists. repeat (split; [reflexivity|]). reflexivity.
Qed.

Lemma place_selection_uses_first_closure_witness :
  autocompleteRef
    (refs (run [(5000, ChangeRadius 1609)] Traces.loaded))
  = Some (closure Traces.loaded) /\
  (geometry Sample.pizzaPlace = Some {| location := Some Sample.here |} ->
   location {| location := Some Sample.here |} = Some Sample.here ->
   cl_mapInstance (closure Traces.loaded) <> None ->
   isUpdatingRef (refs Traces.loaded) = false ->
   exists c,
     issued (host (dispatch (PlaceChanged Sample.pizzaPlace) Traces.loaded))
     = issued (host Traces.loaded) ++ [(now (host Traces.loaded), c)] /\
     call_request c
     = buildRequest Sample.here (cl_searchRadius (closure Traces.loaded))
         (cl_cuisineFilter (closure Traces.loaded))
         (cl_searchTerm (closure Traces.loaded)) /\
     searchTerm (ui (dispatch (PlaceChanged Sample.pizzaPlace) Traces.loaded))
     = match name Sample.pizzaPlace with Some n => n | None => "" end).
Proof.
  apply (@place_selection_uses_first_closure Traces.loaded
           (closure Traces.loaded) [(5000, ChangeRadius 1609)]
           Sample.pizzaPlace {| location := Some Sample.here |} Sample.here).
  vm_compute. reflexivity.
Defined.

(** X18.  A control that stores a value and then calls [searchNearby]
    searches with the values of the last render, not with the one it
    has just stored: the search made by a radius change asks for the
    radius that was selected before the change, the one made by a
    cuisine change carries the cuisine filter from before the change,
    and the one made by Reset carries the filters it has just cleared.
    The new values are stored and are used by the next search. *)
Theorem control_searches_with_values_before_change (s : State) (h : MapHandle)
    (center : LatLng) :
  mapInstance (ui s) = Some h -> mapCenter (host s) = Some center ->
  isUpdatingRef (refs s) = false ->
  (forall m, exists c,
     issued (host (dispatch (ChangeRadius m) s))
     = issued (host s) ++ [(now (host s), c)] /\
     call_request c
     = buildRequest center (searchRadius (ui s)) (cuisineFilter (ui s))
         (searchTerm (ui s)) /\
     searchRadius (ui (dispatch (ChangeRadius m) s)) = m) /\
  (forall v, exists c,
     issued (host (dispatch (ChangeCuisine v) s))
     = issued (host s) ++ [(now (host s), c)] /\
     call_request c
     = buildRequest center (searchRadius (ui s)) (cuisineFilter (ui s))
         (searchTerm (ui s)) /\
     cuisineFilter (ui (dispatch (ChangeCuisine v) s)) = v) /\
  (exists c,
     issued (host (dispatch ClickReset s))
     = issued (host s) ++ [(now (host s), c)] /\
     call_request c
     = buildRequest center (searchRadius (ui s)) (cuisineFilter (ui s))
         (searchTerm (ui s)) /\
     searchTerm (ui (dispatch ClickReset s)) = EmptyString /\
     cuisineFilter (ui (dispatch ClickReset s)) = EmptyString).
Proof.
  intros HM HC HU. unfold dispatch.
  split; [|split]; intros; rewrite flush_issued, flush_ui; cbn [handle];
    unfold searchAtCenter, closure; cbn; rewrite HM; cbn; rewrite HC;
    unfold searchNearby; cbn; rewrite HU; cbn;
    eexists; repeat (split; [reflexivity|]); reflexivity.
Qed.

Lemma control_searches_with_values_before_change_witness :
  exists c,
    issued (host (dispatch (ChangeRadius 1609) Traces.loaded))
    = issued (host Traces.loaded) ++ [(now (host Traces.loaded), c)] /\
    call_request c
    = buildRequest Sample.here (searchRadius (ui Traces.loaded))
        (cuisineFilter (ui Traces.loaded)) (searchTerm (ui Traces.loaded)) /\
    searchRadius (ui (dispatch (ChangeRadius 1609) Traces.loaded)) = 1609.
Proof.
  assert (mapInstance (ui Traces.loaded) = Some TheMap) as H1
    by (vm_compute; reflexivity).
  assert (mapCenter (host Traces.loaded) = Some Sample.here) as H2
    by (vm_compute; reflexivity).
  assert (isUpdatingRef (refs Traces.loaded) = false) as H3
    by (vm_compute; reflexivity).
  destruct (@control_searches_with_values_before_change Traces.loaded TheMap
              Sample.here H1 H2 H3) as [H _].
  exact (H 1609).
Defined.

(** *** Controls that only store a value *)

Lemma filteredRestaurants_outcome (f f' : FilterPipeline.DisplayFilters)
    (rs : list Restaurant) (v : list Display.Panel) :
  bind (FilterPipeline.filteredRestaurants f rs) (fun _ => Ok v)
  = bind (FilterPipeline.filteredRestaurants f' rs) (fun _ => Ok v).
Proof.
  pose proof (FilterMore.filteredRestaurants_throws f rs) as H.
  pose proof (FilterMore.filteredRestaurants_throws f' rs) as H'.
  destruct (FilterPipeline.filteredRestaurants f rs) as [o|e];
    destruct (FilterPipeline.filteredRestaurants f' rs) as [o'|e']; simpl; auto.
  - exfalso. destruct H as [_ H]. destruct H as [x X]; [|discriminate].
    apply H'. eauto.
  - exfalso. destruct H' as [_ H']. destruct H' as [x X]; [|discriminate].
    apply H. eauto.
  - destruct e, e'. reflexivity.
Qed.

Lemma render_congr (u u' : UI) :
  restaurants u = restaurants u' -> loading u = loading u' ->
  error u = error u' -> Display.render u = Display.render u'.
Proof.
  intros HR HL HE. unfold Display.render.
  assert (Display.view u = Display.view u') as ->
    by (unfold Display.view, Display.errorText, Display.rows;
        rewrite HR, HL, HE; reflexivity).
  rewrite HR. apply filteredRestaurants_outcome.
Qed.

(** X19.  In [index.tsx] the minimum-rating control and the search box
    only store their value: a change of either leaves the working set,
    the markers and the log of gateway calls as they are, and what is
    rendered is the same before and after, the filtered list being
    computed but not shown. *)
Theorem rating_and_term_change_nothing_shown (s : State) (q : Q) (v : string) :
  let after := fun e => dispatch e s in
  (Display.render (ui (after (ChangeMinRating q))) = Display.render (ui s) /\
   restaurants (ui (after (ChangeMinRating q))) = restaurants (ui s) /\
   markers (refs (after (ChangeMinRating q))) = markers (refs s) /\
   issued (host (after (ChangeMinRating q))) = issued (host s)) /\
  (Display.render (ui (after (ChangeSearchTerm v))) = Display.render (ui s) /\
   restaurants (ui (after (ChangeSearchTerm v))) = restaurants (ui s) /\
   markers (refs (after (ChangeSearchTerm v))) = markers (refs s) /\
   issued (host (after (ChangeSearchTerm v))) = issued (host s)).
Proof.
  cbv zeta. unfold dispatch.
  rewrite !flush_issued, !flush_ui, !flush_markers.
  split; (split; [apply render_congr; reflexivity|]);
    repeat (split; [reflexivity|]); reflexivity.
Qed.

Lemma fire_quiet (t : Timer) (s : State) :
  debouncesPending s = [] -> In t (timers (host s)) ->
  debouncesPending (fire t s) = [] /\ issued (host (fire t s)) = issued (host s).
Proof.
  intros HP Hin.
  assert (isDebounce t = false) as Ht.
  { destruct (isDebounce t) eqn:E; auto. exfalso.
    assert (In t (debouncesPending s)) as X by (apply filter_In; auto).
    rewrite HP in X. destruct X. }
  unfold fire. split.
  - destruct (DebounceMore.flush_timers_filter
                (runTimer (action t)
                   (with_host (fun h => host_now (Z.max (now h) (due t)) h)
                      (clearTimeout (timer_id t) s)))) as (_ & q & Hq).
    unfold debouncesPending at 1. rewrite Hq, runTimer_timers. cbn.
    do 2 apply filter_filter_nil. exact HP.
  - rewrite flush_issued. unfold isDebounce in Ht.
    destruct (action t); [discriminate Ht| |]; reflexivity.
Qed.

Lemma no_debounce_no_call (T : Z) (s : State) :
  debouncesPending s = [] -> issued (host (advance T s)) = issued (host s).
Proof.
  intros HP. unfold advance. cbn.
  generalize (List.length (timers (host s))). intros n.
  revert s HP; induction n as [|n IH]; intros s HP; simpl; auto.
  destruct (nextDue T s) as [t|] eqn:E; auto.
  apply nextDue_spec in E as [Hin _].
  destruct (@fire_quiet t s HP Hin) as [HP' HI]. rewrite (IH _ HP'). exact HI.
Qed.

(** X20.  A render cancels the pending debounce timer.  In every
    reachable state, so at every moment of the second that follows a
    settle of the viewport, a change of the search box or of the
    minimum rating leaves no debounce timer pending, and with no further
    event no search is made, however long one waits: the automatic
    search of that settle is never made. *)
Theorem render_cancels_pending_search (s : State) (e : Event) :
  reachable s ->
  (exists v, e = ChangeSearchTerm v /\ String.eqb (searchTerm (ui s)) v = false) \/
  (exists q, e = ChangeMinRating q /\ Qeq_bool (minRating (ui s)) q = false) ->
  debouncesPending (dispatch e s) = [] /\
  forall T, issued (host (advance T (dispatch e s))) = issued (host s).
Proof.
  intros R He.
  destruct (DebounceMore.debounce_invariant R) as (H1 & H2 & H3).
  destruct (@DebounceMore.debounce_handle e s (conj H1 H2)) as [T1 _].
  pose proof (@DebounceMore.quiet_handle e s H3) as Q1.
  assert (dirty (handle e s) = true /\
          issued (host (handle e s)) = issued (host s)) as [D I].
  { destruct He as [(v & -> & E)|(q & -> & E)]; cbn; rewrite E; auto. }
  pose proof (@KeywordFacts.render_clears_debounce (handle e s) T1 Q1 D) as HC.
  split; [exact HC|]. intros T.
  rewrite (@no_debounce_no_call T (dispatch e s) HC).
  unfold dispatch. rewrite flush_issued. exact I.
Qed.

Lemma render_cancels_pending_search_witness :
  List.length (debouncesPending Traces.halfLater) = 1%nat /\
  debouncesPending (dispatch (ChangeSearchTerm "p") Traces.halfLater) = [] /\
  forall T,
    issued (host (advance T (dispatch (ChangeSearchTerm "p") Traces.halfLater)))
    = issued (host Traces.halfLater).
Proof.
  split; [vm_compute; reflexivity|].
  assert (reachable Traces.halfLater) as R.
  { unfold Traces.halfLater, Traces.loaded.
    apply reach_wait, reach_step, reachable_run, reach_init. }
  apply (@render_cancels_pending_search Traces.halfLater (ChangeSearchTerm "p") R).
  left. exists "p". split; [reflexivity | vm_compute; reflexivity].
Defined.

(** Left alone, the settle of [Traces.halfLater] leads to a search. *)
Example settle_alone_searches :
  List.length (issued (host (advance 4000 Traces.halfLater)))
  = S (List.length (issued (host Traces.halfLater))).
Proof. vm_compute. reflexivity. Qed.

End ControlsMore.
